(** * Reinforcement calculator (streamlit_app.py): model and specification

    The script computes, for each of the five Canadian bar sizes, the
    number of bars, their spacing and three bar lengths, collects one
    table row per bar and derives advisory warnings from the rows.

    Python's [float] is IEEE-754 binary64 with round-to-nearest-even.
    It is modelled by [spec_float] and the operations of the standard
    library's [SpecFloat] instantiated at precision 53 and [emax] 1024,
    so every value below is the bit pattern the interpreter computes. *)

From Stdlib Require Import ZArith QArith Lia Bool List String.
From Stdlib Require Import SpecFloat.
Import ListNotations.
Local Open Scope Z_scope.

(** * Binary64 *)

Module B64.

Definition prec : Z := 53.
Definition emax : Z := 1024.

Definition float := spec_float.

Definition add : float -> float -> float := SFadd prec emax.
Definition sub : float -> float -> float := SFsub prec emax.
Definition mul : float -> float -> float := SFmul prec emax.
Definition div : float -> float -> float := SFdiv prec emax.
Definition opp : float -> float := SFopp.

(** Round-to-nearest-even of the value [m * 2^e], of which [m] is the
    integer part and [l] says where the discarded fraction lies. *)
Definition rnd (s : bool) (m e : Z) (l : location) : float :=
  binary_round_aux prec emax s m e l.

Definition ltb : float -> float -> bool := SFltb.
Definition leb : float -> float -> bool := SFleb.
Definition eqb : float -> float -> bool := SFeqb.

Definition zero : float := S754_zero false.
Definition nan : float := S754_nan.

Definition is_nan (x : float) : bool :=
  match x with S754_nan => true | _ => false end.

Definition is_finite (x : float) : bool :=
  match x with S754_zero _ | S754_finite _ _ _ => true | _ => false end.

(** The exponent of the smallest subnormal, [2^-1074]. *)
Definition emin : Z := SpecFloat.emin prec emax.
Definition fexp (e : Z) : Z := SpecFloat.fexp prec emax e.

(** [of_decimal s q nd] is the double nearest to [(-1)^s * q / 10^nd]
    ([0 < q], [0 <= nd]): the quotient is cut at the exponent of the
    smallest subnormal, which no binary64 rounding is finer than, and then
    rounded to nearest-even.  This is what the interpreter's correctly
    rounded decimal-to-binary conversion returns, for a literal of the
    source text and inside [round]. *)
Definition of_decimal (s : bool) (q nd : Z) : float :=
  let den := 10 ^ nd in
  let num := q * 2 ^ (- emin) in
  rnd s (num / den) emin (new_location den (num mod den)).

(** A decimal literal [q / 10^nd] of the source text, [0 <= q]. *)
Definition lit (q nd : Z) : float :=
  if q =? 0 then zero else of_decimal false q nd.

(** Conversion of an integer, correctly rounded. *)
Definition of_Z (n : Z) : float := binary_normalize prec emax n 0 false.

(** The exact rational value of a finite float (0 for the others). *)
Definition to_Q (x : float) : Q :=
  match x with
  | S754_finite s m e =>
      let v := if s then Z.neg m else Z.pos m in
      if 0 <=? e then inject_Z (v * 2 ^ e) else Qmake v (Z.to_pos (2 ^ (- e)))
  | _ => 0%Q
  end.

(** ** Notions used to reason about rounding *)

(** The position of the discarded fraction as two extra bits: a round bit
    and a sticky bit. *)
Definition loc_code (l : location) : Z :=
  match l with
  | loc_Exact => 0
  | loc_Inexact Lt => 1
  | loc_Inexact Eq => 2
  | loc_Inexact Gt => 3
  end.

Definition rec_code (mrs : shr_record) : Z :=
  4 * shr_m mrs + (if shr_r mrs then 2 else 0) + (if shr_s mrs then 1 else 0).

(** Dropping [k] low bits while remembering whether any was set. *)
Definition squash (k W : Z) : Z :=
  2 * (W / 2 ^ k) + (if W mod 2 ^ k =? 0 then 0 else 1).

(** Nearest-even on a mantissa carrying its round and sticky bits. *)
Definition rne_code (w : Z) : Z :=
  let m := w / 4 in
  match w mod 4 with
  | 0 | 1 => m
  | 2 => if Z.even m then m else m + 1
  | _ => m + 1
  end.

(** The mantissa and the exponent the rounding arrives at, before the
    carry of a mantissa that rounds up to [2^53] is absorbed. *)
Definition rnd_exp (m e : Z) : Z := fexp (Zdigits2 m + e).
Definition rnd_mant (m e : Z) (l : location) : Z :=
  rne_code (squash (rnd_exp m e - e + 1) (4 * m + loc_code l)).

Definition pack (s : bool) (M E : Z) : float :=
  if M =? 0 then S754_zero s
  else if M <? 2 ^ 53 then
    if E <=? 971 then S754_finite s (Z.to_pos M) E else S754_infinity s
  else
    if E + 1 <=? 971 then S754_finite s (Z.to_pos (2 ^ 52)) (E + 1)
    else S754_infinity s.

(** The left shift [binary_round] applies to a short mantissa. *)
Definition norm_shift (m e : Z) : Z := Z.max (e - fexp (Zdigits2 m + e)) 0.

(** The order of the comparison operators, as a lexicographic key. *)
Definition key (x : float) : Z * Z * Z :=
  match x with
  | S754_nan => (0, 0, 0)
  | S754_zero _ => (0, 0, 0)
  | S754_infinity true => (-2, 0, 0)
  | S754_infinity false => (2, 0, 0)
  | S754_finite true m e => (-1, - e, Z.neg m)
  | S754_finite false m e => (1, e, Z.pos m)
  end.

Definition lex_lt (a b : Z * Z * Z) : Prop :=
  let '(a1, a2, a3) := a in
  let '(b1, b2, b3) := b in
  a1 < b1 \/ (a1 = b1 /\ (a2 < b2 \/ (a2 = b2 /\ a3 < b3))).

Definition lex_le (a b : Z * Z * Z) : Prop :=
  let '(a1, a2, a3) := a in
  let '(b1, b2, b3) := b in
  a1 < b1 \/ (a1 = b1 /\ (a2 < b2 \/ (a2 = b2 /\ a3 <= b3))).

(** [K] is the larger of the keys [ka] and [kb]. *)
Definition is_lex_max (K ka kb : Z * Z * Z) : Prop :=
  (lex_le kb ka /\ K = ka) \/ (lex_le ka kb /\ K = kb).

(** A mantissa and exponent as the format stores them. *)
Definition canonical (m : positive) (e : Z) : Prop :=
  bounded prec emax m e = true.

Definition valid (x : float) : Prop := valid_binary prec emax x = true.

(** Not NaN, and canonical when finite. *)
Definition wf (x : float) : Prop :=
  match x with
  | S754_nan => False
  | S754_finite _ m e => canonical m e
  | _ => True
  end.

(** Well formed and not [-inf]. *)
Definition above_ninf (x : float) : Prop :=
  match x with
  | S754_nan | S754_infinity true => False
  | S754_finite _ m e => canonical m e
  | _ => True
  end.

(** Well formed and not negative: a zero, a positive finite value
    or [+inf]. *)
Definition nonneg (x : float) : Prop :=
  match x with
  | S754_zero _ | S754_infinity false => True
  | S754_finite false m e => canonical m e
  | _ => False
  end.

(** What the input form hands over: finite and not negative. *)
Definition fin_nonneg (x : float) : Prop :=
  match x with
  | S754_zero _ => True
  | S754_finite false m e => canonical m e
  | _ => False
  end.

(** Finite and strictly positive. *)
Definition fin_pos (x : float) : Prop :=
  match x with
  | S754_finite false m e => canonical m e
  | _ => False
  end.

(** A positive finite value in units of the smallest subnormal. *)
Definition scaled (m : positive) (e : Z) : Z := Z.pos m * 2 ^ (e - emin).

(** A zero or a canonical finite value. *)
Definition fin (x : float) : Prop :=
  match x with
  | S754_zero _ => True
  | S754_finite _ m e => canonical m e
  | _ => False
  end.

(** The value of a zero or of a finite float, in units of the smallest
    subnormal. *)
Definition sv (x : float) : Z :=
  match x with
  | S754_finite s m e => cond_Zopp s (scaled m e)
  | _ => 0
  end.

End B64.

Abbreviation float := B64.float.

(** * The Python operations the script uses *)

Inductive exn : Type :=
| ZeroDivisionError
| OverflowError
| ValueError.

(** A computation either raises or returns. *)
Definition result (A : Type) : Type := (exn + A)%type.

Definition ret {A} (a : A) : result A := inr a.
Definition raise {A} (e : exn) : result A := inl e.
Definition bind {A B} (c : result A) (k : A -> result B) : result B :=
  match c with
  | inl e => inl e
  | inr a => k a
  end.

Declare Scope py_scope.
Delimit Scope py_scope with py.
Notation "'let*' x ':=' c 'in' k" := (bind c (fun x => k))
  (at level 10, x name, c at level 100, k at level 200) : py_scope.
Local Open Scope py_scope.

(** [a / b] on floats: a zero divisor raises, anything else is the
    IEEE quotient (overflow gives an infinity silently). *)
Definition py_truediv (a b : float) : result float :=
  if B64.eqb b B64.zero then raise ZeroDivisionError
  else ret (B64.div a b).

(** [float(n)], applied implicitly to the int operand of [float / int]. *)
Definition py_float_of_int (n : Z) : result float :=
  match B64.of_Z n with
  | S754_infinity _ => raise OverflowError
  | x => ret x
  end.

(** [math.ceil]: the exact ceiling as an unbounded integer; infinities
    and NaN have none. *)
Definition py_ceil (x : float) : result Z :=
  match x with
  | S754_nan => raise ValueError
  | S754_infinity _ => raise OverflowError
  | S754_zero _ => ret 0
  | S754_finite s m e =>
      let v := if s then Z.neg m else Z.pos m in
      ret (if 0 <=? e then v * 2 ^ e else - ((- v) / 2 ^ (- e)))
  end.

(** The comparison operators [>] and [<]. *)
Definition py_gt (a b : float) : bool := B64.ltb b a.
Definition py_lt (a b : float) : bool := B64.ltb a b.

(** The builtin [max] keeps its running maximum unless the next item
    compares strictly greater. *)
Definition py_max2 (a b : float) : float := if py_gt b a then b else a.
Definition py_max3 (a b c : float) : float := py_max2 (py_max2 a b) c.

(** Nearest integer to [p / q], ties to even ([0 <= p], [0 < q]). *)
Definition round_half_even_div (p q : Z) : Z :=
  let k := p / q in
  match 2 * (p mod q) ?= q with
  | Lt => k
  | Gt => k + 1
  | Eq => if Z.even k then k else k + 1
  end.

(** The exact value of a finite float times [10^nd], rounded half-even to
    an integer: the digits of the correctly rounded decimal string with
    [nd] places. *)
Definition decimal_digits (nd : Z) (m : positive) (e : Z) : Z :=
  if 0 <=? e then Z.pos m * 2 ^ e * 10 ^ nd
  else round_half_even_div (Z.pos m * 10 ^ nd) (2 ^ (- e)).

(** [round(x, nd)] for [0 <= nd]: infinities, NaN and zeros round to
    themselves; a finite [x] is converted to the correctly rounded decimal
    with [nd] places and that decimal back to the nearest double. *)
Definition py_round (x : float) (nd : Z) : float :=
  match x with
  | S754_finite s m e =>
      let q := decimal_digits nd m e in
      if q =? 0 then S754_zero s else B64.of_decimal s q nd
  | _ => x
  end.

(** The float literals of the source text, each the binary64 value its
    decimal denotes. *)
Definition lit_1e_9 : float := Eval vm_compute in B64.lit 1 9.        (* 1e-9 *)
Definition lit_12_0 : float := Eval vm_compute in B64.lit 120 1.      (* 12.0 *)
Definition lit_2_0 : float := Eval vm_compute in B64.lit 20 1.        (* 2.0 *)
Definition lit_40_0 : float := Eval vm_compute in B64.lit 400 1.      (* 40.0 *)
Definition lit_16_0 : float := Eval vm_compute in B64.lit 160 1.      (* 16.0 *)
Definition lit_1000_0 : float := Eval vm_compute in B64.lit 10000 1.  (* 1000.0 *)
Definition lit_0_3 : float := Eval vm_compute in B64.lit 3 1.         (* 0.3 *)
Definition lit_25_4 : float := Eval vm_compute in B64.lit 254 1.      (* 25.4 *)
Definition lit_304_8 : float := Eval vm_compute in B64.lit 3048 1.    (* 304.8 *)

(** * The script *)

(** One table row: the dictionary [calc_for_bar] returns, a field per key. *)
Record Row : Type := mkRow {
  r_Bar : string;              (* "Bar" *)
  r_Dia : float;               (* "Dia (mm)" *)
  r_Area : float;              (* "Area/bar (mm²)" *)
  r_Bars : Z;                  (* "Bars (#)" *)
  r_Spacing : option float;    (* "Spacing (in O.C.)" *)
  r_d : float;                 (* "d (mm)" *)
  r_l_db : float;              (* "l_db (mm)" *)
  r_l_span : float;            (* "l_span (mm)" *)
  r_l_add : float;             (* "l_add (mm)" *)
  r_L_req : float;             (* "L_req (ft)" *)
  r_L_03ln : float;            (* "L_03ln (ft)" *)
  r_Governing : float          (* "Governing length (ft)" *)
}.

(** The two advisory messages; the text rendering is left out. *)
Inductive Warning : Type :=
| OnlyBarsComputed (bar : string) (n : Z)
    (* "{Bar}: Only {n} bar computed; spacing O.C. is undefined." *)
| NegativeDepth (bar : string) (d : float).
    (* "{Bar}: Effective depth d is negative ({d} mm). Check ..." *)

(** The module-level names that are assigned outside the sidebar: two
    constants and the two lists the loops append to. *)
Record Globals : Type := mkGlobals {
  MM_PER_IN : float;
  MM_PER_FT : float;
  rows : list Row;
  warns : list Warning
}.

(** [calc_for_bar], evaluated in the module namespace [G]: the body reads
    [MM_PER_FT] from it and assigns nothing in it. *)
Definition calc_for_bar (G : Globals)
  (A_s_mm2 L_wall_ft t_wall_mm d_c_mm l_inf_m L_s_mm t_slab_mm : float)
  (bar_label : string) (dia_mm area_per_bar_mm2 hook_len_mm : float)
  : result Row :=
  (* Number of bars *)
  let* n_bars :=
    (if py_gt A_s_mm2 B64.zero then
       let* q := py_truediv A_s_mm2 (py_max2 area_per_bar_mm2 lit_1e_9) in
       py_ceil q
     else ret 0) in
  (* Spacing in inches (O.C.) based on wall length in feet *)
  let* spacing_in :=
    (if 2 <=? n_bars then
       let* k := py_float_of_int (n_bars - 1) in
       py_truediv (B64.mul L_wall_ft lit_12_0) k
     else ret B64.nan) in
  (* Development add-on calculations (all mm) *)
  let* half_dia := py_truediv dia_mm lit_2_0 in
  let d_effective_mm := B64.sub (B64.sub t_slab_mm half_dia) lit_40_0 in
  let l_db_mm := B64.mul lit_16_0 dia_mm in
  let* l_span_mm := py_truediv L_s_mm lit_16_0 in
  let l_add_mm := py_max3 d_effective_mm l_db_mm l_span_mm in
  (* Required lengths (mm) *)
  let L_req_mm :=
    B64.add
      (B64.sub
         (B64.add (B64.add (B64.mul l_inf_m lit_1000_0) t_wall_mm)
            hook_len_mm)
         d_c_mm)
      l_add_mm in
  let L_03ln_mm :=
    B64.sub
      (B64.add (B64.add (B64.mul lit_0_3 L_s_mm) t_wall_mm) hook_len_mm)
      d_c_mm in
  (* Convert to feet *)
  let* L_req_ft := py_truediv L_req_mm (MM_PER_FT G) in
  let* L_03ln_ft := py_truediv L_03ln_mm (MM_PER_FT G) in
  let governing_ft := py_max2 L_req_ft L_03ln_ft in
  ret {| r_Bar := bar_label;
         r_Dia := py_round dia_mm 2;
         r_Area := py_round area_per_bar_mm2 1;
         r_Bars := n_bars;
         r_Spacing :=
           if B64.is_nan spacing_in then None
           else Some (py_round spacing_in 2);
         r_d := py_round d_effective_mm 1;
         r_l_db := py_round l_db_mm 1;
         r_l_span := py_round l_span_mm 1;
         r_l_add := py_round l_add_mm 1;
         r_L_req := py_round L_req_ft 3;
         r_L_03ln := py_round L_03ln_ft 3;
         r_Governing := py_round governing_ft 3 |}.

(** The values the sidebar widgets return. *)
Record Inputs : Type := mkInputs {
  A_s : float;
  L_wall_ft : float;
  t_wall_mm : float;
  d_c_mm : float;
  l_inf_m : float;
  L_s_mm : float;
  t_slab_mm : float;
  d10 : float; d20 : float; d30 : float; d15 : float; d25 : float;
  A10 : float; A20 : float; A30 : float; A15 : float; A25 : float;
  h10 : float; h20 : float; h30 : float; h15 : float; h25 : float
}.

(** An entry of the list [bars]. *)
Record BarSpec : Type := mkBar {
  label : string;
  dia : float;
  area : float;
  hook : float
}.

Definition bars (i : Inputs) : list BarSpec :=
  [ {| label := "10M"; dia := d10 i; area := A10 i; hook := h10 i |};
    {| label := "15M"; dia := d15 i; area := A15 i; hook := h15 i |};
    {| label := "20M"; dia := d20 i; area := A20 i; hook := h20 i |};
    {| label := "25M"; dia := d25 i; area := A25 i; hook := h25 i |};
    {| label := "30M"; dia := d30 i; area := A30 i; hook := h30 i |} ].

(** The namespace once the constants are bound and [rows = []] is run. *)
Definition module_init : Globals :=
  {| MM_PER_IN := lit_25_4;
     MM_PER_FT := lit_304_8;
     rows := [];
     warns := [] |}.

Definition append_row (r : Row) (G : Globals) : Globals :=
  {| MM_PER_IN := MM_PER_IN G; MM_PER_FT := MM_PER_FT G;
     rows := rows G ++ [r]; warns := warns G |}.

Definition append_warning (w : Warning) (G : Globals) : Globals :=
  {| MM_PER_IN := MM_PER_IN G; MM_PER_FT := MM_PER_FT G;
     rows := rows G; warns := warns G ++ [w] |}.

(** The call of the loop body for one entry of [bars]. *)
Definition call_calc (G : Globals) (i : Inputs) (b : BarSpec) : result Row :=
  calc_for_bar G (A_s i) (L_wall_ft i) (t_wall_mm i) (d_c_mm i)
    (l_inf_m i) (L_s_mm i) (t_slab_mm i)
    (label b) (dia b) (area b) (hook b).

(** [for b in bars: rows.append(calc_for_bar(...))]; an exception leaves
    the loop and the script. *)
Fixpoint rows_loop (i : Inputs) (bs : list BarSpec) (G : Globals)
  : result Globals :=
  match bs with
  | [] => ret G
  | b :: bs' =>
      let* r := call_calc G i b in
      rows_loop i bs' (append_row r G)
  end.

(** The two tests of the warnings loop on one row. *)
Definition row_warnings (r : Row) : list Warning :=
  (if r_Bars r <=? 1 then [OnlyBarsComputed (r_Bar r) (r_Bars r)] else [])
  ++ (if py_lt (r_d r) B64.zero then [NegativeDepth (r_Bar r) (r_d r)] else []).

(** [for r in rows: ...  warns.append(...)]. *)
Fixpoint warns_loop (rs : list Row) (G : Globals) : Globals :=
  match rs with
  | [] => G
  | r :: rs' =>
      warns_loop rs' (fold_left (fun g w => append_warning w g) (row_warnings r) G)
  end.

(** The computational part of one run of the script. *)
Definition script (i : Inputs) : result Globals :=
  let* G := rows_loop i (bars i) module_init in
  ret (warns_loop (rows G) G).

(** The states one run goes through. *)
Inductive reachable : Globals -> Prop :=
| reach_init : reachable module_init
| reach_row r G : reachable G -> reachable (append_row r G)
| reach_warning w G : reachable G -> reachable (append_warning w G).

(** The sidebar defaults. *)
Definition default_inputs : Inputs :=
  Eval vm_compute in
  {| A_s := B64.lit 74160 1;
     L_wall_ft := B64.lit 136 1;
     t_wall_mm := B64.lit 2540 1;
     d_c_mm := B64.lit 380 1;
     l_inf_m := B64.lit 20 1;
     L_s_mm := B64.lit 57000 1;
     t_slab_mm := B64.lit 3000 1;
     d10 := B64.lit 113 1; d20 := B64.lit 195 1; d30 := B64.lit 299 1;
     d15 := B64.lit 160 1; d25 := B64.lit 252 1;
     A10 := B64.lit 1000 1; A20 := B64.lit 3000 1; A30 := B64.lit 7000 1;
     A15 := B64.lit 2000 1; A25 := B64.lit 5000 1;
     h10 := B64.lit 2000 1; h20 := B64.lit 3000 1; h30 := B64.lit 5000 1;
     h15 := B64.lit 2500 1; h25 := B64.lit 4000 1 |}.

(** * The local variables of [calc_for_bar], as functions of a call *)

(** [A_s_mm2 / max(area_per_bar_mm2, 1e-9)], when nothing raises. *)
Definition bar_quotient (i : Inputs) (b : BarSpec) : float :=
  B64.div (A_s i) (py_max2 (area b) lit_1e_9).

Definition n_bars (i : Inputs) (b : BarSpec) : result Z :=
  if py_gt (A_s i) B64.zero then
    let* q := py_truediv (A_s i) (py_max2 (area b) lit_1e_9) in
    py_ceil q
  else ret 0.

Definition spacing_in (i : Inputs) (n : Z) : result float :=
  if 2 <=? n then
    let* k := py_float_of_int (n - 1) in
    py_truediv (B64.mul (L_wall_ft i) lit_12_0) k
  else ret B64.nan.

Definition d_effective_mm (i : Inputs) (b : BarSpec) : float :=
  B64.sub (B64.sub (t_slab_mm i) (B64.div (dia b) lit_2_0)) lit_40_0.

Definition l_db_mm (b : BarSpec) : float := B64.mul lit_16_0 (dia b).

Definition l_span_mm (i : Inputs) : float := B64.div (L_s_mm i) lit_16_0.

Definition l_add_mm (i : Inputs) (b : BarSpec) : float :=
  py_max3 (d_effective_mm i b) (l_db_mm b) (l_span_mm i).

(** [l_inf_m * 1000.0 + t_wall_mm + hook_len_mm - d_c_mm]: the required
    length before the add-on. *)
Definition base_mm (i : Inputs) (b : BarSpec) : float :=
  B64.sub
    (B64.add (B64.add (B64.mul (l_inf_m i) lit_1000_0) (t_wall_mm i))
       (hook b))
    (d_c_mm i).

Definition L_req_mm (i : Inputs) (b : BarSpec) : float :=
  B64.add (base_mm i b) (l_add_mm i b).

Definition L_03ln_mm (i : Inputs) (b : BarSpec) : float :=
  B64.sub
    (B64.add (B64.add (B64.mul lit_0_3 (L_s_mm i)) (t_wall_mm i)) (hook b))
    (d_c_mm i).

Definition L_req_ft (i : Inputs) (b : BarSpec) : float :=
  B64.div (L_req_mm i b) lit_304_8.

Definition L_03ln_ft (i : Inputs) (b : BarSpec) : float :=
  B64.div (L_03ln_mm i b) lit_304_8.

Definition governing_ft (i : Inputs) (b : BarSpec) : float :=
  py_max2 (L_req_ft i b) (L_03ln_ft i b).

(** The returned dictionary, given the bar count and the spacing. *)
Definition row_of (i : Inputs) (b : BarSpec) (n : Z) (sp : float) : Row :=
  {| r_Bar := label b;
     r_Dia := py_round (dia b) 2;
     r_Area := py_round (area b) 1;
     r_Bars := n;
     r_Spacing := if B64.is_nan sp then None else Some (py_round sp 2);
     r_d := py_round (d_effective_mm i b) 1;
     r_l_db := py_round (l_db_mm b) 1;
     r_l_span := py_round (l_span_mm i) 1;
     r_l_add := py_round (l_add_mm i b) 1;
     r_L_req := py_round (L_req_ft i b) 3;
     r_L_03ln := py_round (L_03ln_ft i b) 3;
     r_Governing := py_round (governing_ft i b) 3 |}.

(** The form's constraint on every field: a finite value, not negative. *)
Definition inputs_ok (i : Inputs) (b : BarSpec) : Prop :=
  B64.fin_nonneg (A_s i) /\ B64.fin_nonneg (L_wall_ft i)
  /\ B64.fin_nonneg (t_wall_mm i) /\ B64.fin_nonneg (d_c_mm i)
  /\ B64.fin_nonneg (l_inf_m i) /\ B64.fin_nonneg (L_s_mm i)
  /\ B64.fin_nonneg (t_slab_mm i)
  /\ B64.fin_nonneg (dia b) /\ B64.fin_nonneg (area b) /\ B64.fin_nonneg (hook b).

(** The namespace still holds the constant of the source text. *)
Definition constants_ok (G : Globals) : Prop :=
  MM_PER_FT G = lit_304_8.

(** The entries of [bars] by size. *)
Definition bar10 (i : Inputs) : BarSpec :=
  {| label := "10M"; dia := d10 i; area := A10 i; hook := h10 i |}.
Definition bar15 (i : Inputs) : BarSpec :=
  {| label := "15M"; dia := d15 i; area := A15 i; hook := h15 i |}.
Definition bar20 (i : Inputs) : BarSpec :=
  {| label := "20M"; dia := d20 i; area := A20 i; hook := h20 i |}.
Definition bar25 (i : Inputs) : BarSpec :=
  {| label := "25M"; dia := d25 i; area := A25 i; hook := h25 i |}.
Definition bar30 (i : Inputs) : BarSpec :=
  {| label := "30M"; dia := d30 i; area := A30 i; hook := h30 i |}.

(** The "negative effective depth" warning for a bar label is in a list. *)
Definition warns_negative_depth (bar : string) (ws : list Warning) : Prop :=
  exists d, In (NegativeDepth bar d) ws.

(** The "only n bar computed" warning for a bar label is in a list. *)
Definition warns_only_bars (bar : string) (ws : list Warning) : Prop :=
  exists n, In (OnlyBarsComputed bar n) ws.

(** Inputs with some fields replaced. *)
Definition with_t_slab (t : float) (i : Inputs) : Inputs :=
  {| A_s := A_s i; L_wall_ft := L_wall_ft i; t_wall_mm := t_wall_mm i;
     d_c_mm := d_c_mm i; l_inf_m := l_inf_m i; L_s_mm := L_s_mm i;
     t_slab_mm := t;
     d10 := d10 i; d20 := d20 i; d30 := d30 i; d15 := d15 i; d25 := d25 i;
     A10 := A10 i; A20 := A20 i; A30 := A30 i; A15 := A15 i; A25 := A25 i;
     h10 := h10 i; h20 := h20 i; h30 := h30 i; h15 := h15 i; h25 := h25 i |}.

Definition with_A_s (a : float) (i : Inputs) : Inputs :=
  {| A_s := a; L_wall_ft := L_wall_ft i; t_wall_mm := t_wall_mm i;
     d_c_mm := d_c_mm i; l_inf_m := l_inf_m i; L_s_mm := L_s_mm i;
     t_slab_mm := t_slab_mm i;
     d10 := d10 i; d20 := d20 i; d30 := d30 i; d15 := d15 i; d25 := d25 i;
     A10 := A10 i; A20 := A20 i; A30 := A30 i; A15 := A15 i; A25 := A25 i;
     h10 := h10 i; h20 := h20 i; h30 := h30 i; h15 := h15 i; h25 := h25 i |}.

Definition with_bar10 (d a h : float) (i : Inputs) : Inputs :=
  {| A_s := A_s i; L_wall_ft := L_wall_ft i; t_wall_mm := t_wall_mm i;
     d_c_mm := d_c_mm i; l_inf_m := l_inf_m i; L_s_mm := L_s_mm i;
     t_slab_mm := t_slab_mm i;
     d10 := d; d20 := d20 i; d30 := d30 i; d15 := d15 i; d25 := d25 i;
     A10 := a; A20 := A20 i; A30 := A30 i; A15 := A15 i; A25 := A25 i;
     h10 := h; h20 := h20 i; h30 := h30 i; h15 := h15 i; h25 := h25 i |}.

(** The rows of a list of bars, computed in one namespace; the first
    exception ends the computation. *)
Fixpoint calc_all (G : Globals) (i : Inputs) (bs : list BarSpec)
  : result (list Row) :=
  match bs with
  | [] => ret []
  | b :: bs' =>
      let* r := call_calc G i b in
      let* rs := calc_all G i bs' in
      ret (r :: rs)
  end.

Definition append_rows (rs : list Row) (G : Globals) : Globals :=
  {| MM_PER_IN := MM_PER_IN G; MM_PER_FT := MM_PER_FT G;
     rows := rows G ++ rs; warns := warns G |}.

Definition append_warnings (ws : list Warning) (G : Globals) : Globals :=
  {| MM_PER_IN := MM_PER_IN G; MM_PER_FT := MM_PER_FT G;
     rows := rows G; warns := warns G ++ ws |}.

(** Two runs are given the same seven global inputs. *)
Definition same_globals (i i' : Inputs) : Prop :=
  A_s i = A_s i' /\ L_wall_ft i = L_wall_ft i' /\ t_wall_mm i = t_wall_mm i'
  /\ d_c_mm i = d_c_mm i' /\ l_inf_m i = l_inf_m i' /\ L_s_mm i = L_s_mm i'
  /\ t_slab_mm i = t_slab_mm i'.

(** The literals of the scenarios. *)
Definition lit_0_05 : float := Eval vm_compute in B64.lit 5 2.        (* 0.05 *)
Definition lit_1_0 : float := Eval vm_compute in B64.lit 10 1.        (* 1.0 *)
Definition lit_39_9 : float := Eval vm_compute in B64.lit 399 1.      (* 39.9 *)
Definition lit_1e299 : float := Eval vm_compute in B64.lit (10 ^ 299) 0. (* 1e299 *)

Definition lit_1e300 : float := Eval vm_compute in B64.lit (10 ^ 300) 0. (* 1e300 *)

(** The finite floats of largest magnitude, [-sys.float_info.max] and
    [sys.float_info.max]. *)
Definition min_float : float :=
  S754_finite true (2 ^ 53 - 1) 971.

Definition max_float : float :=
  S754_finite false (2 ^ 53 - 1) 971.

(** Inputs whose fields all hold [x], the cover excepted, which holds
    [c]; a bar whose fields all hold [x]. *)
Definition uniform_inputs (x c : float) : Inputs :=
  {| A_s := x; L_wall_ft := x; t_wall_mm := x; d_c_mm := c; l_inf_m := x;
     L_s_mm := x; t_slab_mm := x;
     d10 := x; d20 := x; d30 := x; d15 := x; d25 := x;
     A10 := x; A20 := x; A30 := x; A15 := x; A25 := x;
     h10 := x; h20 := x; h30 := x; h15 := x; h25 := x |}.

Definition uniform_bar (x : float) : BarSpec :=
  {| label := "20M"; dia := x; area := x; hook := x |}.

(** Every field that enters a length is at most [1e300]. *)
Definition inputs_bounded (i : Inputs) (b : BarSpec) : Prop :=
  B64.leb (L_wall_ft i) lit_1e300 = true
  /\ B64.leb (t_wall_mm i) lit_1e300 = true
  /\ B64.leb (d_c_mm i) lit_1e300 = true
  /\ B64.leb (l_inf_m i) lit_1e300 = true
  /\ B64.leb (L_s_mm i) lit_1e300 = true
  /\ B64.leb (t_slab_mm i) lit_1e300 = true
  /\ B64.leb (dia b) lit_1e300 = true
  /\ B64.leb (hook b) lit_1e300 = true.

(** ** Scenarios *)

(** The row of the 20M bar at the defaults, as the function returns it. *)
Definition default_row_20M : Row :=
  Eval vm_compute in
  {| r_Bar := "20M";
     r_Dia := B64.lit 195 1;          (* 19.5 *)
     r_Area := B64.lit 3000 1;        (* 300.0 *)
     r_Bars := 25;
     r_Spacing := Some (B64.lit 68 1);  (* 6.8 *)
     r_d := B64.lit 2502 1;           (* 250.2 *)
     r_l_db := B64.lit 3120 1;        (* 312.0 *)
     r_l_span := B64.lit 3562 1;      (* 356.2 *)
     r_l_add := B64.lit 3562 1;       (* 356.2 *)
     r_L_req := B64.lit 9423 3;       (* 9.423 *)
     r_L_03ln := B64.lit 7303 3;      (* 7.303 *)
     r_Governing := B64.lit 9423 3    (* 9.423 *) |}.

(** The defaults with [t_slab = 30.0]. *)
Definition thin_slab_inputs : Inputs :=
  Eval vm_compute in with_t_slab (B64.lit 300 1) default_inputs.

(** The defaults with [A_s = 1728.000000000001] and a 10M bar of area
    [192.00000000000009]. *)
Definition rounded_quotient_inputs : Inputs :=
  Eval vm_compute in
  with_bar10 (B64.lit 113 1) (B64.lit 19200000000000009 14) (B64.lit 2000 1)
    (with_A_s (B64.lit 1728000000000001 12) default_inputs).

(** The defaults with [t_slab = 40.0] and a 10M bar of diameter [0.08]. *)
Definition shallow_inputs : Inputs :=
  Eval vm_compute in
  with_bar10 (B64.lit 8 2) (B64.lit 1000 1) (B64.lit 2000 1)
    (with_t_slab (B64.lit 400 1) default_inputs).

(** The defaults with [A_s = 1e300] and a 10M bar of area [0.0]. *)
Definition overflow_inputs : Inputs :=
  Eval vm_compute in
  with_bar10 (B64.lit 113 1) (B64.lit 0 0) (B64.lit 2000 1)
    (with_A_s (B64.lit (10 ^ 300) 0) default_inputs).

(** The namespace after the run on [thin_slab_inputs] and after the run on
    the defaults. *)
Definition thin_slab_result : Globals :=
  Eval vm_compute in
  match script thin_slab_inputs with inr G => G | inl _ => module_init end.

Definition default_result : Globals :=
  Eval vm_compute in
  match script default_inputs with inr G => G | inl _ => module_init end.

(** The defaults with another 30M bar (diameter 32.0, area 800.0, hook
    600.0). *)
Definition other_30M_inputs : Inputs :=
  Eval vm_compute in
  {| A_s := A_s default_inputs; L_wall_ft := L_wall_ft default_inputs;
     t_wall_mm := t_wall_mm default_inputs; d_c_mm := d_c_mm default_inputs;
     l_inf_m := l_inf_m default_inputs; L_s_mm := L_s_mm default_inputs;
     t_slab_mm := t_slab_mm default_inputs;
     d10 := d10 default_inputs; d20 := d20 default_inputs;
     d30 := B64.lit 320 1;
     d15 := d15 default_inputs; d25 := d25 default_inputs;
     A10 := A10 default_inputs; A20 := A20 default_inputs;
     A30 := B64.lit 8000 1;
     A15 := A15 default_inputs; A25 := A25 default_inputs;
     h10 := h10 default_inputs; h20 := h20 default_inputs;
     h30 := B64.lit 6000 1;
     h15 := h15 default_inputs; h25 := h25 default_inputs |}.

Definition other_30M_result : Globals :=
  Eval vm_compute in
  match script other_30M_inputs with inr G => G | inl _ => module_init end.

(** The row a call returns; the 20M row of the defaults stands in for a
    call that raises. *)
Definition the_row (x : result Row) : Row :=
  match x with inr r => r | inl _ => default_row_20M end.

(** The other rows of the defaults, and the 20M row of the thin slab. *)
Definition default_row_10M : Row :=
  Eval vm_compute in
  the_row (call_calc module_init default_inputs (bar10 default_inputs)).

Definition default_row_25M : Row :=
  Eval vm_compute in
  the_row (call_calc module_init default_inputs (bar25 default_inputs)).

Definition default_row_30M : Row :=
  Eval vm_compute in
  the_row (call_calc module_init default_inputs (bar30 default_inputs)).

Definition thin_slab_row_20M : Row :=
  Eval vm_compute in
  the_row (call_calc module_init thin_slab_inputs (bar20 thin_slab_inputs)).

(** The defaults with [t_slab = 35.0]. *)
Definition slab_35_inputs : Inputs :=
  Eval vm_compute in with_t_slab (B64.lit 350 1) default_inputs.

Definition slab_35_result : Globals :=
  Eval vm_compute in
  match script slab_35_inputs with inr G => G | inl _ => module_init end.

(** The defaults with [A_s = 100.0]. *)
Definition low_area_inputs : Inputs :=
  Eval vm_compute in with_A_s (B64.lit 1000 1) default_inputs.

Definition low_area_result : Globals :=
  Eval vm_compute in
  match script low_area_inputs with inr G => G | inl _ => module_init end.

Definition low_area_row_10M : Row :=
  Eval vm_compute in
  the_row (call_calc module_init low_area_inputs (bar10 low_area_inputs)).
(** * Facts about binary64 rounding *)

Import B64.

Lemma digits2_pos_size p : digits2_pos p = Pos.size p.
Proof. induction p; simpl; congruence. Qed.

Lemma Zdigits2_bounds m :
  0 < m -> 2 ^ (Zdigits2 m - 1) <= m < 2 ^ Zdigits2 m.
Proof.
  destruct m as [|p|p]; try lia. intros _. simpl Zdigits2.
  rewrite digits2_pos_size.
  pose proof (Pos.size_gt p) as Hgt. pose proof (Pos.size_le p) as Hle.
  split.
  - assert (H2 : 2 ^ Z.pos (Pos.size p) = 2 * 2 ^ (Z.pos (Pos.size p) - 1)).
    { rewrite <- Z.pow_succ_r by lia. f_equal. lia. }
    assert (Hle' : 2 ^ Z.pos (Pos.size p) <= Z.pos p~0).
    { rewrite <- Pos2Z.inj_pow. apply Pos2Z.pos_le_pos. exact Hle. }
    lia.
  - rewrite <- Pos2Z.inj_pow. apply Pos2Z.pos_lt_pos. exact Hgt.
Qed.

Lemma Zdigits2_nonneg m : 0 <= Zdigits2 m.
Proof. destruct m; simpl; lia. Qed.

Lemma Zdigits2_unique m d :
  0 < m -> 2 ^ (d - 1) <= m < 2 ^ d -> Zdigits2 m = d.
Proof.
  intros Hm [Hl Hu]. destruct (Zdigits2_bounds m Hm) as [Hl' Hu'].
  assert (Hd : 0 <= Zdigits2 m) by apply Zdigits2_nonneg.
  assert (Hd0 : 0 < d).
  { destruct (Z.lt_trichotomy d 0) as [Hd0|[->|Hd0]]; auto.
    - rewrite (Z.pow_neg_r 2 d) in Hu by lia. lia.
    - simpl in Hu. lia. }
  destruct (Z.lt_trichotomy (Zdigits2 m) d) as [H|[H|H]]; auto.
  - assert (2 ^ Zdigits2 m <= 2 ^ (d - 1)) by (apply Z.pow_le_mono_r; lia). lia.
  - assert (2 ^ d <= 2 ^ (Zdigits2 m - 1)) by (apply Z.pow_le_mono_r; lia). lia.
Qed.

Lemma Zdigits2_mono m1 m2 : 0 <= m1 <= m2 -> Zdigits2 m1 <= Zdigits2 m2.
Proof.
  intros [H0 H12]. destruct (Z.eq_dec m1 0) as [->|Hn]; [apply Zdigits2_nonneg|].
  destruct (Zdigits2_bounds m1) as [Hl1 Hu1]; [lia|].
  destruct (Zdigits2_bounds m2) as [Hl2 Hu2]; [lia|].
  destruct (Z.le_gt_cases (Zdigits2 m1) (Zdigits2 m2)) as [H|H]; auto.
  assert (2 ^ Zdigits2 m2 <= 2 ^ (Zdigits2 m1 - 1)) by (apply Z.pow_le_mono_r; lia).
  lia.
Qed.

Lemma squash_squash a b W :
  1 <= a -> 1 <= b -> squash a (squash b W) = squash (a + b - 1) W.
Proof.
  intros Ha Hb. unfold squash.
  assert (HB : 0 < 2 ^ b) by (apply Z.pow_pos_nonneg; lia).
  assert (HA : 0 < 2 ^ (a - 1)) by (apply Z.pow_pos_nonneg; lia).
  replace (2 ^ a) with (2 * 2 ^ (a - 1))
    by (rewrite <- Z.pow_succ_r by lia; f_equal; lia).
  replace (2 ^ (a + b - 1)) with (2 ^ b * 2 ^ (a - 1))
    by (rewrite <- Z.pow_add_r by lia; f_equal; lia).
  set (A := 2 ^ (a - 1)) in *. set (B := 2 ^ b) in *.
  set (q := W / B). set (r := W mod B).
  assert (Hr : 0 <= r < B) by (apply Z.mod_pos_bound; lia).
  set (t := if r =? 0 then 0 else 1).
  assert (Ht : 0 <= t <= 1 /\ (t = 0 <-> r = 0)).
  { unfold t. destruct (Z.eqb_spec r 0); lia. }
  assert (Hq1 : (2 * q + t) / 2 = q) by (Z.div_mod_to_equations; lia).
  assert (Hq2 : (2 * q + t) mod 2 = t) by (Z.div_mod_to_equations; lia).
  rewrite <- !Z.div_div by lia.
  rewrite !Z.rem_mul_r by lia.
  rewrite Hq1, Hq2. fold q r.
  assert (Hm : 0 <= q mod A < A) by (apply Z.mod_pos_bound; lia).
  destruct (Z.eqb_spec (t + 2 * (q mod A)) 0);
    destruct (Z.eqb_spec (r + B * (q mod A)) 0); try lia; nia.
Qed.

Lemma squash_1 W : squash 1 W = W.
Proof. unfold squash. change (2 ^ 1) with 2.
  destruct (Z.eqb_spec (W mod 2) 0); Z.div_mod_to_equations; lia. Qed.

Lemma squash_mono k W1 W2 : 0 <= k -> W1 <= W2 -> squash k W1 <= squash k W2.
Proof.
  intros Hk H. unfold squash.
  assert (HB : 0 < 2 ^ k) by (apply Z.pow_pos_nonneg; lia).
  set (B := 2 ^ k) in *.
  destruct (Z.eqb_spec (W1 mod B) 0); destruct (Z.eqb_spec (W2 mod B) 0);
    Z.div_mod_to_equations; nia.
Qed.

Lemma squash_nonneg k W : 0 <= k -> 0 <= W -> 0 <= squash k W.
Proof.
  intros Hk H. unfold squash.
  assert (HB : 0 < 2 ^ k) by (apply Z.pow_pos_nonneg; lia).
  pose proof (Z.div_pos W (2 ^ k) H HB).
  destruct (_ =? 0); lia.
Qed.

Lemma shr_1_code mrs :
  0 <= shr_m mrs ->
  rec_code (shr_1 mrs) = squash 2 (rec_code mrs) /\ 0 <= shr_m (shr_1 mrs).
Proof.
  destruct mrs as [m r s]. unfold rec_code, squash. simpl shr_m. simpl shr_r. simpl shr_s.
  change (2 ^ 2) with 4. intros Hm.
  destruct m as [|[p|p|]|p]; try lia; destruct r, s; simpl shr_1; cbn [shr_m shr_r shr_s orb];
    (split; [|lia]);
    match goal with |- context [?x mod 4 =? 0] => destruct (Z.eqb_spec (x mod 4) 0) end;
    Z.div_mod_to_equations; lia.
Qed.

Lemma iter_shr_1_code p : forall mrs,
  0 <= shr_m mrs ->
  rec_code (iter_pos shr_1 p mrs) = squash (Z.pos p + 1) (rec_code mrs)
  /\ 0 <= shr_m (iter_pos shr_1 p mrs).
Proof.
  induction p as [p IH|p IH|]; intros mrs Hm; simpl iter_pos.
  - destruct (shr_1_code mrs Hm) as [E1 P1].
    destruct (IH _ P1) as [E2 P2]. destruct (IH _ P2) as [E3 P3].
    split; auto. rewrite E3, E2, E1. rewrite !squash_squash by lia. f_equal. lia.
  - destruct (IH _ Hm) as [E2 P2]. destruct (IH _ P2) as [E3 P3].
    split; auto. rewrite E3, E2. rewrite !squash_squash by lia. f_equal. lia.
  - apply shr_1_code; auto.
Qed.

Lemma rec_code_of_loc m l : rec_code (shr_record_of_loc m l) = 4 * m + loc_code l.
Proof. destruct l as [|[]]; unfold rec_code; simpl; lia. Qed.

Lemma shr_m_of_loc m l : shr_m (shr_record_of_loc m l) = m.
Proof. destruct l as [|[]]; reflexivity. Qed.

Lemma shr_m_code mrs : shr_m mrs = rec_code mrs / 4.
Proof.
  destruct mrs as [m [] []]; unfold rec_code; cbn [shr_m shr_r shr_s];
    Z.div_mod_to_equations; lia.
Qed.

Lemma rne_code_spec mrs :
  round_nearest_even (shr_m mrs) (loc_of_shr_record mrs) = rne_code (rec_code mrs).
Proof.
  destruct mrs as [m r s]. unfold rne_code, rec_code. cbn [shr_m shr_r shr_s].
  assert (Hd : forall c, 0 <= c < 4 -> (4 * m + c) / 4 = m /\ (4 * m + c) mod 4 = c)
    by (intros; Z.div_mod_to_equations; lia).
  destruct r, s; cbn [loc_of_shr_record round_nearest_even].
  - replace (4 * m + 2 + 1) with (4 * m + 3) by lia.
    destruct (Hd 3) as [-> ->]; [lia|]. reflexivity.
  - replace (4 * m + 2 + 0) with (4 * m + 2) by lia.
    destruct (Hd 2) as [-> ->]; [lia|]. reflexivity.
  - replace (4 * m + 0 + 1) with (4 * m + 1) by lia.
    destruct (Hd 1) as [-> ->]; [lia|]. reflexivity.
  - replace (4 * m + 0 + 0) with (4 * m + 0) by lia.
    destruct (Hd 0) as [-> ->]; [lia|]. reflexivity.
Qed.

Lemma fexp_eq e : fexp e = Z.max (e - 53) (-1074).
Proof. reflexivity. Qed.

Lemma fexp_mono e1 e2 : e1 <= e2 -> fexp e1 <= fexp e2.
Proof. rewrite !fexp_eq. lia. Qed.

Lemma loc_code_range l : 0 <= loc_code l <= 3.
Proof. destruct l as [|[]]; simpl; lia. Qed.

Lemma shr_fexp_code m e l :
  0 <= m ->
  let N := Z.max (fexp (Zdigits2 m + e) - e) 0 in
  rec_code (fst (shr_fexp prec emax m e l)) = squash (N + 1) (4 * m + loc_code l)
  /\ snd (shr_fexp prec emax m e l) = e + N
  /\ 0 <= shr_m (fst (shr_fexp prec emax m e l)).
Proof.
  intros Hm N. unfold shr_fexp, shr. fold (fexp (Zdigits2 m + e)).
  subst N. destruct (fexp (Zdigits2 m + e) - e) as [|p|p] eqn:En; cbn [fst snd].
  - rewrite Z.max_l by lia. rewrite squash_1, rec_code_of_loc, shr_m_of_loc. lia.
  - rewrite Z.max_l by lia.
    destruct (iter_shr_1_code p (shr_record_of_loc m l)) as [E1 P1].
    { rewrite shr_m_of_loc; auto. }
    rewrite E1, rec_code_of_loc. repeat split; auto.
  - rewrite Z.max_r by lia. rewrite squash_1, rec_code_of_loc, shr_m_of_loc. lia.
Qed.

Lemma rne_code_bounds w : w / 4 <= rne_code w <= w / 4 + 1.
Proof.
  unfold rne_code. destruct (w mod 4) as [|[[|[]|]|[|[]|]|]|]; try lia;
  destruct (Z.even (w / 4)); lia.
Qed.

Lemma rne_code_exact k : rne_code (4 * k) = k.
Proof.
  unfold rne_code. replace (4 * k / 4) with k by (Z.div_mod_to_equations; lia).
  replace (4 * k mod 4) with 0 by (Z.div_mod_to_equations; lia). reflexivity.
Qed.

Lemma rne_code_mono w1 w2 : w1 <= w2 -> rne_code w1 <= rne_code w2.
Proof.
  intros H. destruct (Z.eq_dec (w1 / 4) (w2 / 4)) as [E|NE].
  - unfold rne_code. rewrite <- E.
    assert (H1 : 0 <= w1 mod 4 < 4) by (apply Z.mod_pos_bound; lia).
    assert (H2 : 0 <= w2 mod 4 < 4) by (apply Z.mod_pos_bound; lia).
    assert (H3 : w1 mod 4 <= w2 mod 4) by (Z.div_mod_to_equations; lia).
    destruct (w1 mod 4) as [|[[|[]|]|[|[]|]|]|]; try lia;
    destruct (w2 mod 4) as [|[[|[]|]|[|[]|]|]|]; try lia;
    destruct (Z.even (w1 / 4)); lia.
  - pose proof (rne_code_bounds w1). pose proof (rne_code_bounds w2).
    assert (w1 / 4 < w2 / 4) by (Z.div_mod_to_equations; lia). lia.
Qed.

Lemma squash_div4 k W : 0 <= k -> squash (k + 1) W / 4 = W / 2 ^ (k + 2).
Proof.
  intros Hk. unfold squash.
  assert (HB : 0 < 2 ^ (k + 1)) by (apply Z.pow_pos_nonneg; lia).
  replace (2 ^ (k + 2)) with (2 ^ (k + 1) * 2)
    by (rewrite Z.mul_comm, <- Z.pow_succ_r by lia; f_equal; lia).
  rewrite <- Z.div_div by lia.
  set (q := W / 2 ^ (k + 1)).
  destruct (_ =? 0); Z.div_mod_to_equations; lia.
Qed.

Lemma div_pow2_shift m N c :
  0 <= N -> 0 <= c < 4 -> (4 * m + c) / 2 ^ (N + 2) = m / 2 ^ N.
Proof.
  intros HN Hc.
  replace (2 ^ (N + 2)) with (4 * 2 ^ N)
    by (rewrite Z.pow_add_r by lia; change (2 ^ 2) with 4; lia).
  assert (HB : 0 < 2 ^ N) by (apply Z.pow_pos_nonneg; lia).
  rewrite <- Z.div_div by lia. f_equal. Z.div_mod_to_equations; lia.
Qed.

(** Under the side condition that the exponent the mantissa is given at is
    not coarser than the one the format assigns to it, the rounded
    mantissa fits 53 bits, up to the carry. *)
Lemma rnd_mant_bounds m e l :
  0 <= m -> e <= rnd_exp m e ->
  m / 2 ^ (rnd_exp m e - e) <= rnd_mant m e l <= m / 2 ^ (rnd_exp m e - e) + 1
  /\ rnd_mant m e l <= 2 ^ 53
  /\ (emin < rnd_exp m e -> 2 ^ 52 <= rnd_mant m e l).
Proof.
  intros Hm HP. unfold rnd_mant.
  set (N := rnd_exp m e - e) in *.
  assert (HN : 0 <= N) by lia.
  pose proof (loc_code_range l) as Hc.
  pose proof (rne_code_bounds (squash (N + 1) (4 * m + loc_code l))) as Hb.
  rewrite squash_div4, div_pow2_shift in Hb by lia.
  assert (HB : 0 < 2 ^ N) by (apply Z.pow_pos_nonneg; lia).
  assert (Hupper : m / 2 ^ N < 2 ^ 53).
  { apply Z.div_lt_upper_bound; [lia|].
    destruct (Z.eq_dec m 0) as [->|Hm0].
    - assert (0 < 2 ^ 53) by reflexivity. nia.
    - destruct (Zdigits2_bounds m) as [_ Hu]; [lia|].
      rewrite <- Z.pow_add_r by lia.
      eapply Z.lt_le_trans; [exact Hu|]. apply Z.pow_le_mono_r; [lia|].
      unfold N, rnd_exp. rewrite fexp_eq. lia. }
  split; [lia|]. split; [lia|].
  intros Hn. unfold rnd_exp in *. rewrite fexp_eq in *. unfold emin in Hn.
  change (SpecFloat.emin prec emax) with (-1074) in Hn.
  assert (Hm0 : 0 < m).
  { destruct (Z.eq_dec m 0) as [->|]; [|lia]. simpl Zdigits2 in *. lia. }
  destruct (Zdigits2_bounds m Hm0) as [Hl _].
  assert (EN : N = Zdigits2 m - 53) by (unfold N, rnd_exp; rewrite fexp_eq; lia).
  assert (2 ^ 52 <= m / 2 ^ N); [|lia].
  apply Z.div_le_lower_bound; [lia|].
  rewrite <- Z.pow_add_r by lia.
  replace (N + 52) with (Zdigits2 m - 1) by lia. exact Hl.
Qed.

Lemma rnd_exp_ge_emin m e : emin <= rnd_exp m e.
Proof. unfold rnd_exp. rewrite fexp_eq. unfold emin; change (SpecFloat.emin prec emax) with (-1074). lia. Qed.

Lemma Zdigits2_le m k : 0 <= k -> 0 <= m < 2 ^ k -> Zdigits2 m <= k.
Proof.
  intros Hk [H0 Hm]. destruct (Z.eq_dec m 0) as [->|Hn]; [simpl; lia|].
  destruct (Zdigits2_bounds m) as [Hl _]; [lia|].
  destruct (Z.le_gt_cases (Zdigits2 m) k) as [H|H]; auto.
  assert (2 ^ k <= 2 ^ (Zdigits2 m - 1)) by (apply Z.pow_le_mono_r; lia). lia.
Qed.

Theorem rnd_closed s m e l :
  0 <= m -> e <= rnd_exp m e ->
  rnd s m e l = pack s (rnd_mant m e l) (rnd_exp m e).
Proof.
  intros Hm HP.
  destruct (rnd_mant_bounds m e l Hm HP) as (Hb & Hu & _).
  pose proof (rnd_exp_ge_emin m e) as Hmin.
  unfold emin in Hmin; change (SpecFloat.emin prec emax) with (-1074) in Hmin.
  assert (HB : 0 < 2 ^ (rnd_exp m e - e)) by (apply Z.pow_pos_nonneg; lia).
  assert (HM0 : 0 <= rnd_mant m e l).
  { pose proof (Z.div_pos m _ Hm HB). lia. }
  unfold rnd, binary_round_aux.
  destruct (shr_fexp_code m e l Hm) as (C1 & X1 & P1).
  destruct (shr_fexp prec emax m e l) as [r1 e1]. cbn [fst snd] in C1, X1, P1.
  rewrite rne_code_spec, C1.
  fold (rnd_exp m e) in X1 |- *. rewrite Z.max_l in X1 |- * by lia.
  fold (rnd_mant m e l).
  set (M := rnd_mant m e l) in *. set (E := rnd_exp m e) in *.
  replace e1 with E by lia.
  destruct (shr_fexp_code M E loc_Exact HM0) as (C2 & X2 & P2).
  destruct (shr_fexp prec emax M E loc_Exact) as [r2 e2]. cbn [fst snd] in C2, X2, P2.
  rewrite shr_m_code, C2. cbn [loc_code]. rewrite Z.add_0_r.
  unfold pack.
  destruct (Z.eqb_spec M 0) as [M0|M0].
  - rewrite M0. cbn [Zdigits2]. rewrite squash_div4 by lia.
    rewrite Z.mul_0_r, Z.div_0_l; [reflexivity|].
    apply Z.pow_nonzero; lia.
  - destruct (Z.ltb_spec M (2 ^ 53)) as [Hlt|Hge].
    + assert (Hd : Zdigits2 M <= 53) by (apply Zdigits2_le; lia).
      assert (EN : Z.max (fexp (Zdigits2 M + E) - E) 0 = 0) by (rewrite fexp_eq; lia).
      rewrite EN in *. rewrite squash_1.
      replace (4 * M / 4) with M by (Z.div_mod_to_equations; lia).
      replace e2 with E by lia.
      destruct M as [|p|p]; try lia. reflexivity.
    + assert (EM : M = 2 ^ 53) by lia. rewrite EM in *.
      change (Zdigits2 (2 ^ 53)) with 54 in *.
      assert (EN : Z.max (fexp (54 + E) - E) 0 = 1) by (rewrite fexp_eq; lia).
      rewrite EN in *. replace e2 with (E + 1) by lia.
      reflexivity.
Qed.

(** ** The order of floats through a lexicographic key *)

Lemma SFcompare_key x y :
  is_nan x = false -> is_nan y = false ->
  match SFcompare x y with
  | Some Lt => lex_lt (key x) (key y)
  | Some Eq => key x = key y
  | Some Gt => lex_lt (key y) (key x)
  | None => False
  end.
Proof.
  destruct x as [[]|[]| |[] mx ex], y as [[]|[]| |[] my ey]; cbn; try discriminate;
    intros _ _; try lia; try reflexivity.
  - destruct (Z.compare_spec ex ey); cbn; try lia.
    rewrite Pos.compare_cont_spec. cbn. destruct (Pos.compare_spec mx my); cbn; try lia.
    subst. reflexivity.
  - destruct (Z.compare_spec ex ey); cbn; try lia.
    rewrite Pos.compare_cont_spec. cbn. destruct (Pos.compare_spec mx my); cbn; try lia.
    subst; reflexivity.
Qed.

Lemma leb_key x y :
  is_nan x = false -> is_nan y = false ->
  (SFleb x y = true <-> lex_le (key x) (key y)).
Proof.
  intros Hx Hy. pose proof (SFcompare_key x y Hx Hy) as H.
  pose proof (SFcompare_key y x Hy Hx) as H'.
  unfold SFleb, lex_le. destruct (key x) as [[a1 a2] a3], (key y) as [[b1 b2] b3].
  destruct (SFcompare x y) as [[]|]; cbn in *; try tauto.
  - inversion H; subst. split; auto. intros _. lia.
  - split; auto. intros _. lia.
  - split; [discriminate|]. lia.
Qed.

Lemma ltb_key x y :
  is_nan x = false -> is_nan y = false ->
  (SFltb x y = true <-> lex_lt (key x) (key y)).
Proof.
  intros Hx Hy. pose proof (SFcompare_key x y Hx Hy) as H.
  unfold SFltb. destruct (key x) as [[a1 a2] a3], (key y) as [[b1 b2] b3].
  destruct (SFcompare x y) as [[]|]; cbn in *; try tauto.
  - split; [discriminate|]. inversion H; lia.
  - split; [discriminate|]. lia.
Qed.

Lemma eqb_key x y :
  is_nan x = false -> is_nan y = false ->
  (SFeqb x y = true <-> key x = key y).
Proof.
  intros Hx Hy. pose proof (SFcompare_key x y Hx Hy) as H.
  unfold SFeqb. destruct (key x) as [[a1 a2] a3], (key y) as [[b1 b2] b3].
  destruct (SFcompare x y) as [[]|]; cbn in *; try tauto.
  - split; [discriminate|]. intros K; inversion K; lia.
  - split; [discriminate|]. intros K; inversion K; lia.
Qed.

Lemma pack_not_nan s M E : is_nan (pack s M E) = false.
Proof.
  unfold pack. destruct (M =? 0); [reflexivity|].
  destruct (M <? 2 ^ 53); [destruct (E <=? 971)|destruct (E + 1 <=? 971)]; reflexivity.
Qed.

Lemma pack_mono M1 E1 M2 E2 :
  0 <= M1 <= 2 ^ 53 -> 0 <= M2 <= 2 ^ 53 ->
  (E1 < E2 /\ 2 ^ 52 <= M2) \/ (E1 = E2 /\ M1 <= M2) ->
  lex_le (key (pack false M1 E1)) (key (pack false M2 E2))
  /\ lex_le (key (pack true M2 E2)) (key (pack true M1 E1)).
Proof.
  change (2 ^ 53) with 9007199254740992. change (2 ^ 52) with 4503599627370496.
  intros H1 H2 H. unfold pack.
  change (2 ^ 53) with 9007199254740992. change (2 ^ 52) with 4503599627370496.
  destruct (Z.eqb_spec M1 0), (Z.eqb_spec M2 0),
    (Z.ltb_spec M1 9007199254740992), (Z.ltb_spec M2 9007199254740992),
    (Z.leb_spec E1 971), (Z.leb_spec E2 971),
    (Z.leb_spec (E1 + 1) 971), (Z.leb_spec (E2 + 1) 971);
    try lia; cbn [key Z.to_pos]; unfold lex_le;
    try (destruct M1; try lia); try (destruct M2; try lia);
    cbn [Z.to_pos]; split; lia.
Qed.

Lemma rnd_exp_mono m1 m2 e : 0 <= m1 <= m2 -> rnd_exp m1 e <= rnd_exp m2 e.
Proof.
  intros H. unfold rnd_exp. apply fexp_mono.
  pose proof (Zdigits2_mono m1 m2 H). lia.
Qed.

Lemma rnd_mant_range m e l :
  0 <= m -> e <= rnd_exp m e -> 0 <= rnd_mant m e l <= 2 ^ 53.
Proof.
  intros Hm HP. destruct (rnd_mant_bounds m e l Hm HP) as ([Hl _] & Hu & _).
  assert (HB : 0 < 2 ^ (rnd_exp m e - e)) by (apply Z.pow_pos_nonneg; lia).
  pose proof (Z.div_pos m _ Hm HB). lia.
Qed.

Lemma rnd_not_nan s m e l :
  0 <= m -> e <= rnd_exp m e -> is_nan (rnd s m e l) = false.
Proof. intros. rewrite rnd_closed by assumption. apply pack_not_nan. Qed.

(** Rounding is monotone in the truncated value it is given, at a fixed
    exponent: the order of the inputs (mantissa first, then the position of
    the discarded part) is the order of the results. *)
Theorem rnd_mono e m1 l1 m2 l2 :
  0 <= m1 -> e <= rnd_exp m1 e ->
  4 * m1 + loc_code l1 <= 4 * m2 + loc_code l2 ->
  lex_le (key (rnd false m1 e l1)) (key (rnd false m2 e l2))
  /\ lex_le (key (rnd true m2 e l2)) (key (rnd true m1 e l1)).
Proof.
  intros Hm1 HP1 Hc.
  pose proof (loc_code_range l1). pose proof (loc_code_range l2).
  assert (Hm : 0 <= m1 <= m2) by lia.
  pose proof (rnd_exp_mono m1 m2 e Hm) as HE.
  assert (Hm2 : 0 <= m2) by lia.
  assert (HP2 : e <= rnd_exp m2 e) by lia.
  rewrite !rnd_closed by assumption.
  pose proof (rnd_mant_range m1 e l1 Hm1 HP1).
  pose proof (rnd_mant_range m2 e l2 Hm2 HP2).
  destruct (rnd_mant_bounds m2 e l2 Hm2 HP2) as (_ & _ & Hn2).
  pose proof (rnd_exp_ge_emin m1 e).
  apply pack_mono; try assumption.
  destruct (Z.eq_dec (rnd_exp m1 e) (rnd_exp m2 e)) as [EE|NE].
  - right. split; auto. unfold rnd_mant. rewrite EE.
    apply rne_code_mono, squash_mono; lia.
  - left. split; [lia|]. apply Hn2. lia.
Qed.

(** ** Canonical floats are fixed points of rounding *)

Lemma Zdigits2_shift m j :
  0 < m -> 0 <= j -> Zdigits2 (m * 2 ^ j) = Zdigits2 m + j.
Proof.
  intros Hm Hj. assert (HB : 0 < 2 ^ j) by (apply Z.pow_pos_nonneg; lia).
  destruct (Zdigits2_bounds m Hm) as [Hl Hu].
  pose proof (Zdigits2_nonneg m) as Hd.
  assert (Hd1 : 1 <= Zdigits2 m).
  { destruct m; try lia. simpl. lia. }
  apply Zdigits2_unique; [nia|].
  replace (Zdigits2 m + j - 1) with (Zdigits2 m - 1 + j) by lia.
  rewrite !Z.pow_add_r by lia. nia.
Qed.

Lemma squash_shift k j W :
  0 <= k -> 0 <= j -> squash (k + j) (W * 2 ^ j) = squash k W.
Proof.
  intros Hk Hj. unfold squash.
  assert (HB : 0 < 2 ^ j) by (apply Z.pow_pos_nonneg; lia).
  assert (HK : 0 < 2 ^ k) by (apply Z.pow_pos_nonneg; lia).
  rewrite Z.pow_add_r by lia.
  rewrite Z.div_mul_cancel_r by lia.
  rewrite Z.mul_mod_distr_r by lia.
  destruct (Z.eqb_spec (W mod 2 ^ k) 0) as [E|E].
  - rewrite E. reflexivity.
  - destruct (Z.eqb_spec (W mod 2 ^ k * 2 ^ j) 0); [nia|reflexivity].
Qed.

Lemma canonical_facts m e :
  canonical m e ->
  fexp (Zdigits2 (Z.pos m) + e) = e /\ -1074 <= e <= 971
  /\ Zdigits2 (Z.pos m) <= 53
  /\ (Zdigits2 (Z.pos m) = 53 \/ e = -1074).
Proof.
  unfold canonical, bounded, canonical_mantissa. intros H.
  apply andb_true_iff in H. destruct H as [H1 H2].
  apply Z.eqb_eq in H1. apply Z.leb_le in H2.
  change (emax - prec) with 971 in H2.
  fold (fexp (Z.pos (digits2_pos m) + e)) in H1.
  cbn [Zdigits2]. rewrite fexp_eq in *. lia.
Qed.

Theorem rnd_canonical s m e j :
  canonical m e -> 0 <= j ->
  rnd s (Z.pos m * 2 ^ j) (e - j) loc_Exact = S754_finite s m e.
Proof.
  intros Hc Hj. destruct (canonical_facts m e Hc) as (Hf & He & Hd & _).
  assert (HB : 0 < 2 ^ j) by (apply Z.pow_pos_nonneg; lia).
  assert (HE : rnd_exp (Z.pos m * 2 ^ j) (e - j) = e).
  { unfold rnd_exp. rewrite Zdigits2_shift by lia.
    replace (Zdigits2 (Z.pos m) + j + (e - j)) with (Zdigits2 (Z.pos m) + e) by lia.
    exact Hf. }
  rewrite rnd_closed by (rewrite ?HE; nia).
  unfold rnd_mant. rewrite HE. cbn [loc_code]. rewrite Z.add_0_r.
  replace (e - (e - j) + 1) with (1 + j) by lia.
  replace (4 * (Z.pos m * 2 ^ j)) with (4 * Z.pos m * 2 ^ j) by lia.
  rewrite squash_shift, squash_1, rne_code_exact by lia.
  unfold pack. cbn [Z.eqb].
  destruct (Zdigits2_bounds (Z.pos m)) as [_ Hu]; [lia|].
  assert (Hlt : Z.pos m < 2 ^ 53).
  { eapply Z.lt_le_trans; [exact Hu|]. apply Z.pow_le_mono_r; lia. }
  destruct (Z.ltb_spec (Z.pos m) (2 ^ 53)); [|lia].
  destruct (Z.leb_spec e 971); [|lia]. reflexivity.
Qed.

(** ** [binary_round] and [binary_normalize] as roundings *)

Lemma iter_xO m d : Z.pos (Pos.iter xO m d) = Z.pos m * 2 ^ Z.pos d.
Proof.
  revert m. induction d using Pos.peano_ind; intros m.
  - cbn [Pos.iter]. change (2 ^ 1) with 2. lia.
  - rewrite Pos.iter_succ. rewrite Pos2Z.inj_succ, Z.pow_succ_r by lia.
    rewrite Pos2Z.inj_xO, IHd. lia.
Qed.

Lemma shl_align_spec m e e' :
  let k := Z.max (e - e') 0 in
  Z.pos (fst (shl_align m e e')) = Z.pos m * 2 ^ k
  /\ snd (shl_align m e e') = e - k.
Proof.
  unfold shl_align. destruct (e' - e) as [|p|p] eqn:E; cbn [fst snd].
  - rewrite Z.max_r by lia. simpl. lia.
  - rewrite Z.max_r by lia. simpl. lia.
  - rewrite iter_xO. replace (Z.max (e - e') 0) with (Z.pos p) by lia. lia.
Qed.

Lemma binary_round_rnd s m e :
  let k := norm_shift (Z.pos m) e in
  binary_round prec emax s m e = rnd s (Z.pos m * 2 ^ k) (e - k) loc_Exact
  /\ e - k <= rnd_exp (Z.pos m * 2 ^ k) (e - k)
  /\ 0 <= k.
Proof.
  intros k. unfold binary_round.
  destruct (shl_align_spec m e (SpecFloat.fexp prec emax (Z.pos (digits2_pos m) + e)))
    as [E1 E2].
  destruct (shl_align m e _) as [mz ez]. cbn [fst snd] in E1, E2.
  fold (fexp (Z.pos (digits2_pos m) + e)) in E1, E2.
  change (Z.pos (digits2_pos m)) with (Zdigits2 (Z.pos m)) in E1, E2.
  fold (norm_shift (Z.pos m) e) in E1, E2. fold k in E1, E2.
  assert (Hk : 0 <= k) by (unfold k, norm_shift; lia).
  rewrite E1, E2. split; [reflexivity|]. split; [|exact Hk].
  unfold rnd_exp. rewrite Zdigits2_shift by lia.
  replace (Zdigits2 (Z.pos m) + k + (e - k)) with (Zdigits2 (Z.pos m) + e) by lia.
  unfold k, norm_shift. lia.
Qed.

(** ** Results of rounding are valid binary64 values *)

Lemma Zdigits2_ge m k : 0 <= k -> 2 ^ k <= m -> k + 1 <= Zdigits2 m.
Proof.
  intros Hk H. assert (0 < 2 ^ k) by (apply Z.pow_pos_nonneg; lia).
  destruct (Zdigits2_bounds m) as [_ Hu]; [lia|].
  destruct (Z.le_gt_cases (k + 1) (Zdigits2 m)) as [L|G]; auto.
  assert (2 ^ Zdigits2 m <= 2 ^ k) by (apply Z.pow_le_mono_r; lia). lia.
Qed.

Lemma pack_valid s M E :
  0 <= M <= 2 ^ 53 -> -1074 <= E -> (-1074 < E -> 2 ^ 52 <= M) ->
  valid (pack s M E).
Proof.
  intros HM HE Hn. unfold pack, valid.
  destruct (Z.eqb_spec M 0); [reflexivity|].
  destruct (Z.ltb_spec M (2 ^ 53)).
  - destruct (Z.leb_spec E 971); [|reflexivity].
    cbn [valid_binary]. unfold bounded, canonical_mantissa.
    apply andb_true_iff. split; [|apply Z.leb_le; change (emax - prec) with 971; lia].
    apply Z.eqb_eq. fold (fexp (Z.pos (digits2_pos (Z.to_pos M)) + E)).
    change (Z.pos (digits2_pos (Z.to_pos M))) with (Zdigits2 (Z.pos (Z.to_pos M))).
    rewrite Z2Pos.id by lia. rewrite fexp_eq.
    assert (Hd : Zdigits2 M <= 53) by (apply Zdigits2_le; lia).
    destruct (Z.eq_dec E (-1074)) as [->|NE]; [lia|].
    assert (53 <= Zdigits2 M) by (apply (Zdigits2_ge M 52); lia). lia.
  - destruct (Z.leb_spec (E + 1) 971); [|reflexivity].
    cbn [valid_binary]. unfold bounded, canonical_mantissa.
    apply andb_true_iff. split; [|apply Z.leb_le; change (emax - prec) with 971; lia].
    apply Z.eqb_eq. fold (fexp (Z.pos (digits2_pos (Z.to_pos (2 ^ 52))) + (E + 1))).
    change (Z.pos (digits2_pos (Z.to_pos (2 ^ 52)))) with 53.
    rewrite fexp_eq. lia.
Qed.

Lemma rnd_valid s m e l : 0 <= m -> e <= rnd_exp m e -> valid (rnd s m e l).
Proof.
  intros Hm HP. rewrite rnd_closed by assumption.
  destruct (rnd_mant_bounds m e l Hm HP) as (_ & _ & Hn).
  pose proof (rnd_mant_range m e l Hm HP).
  pose proof (rnd_exp_ge_emin m e) as Hmin.
  unfold emin in *; change (SpecFloat.emin prec emax) with (-1074) in *.
  apply pack_valid; auto.
Qed.

Lemma pack_sign M E :
  0 <= M ->
  lex_le (0, 0, 0) (key (pack false M E)) /\ lex_le (key (pack true M E)) (0, 0, 0).
Proof.
  intros HM. unfold pack.
  destruct (Z.eqb_spec M 0); [cbn; lia|].
  destruct (M <? 2 ^ 53); [destruct (E <=? 971)|destruct (E + 1 <=? 971)];
    cbn [key]; unfold lex_le; lia.
Qed.

Lemma rnd_sign m e l :
  0 <= m -> e <= rnd_exp m e ->
  lex_le (0, 0, 0) (key (rnd false m e l)) /\ lex_le (key (rnd true m e l)) (0, 0, 0).
Proof.
  intros Hm HP. rewrite !rnd_closed by assumption.
  apply pack_sign. apply rnd_mant_range; assumption.
Qed.

(** *** Multiplication *)

Lemma mul_side_condition mx ex my ey :
  canonical mx ex -> canonical my ey ->
  ex + ey <= rnd_exp (Z.pos (mx * my)) (ex + ey).
Proof.
  intros Hx Hy.
  destruct (canonical_facts _ _ Hx) as (_ & Hex & Hdx & Hnx).
  destruct (canonical_facts _ _ Hy) as (_ & Hey & Hdy & Hny).
  destruct (Zdigits2_bounds (Z.pos mx)) as [Hlx _]; [lia|].
  destruct (Zdigits2_bounds (Z.pos my)) as [Hly _]; [lia|].
  assert (H1x : 1 <= Zdigits2 (Z.pos mx)) by (simpl; lia).
  assert (H1y : 1 <= Zdigits2 (Z.pos my)) by (simpl; lia).
  assert (Hd : Zdigits2 (Z.pos mx) + Zdigits2 (Z.pos my) - 1
               <= Zdigits2 (Z.pos (mx * my))).
  { replace (Zdigits2 (Z.pos mx) + Zdigits2 (Z.pos my) - 1)
      with ((Zdigits2 (Z.pos mx) - 1 + (Zdigits2 (Z.pos my) - 1)) + 1) by lia.
    apply Zdigits2_ge; [lia|]. rewrite Z.pow_add_r by lia.
    rewrite Pos2Z.inj_mul.
    assert (0 < 2 ^ (Zdigits2 (Z.pos mx) - 1)) by (apply Z.pow_pos_nonneg; lia).
    assert (0 < 2 ^ (Zdigits2 (Z.pos my) - 1)) by (apply Z.pow_pos_nonneg; lia).
    nia. }
  unfold rnd_exp. rewrite fexp_eq. lia.
Qed.

(** *** Division *)

Lemma shift_case s m :
  0 <= s ->
  match s with Z.pos _ => Z.shiftl m s | 0 => m | Z.neg _ => 0 end = m * 2 ^ s.
Proof.
  intros Hs. destruct s as [|p|p]; try lia.
  rewrite Z.shiftl_mul_pow2 by lia. reflexivity.
Qed.

Lemma div_eucl_eq a b : Z.div_eucl a b = (a / b, a mod b).
Proof. unfold Z.div, Z.modulo. destruct (Z.div_eucl a b); reflexivity. Qed.

Lemma div_core_facts mx ex my ey :
  canonical mx ex -> canonical my ey ->
  let '(q, e', l) := SFdiv_core_binary prec emax (Z.pos mx) ex (Z.pos my) ey in
  0 <= q /\ e' <= rnd_exp q e'.
Proof.
  intros Hx Hy.
  destruct (canonical_facts _ _ Hx) as (_ & Hex & Hdx & Hnx).
  destruct (canonical_facts _ _ Hy) as (_ & Hey & Hdy & Hny).
  destruct (Zdigits2_bounds (Z.pos mx)) as [Hlx Hux]; [lia|].
  destruct (Zdigits2_bounds (Z.pos my)) as [Hly Huy]; [lia|].
  assert (H1x : 1 <= Zdigits2 (Z.pos mx)) by (simpl; lia).
  assert (H1y : 1 <= Zdigits2 (Z.pos my)) by (simpl; lia).
  unfold SFdiv_core_binary.
  fold (fexp (Zdigits2 (Z.pos mx) + ex - (Zdigits2 (Z.pos my) + ey))).
  set (dx := Zdigits2 (Z.pos mx)) in *. set (dy := Zdigits2 (Z.pos my)) in *.
  set (e' := Z.min (fexp (dx + ex - (dy + ey))) (ex - ey)).
  assert (Hs : 0 <= ex - ey - e') by (unfold e'; lia).
  rewrite shift_case by exact Hs.
  set (s := ex - ey - e') in *.
  assert (HB : 0 < 2 ^ s) by (apply Z.pow_pos_nonneg; lia).
  change IntDef.Z.div_eucl with Z.div_eucl. rewrite div_eucl_eq.
  set (m' := Z.pos mx * 2 ^ s).
  assert (Hm0 : 0 <= m') by (unfold m'; nia).
  assert (Hq0 : 0 <= m' / Z.pos my) by (apply Z.div_pos; lia).
  set (q := m' / Z.pos my) in *.
  split; auto.
  unfold rnd_exp. rewrite fexp_eq.
  destruct (Z.le_gt_cases e' (-1074)) as [L|G]; [lia|].
  assert (Ee' : e' = dx + ex - (dy + ey) - 53).
  { unfold e' in *. rewrite fexp_eq in *. lia. }
  assert (Es : s = 53 - dx + dy) by (unfold s; lia).
  assert (53 <= Zdigits2 q); [|lia].
  apply (Zdigits2_ge q 52); [lia|].
  assert (Hm' : 2 ^ (52 + dy) <= m').
  { unfold m'. replace (52 + dy) with (dx - 1 + s) by lia.
    rewrite Z.pow_add_r by lia.
    assert (0 < 2 ^ (dx - 1)) by (apply Z.pow_pos_nonneg; lia). nia. }
  rewrite Z.pow_add_r in Hm' by lia.
  assert (0 < 2 ^ 52) by reflexivity.
  assert (0 < 2 ^ dy) by (apply Z.pow_pos_nonneg; lia).
  unfold q. apply Z.div_le_lower_bound; [lia|]. nia.
Qed.

(** ** Classes of values *)

Lemma fin_pos_nonneg x : fin_pos x -> fin_nonneg x.
Proof. destruct x as [| | |[]]; cbn; tauto. Qed.
Lemma fin_nonneg_nonneg x : fin_nonneg x -> nonneg x.
Proof. destruct x as [| [] | |[]]; cbn; tauto. Qed.
Lemma nonneg_above x : nonneg x -> above_ninf x.
Proof. destruct x as [| [] | |[]]; cbn; tauto. Qed.
Lemma above_wf x : above_ninf x -> wf x.
Proof. destruct x as [| [] | |[]]; cbn; tauto. Qed.
Lemma wf_not_nan x : wf x -> is_nan x = false.
Proof. destruct x; cbn; tauto. Qed.

Lemma rnd_wf s m e l : 0 <= m -> e <= rnd_exp m e -> wf (rnd s m e l).
Proof.
  intros Hm HP. pose proof (rnd_valid s m e l Hm HP) as Hv.
  pose proof (rnd_not_nan s m e l Hm HP) as Hn.
  destruct (rnd s m e l); cbn in *; auto. discriminate.
Qed.

Lemma rnd_nonneg m e l : 0 <= m -> e <= rnd_exp m e -> nonneg (rnd false m e l).
Proof.
  intros Hm HP. pose proof (rnd_wf false m e l Hm HP) as Hw.
  destruct (rnd_sign m e l Hm HP) as [Hs _].
  destruct (rnd false m e l) as [| [] | |[]]; cbn in *; auto; lia.
Qed.

(** *** Addition and subtraction *)

Lemma normalize_rnd M e sz :
  M <> 0 ->
  let k := norm_shift (Z.abs M) e in
  binary_normalize prec emax M e sz = rnd (M <? 0) (Z.abs M * 2 ^ k) (e - k) loc_Exact
  /\ e - k <= rnd_exp (Z.abs M * 2 ^ k) (e - k)
  /\ 0 <= k.
Proof.
  intros HM. destruct M as [|p|p]; try lia; cbn [binary_normalize Z.abs Z.ltb Z.compare];
    apply binary_round_rnd.
Qed.

Lemma normalize_wf M e sz : wf (binary_normalize prec emax M e sz).
Proof.
  destruct (Z.eq_dec M 0) as [->|HM]; [exact I|].
  destruct (normalize_rnd M e sz HM) as (E & HP & Hk). rewrite E.
  assert (0 < 2 ^ norm_shift (Z.abs M) e) by (apply Z.pow_pos_nonneg; lia).
  apply rnd_wf; [nia|exact HP].
Qed.

Lemma add_finite sx mx ex sy my ey :
  let ez := Z.min ex ey in
  SFadd prec emax (S754_finite sx mx ex) (S754_finite sy my ey) =
  binary_normalize prec emax
    (cond_Zopp sx (Z.pos mx * 2 ^ (ex - ez)) + cond_Zopp sy (Z.pos my * 2 ^ (ey - ez)))
    ez false.
Proof.
  intros ez. cbn [SFadd]. fold ez.
  destruct (shl_align_spec mx ex ez) as [E1 _].
  destruct (shl_align_spec my ey ez) as [E2 _].
  rewrite E1, E2. rewrite !Z.max_l by (unfold ez; lia). reflexivity.
Qed.

Lemma sub_finite sx mx ex sy my ey :
  let ez := Z.min ex ey in
  SFsub prec emax (S754_finite sx mx ex) (S754_finite sy my ey) =
  binary_normalize prec emax
    (cond_Zopp sx (Z.pos mx * 2 ^ (ex - ez)) - cond_Zopp sy (Z.pos my * 2 ^ (ey - ez)))
    ez false.
Proof.
  intros ez. cbn [SFsub]. fold ez.
  destruct (shl_align_spec mx ex ez) as [E1 _].
  destruct (shl_align_spec my ey ez) as [E2 _].
  rewrite E1, E2. rewrite !Z.max_l by (unfold ez; lia). reflexivity.
Qed.

Lemma add_wf x y :
  wf x -> wf y ->
  (forall s, x = S754_infinity s -> y <> S754_infinity (negb s)) ->
  wf (SFadd prec emax x y).
Proof.
  intros Hx Hy Hi.
  destruct x as [sx|sx| |sx mx ex], y as [sy|sy| |sy my ey]; cbn in Hx, Hy; try tauto;
    try exact I; try assumption.
  - destruct sx, sy; exact I.
  - specialize (Hi sx eq_refl). destruct sx, sy; cbn in *; try exact I; congruence.
  - rewrite add_finite. apply normalize_wf.
Qed.

Lemma sub_wf x y :
  wf x -> wf y ->
  (forall s, x = S754_infinity s -> y <> S754_infinity s) ->
  wf (SFsub prec emax x y).
Proof.
  intros Hx Hy Hi.
  destruct x as [sx|sx| |sx mx ex], y as [sy|sy| |sy my ey]; cbn in Hx, Hy; try tauto;
    try exact I; try assumption.
  - destruct sx, sy; exact I.
  - specialize (Hi sx eq_refl). destruct sx, sy; cbn in *; try exact I; congruence.
  - rewrite sub_finite. apply normalize_wf.
Qed.

Lemma lex_le_refl a : lex_le a a.
Proof. destruct a as [[a1 a2] a3]. unfold lex_le. lia. Qed.

Lemma lex_le_trans a b c : lex_le a b -> lex_le b c -> lex_le a c.
Proof.
  destruct a as [[a1 a2] a3], b as [[b1 b2] b3], c as [[c1 c2] c3].
  unfold lex_le. lia.
Qed.

Lemma leb_refl x : wf x -> SFleb x x = true.
Proof. intros H. apply leb_key; auto using wf_not_nan, lex_le_refl. Qed.

Lemma pow2_split a b : 0 <= a -> 0 <= b -> 2 ^ (a + b) = 2 ^ a * 2 ^ b.
Proof. intros. apply Z.pow_add_r; lia. Qed.

(** Adding a positive finite value never gives less: rounding is
    monotone and the first operand is its own rounding. *)
Lemma add_ge_finite sx mx ex my ey :
  canonical mx ex ->
  lex_le (key (S754_finite sx mx ex))
         (key (SFadd prec emax (S754_finite sx mx ex) (S754_finite false my ey))).
Proof.
  intros Hc. rewrite add_finite. cbn [cond_Zopp].
  set (ez := Z.min ex ey).
  assert (Hx0 : 0 <= ex - ez) by (unfold ez; lia).
  assert (Hy0 : 0 <= ey - ez) by (unfold ez; lia).
  assert (HX : 0 < 2 ^ (ex - ez)) by (apply Z.pow_pos_nonneg; lia).
  assert (HY : 0 < 2 ^ (ey - ez)) by (apply Z.pow_pos_nonneg; lia).
  set (X := Z.pos mx * 2 ^ (ex - ez)). set (Y := Z.pos my * 2 ^ (ey - ez)).
  assert (HXp : 0 < X) by (unfold X; nia). assert (HYp : 0 < Y) by (unfold Y; nia).
  destruct (canonical_facts _ _ Hc) as (Hf & _).
  assert (Hself : forall k, 0 <= k ->
            rnd sx (X * 2 ^ k) (ez - k) loc_Exact = S754_finite sx mx ex
            /\ ez - k <= rnd_exp (X * 2 ^ k) (ez - k)).
  { intros k Hk. unfold X.
    replace (Z.pos mx * 2 ^ (ex - ez) * 2 ^ k) with (Z.pos mx * 2 ^ (ex - ez + k))
      by (rewrite pow2_split by lia; lia).
    replace (ez - k) with (ex - (ex - ez + k)) by lia.
    split; [apply rnd_canonical; [assumption|lia]|].
    unfold rnd_exp. rewrite Zdigits2_shift by lia.
    replace (Zdigits2 (Z.pos mx) + (ex - ez + k) + (ex - (ex - ez + k)))
      with (Zdigits2 (Z.pos mx) + ex) by lia. lia. }
  destruct sx; cbn [cond_Zopp].
  - (* a negative first operand *)
    destruct (Z.lt_trichotomy (- X + Y) 0) as [Hlt|[Heq|Hgt]].
    + destruct (normalize_rnd (- X + Y) ez false ltac:(lia)) as (E & HP & Hk).
      rewrite E. set (k := norm_shift (Z.abs (- X + Y)) ez) in *.
      destruct (Z.ltb_spec (- X + Y) 0); [|lia].
      destruct (Hself k Hk) as [Es _]. rewrite <- Es.
      assert (0 < 2 ^ k) by (apply Z.pow_pos_nonneg; lia).
      apply (rnd_mono (ez - k) (Z.abs (- X + Y) * 2 ^ k) loc_Exact (X * 2 ^ k) loc_Exact);
        [nia|exact HP|cbn [loc_code]; nia].
    + rewrite Heq. cbn. lia.
    + destruct (normalize_rnd (- X + Y) ez false ltac:(lia)) as (E & HP & Hk).
      rewrite E. set (k := norm_shift (Z.abs (- X + Y)) ez) in *.
      destruct (Z.ltb_spec (- X + Y) 0); [lia|].
      assert (0 < 2 ^ k) by (apply Z.pow_pos_nonneg; lia).
      destruct (rnd_sign (Z.abs (- X + Y) * 2 ^ k) (ez - k) loc_Exact) as [Hs _];
        [nia|exact HP|].
      eapply lex_le_trans; [|exact Hs]. cbn. lia.
  - destruct (normalize_rnd (X + Y) ez false ltac:(lia)) as (E & HP & Hk).
    rewrite E. set (k := norm_shift (Z.abs (X + Y)) ez) in *.
    destruct (Z.ltb_spec (X + Y) 0); [lia|].
    destruct (Hself k Hk) as [Es HPs]. rewrite <- Es.
    assert (0 < 2 ^ k) by (apply Z.pow_pos_nonneg; lia).
    apply (rnd_mono (ez - k) (X * 2 ^ k) loc_Exact (Z.abs (X + Y) * 2 ^ k) loc_Exact);
      [nia|exact HPs|cbn [loc_code]; nia].
Qed.

Theorem add_ge x y :
  above_ninf x -> nonneg y ->
  above_ninf (SFadd prec emax x y) /\ SFleb x (SFadd prec emax x y) = true.
Proof.
  intros Hx Hy.
  destruct x as [sx|[]| |sx mx ex], y as [sy|[]| |[] my ey]; cbn in Hx, Hy; try tauto;
    try (split; [exact I|reflexivity]).
  - destruct sx, sy; split; try exact I; reflexivity.
  - split; [exact Hx|]. apply (leb_refl (S754_finite sx mx ex)). exact Hx.
  - pose proof (add_ge_finite sx mx ex my ey Hx) as Hle.
    assert (Hw : wf (SFadd prec emax (S754_finite sx mx ex) (S754_finite false my ey))).
    { rewrite add_finite. apply normalize_wf. }
    split.
    + destruct (SFadd prec emax _ _) as [| [] | |]; cbn in *; auto.
      destruct sx; cbn in Hle; lia.
    + apply leb_key; auto using wf_not_nan.
Qed.

Lemma add_nonneg x y :
  nonneg x -> nonneg y -> nonneg (SFadd prec emax x y).
Proof.
  intros Hx Hy. destruct (add_ge x y (nonneg_above x Hx) Hy) as [Ha Hl].
  assert (Hk : lex_le (key x) (key (SFadd prec emax x y))).
  { apply leb_key; [apply wf_not_nan, above_wf, nonneg_above; exact Hx
                   |apply wf_not_nan, above_wf; exact Ha|exact Hl]. }
  clear Hl.
  destruct x as [sx|[]| |[] mx ex]; cbn in Hx; try tauto;
  destruct (SFadd prec emax _ y) as [|[]| |[]]; cbn in *; unfold lex_le in *;
    auto; try tauto; lia.
Qed.

Lemma sub_as_add sx mx ex sy my ey :
  SFsub prec emax (S754_finite sx mx ex) (S754_finite sy my ey) =
  SFadd prec emax (S754_finite (negb sy) my ey) (S754_finite sx mx ex).
Proof.
  rewrite sub_finite, add_finite. rewrite (Z.min_comm ey ex). f_equal.
  destruct sx, sy; cbn [cond_Zopp negb]; lia.
Qed.

(** Taking a finite value away from a non-negative one cannot reach
    [-inf]. *)
Lemma sub_above x y :
  nonneg x -> fin_nonneg y -> above_ninf (SFsub prec emax x y).
Proof.
  intros Hx Hy.
  destruct x as [sx|[]| |[] mx ex], y as [sy| | |[] my ey]; cbn in Hx, Hy; try tauto;
    try exact I; try assumption.
  - destruct sx, sy; exact I.
  - rewrite sub_as_add. cbn [negb].
    apply (add_ge (S754_finite true my ey) (S754_finite false mx ex)); assumption.
Qed.

(** *** Multiplication and division of non-negative values *)

Lemma mul_nonneg x y :
  fin_nonneg x -> fin_nonneg y -> nonneg (SFmul prec emax x y).
Proof.
  intros Hx Hy.
  destruct x as [sx| | |[] mx ex], y as [sy| | |[] my ey]; cbn in Hx, Hy; try tauto;
    try exact I.
  cbn [SFmul xorb]. apply rnd_nonneg; [lia|].
  apply mul_side_condition; assumption.
Qed.

Lemma div_nonneg x y :
  nonneg x -> fin_pos y -> nonneg (SFdiv prec emax x y).
Proof.
  intros Hx Hy.
  destruct x as [sx|[]| |[] mx ex], y as [sy| | |[] my ey]; cbn in Hx, Hy; try tauto;
    try exact I.
  cbn [SFdiv xorb]. pose proof (div_core_facts mx ex my ey Hx Hy) as H.
  destruct (SFdiv_core_binary prec emax (Z.pos mx) ex (Z.pos my) ey) as [[q e'] l].
  destruct H as [Hq HP]. apply rnd_nonneg; assumption.
Qed.


(** * Facts about the Python operations *)

(** ** [max] *)

Lemma py_max2_cases a b : py_max2 a b = a \/ py_max2 a b = b.
Proof. unfold py_max2. destruct (py_gt b a); auto. Qed.

Lemma py_max2_wf a b : wf a -> wf b -> wf (py_max2 a b).
Proof. intros. destruct (py_max2_cases a b) as [-> | ->]; assumption. Qed.

Lemma py_max2_key a b :
  wf a -> wf b ->
  lex_le (key a) (key (py_max2 a b)) /\ lex_le (key b) (key (py_max2 a b)).
Proof.
  intros Ha Hb. unfold py_max2, py_gt, B64.ltb.
  pose proof (ltb_key a b (wf_not_nan a Ha) (wf_not_nan b Hb)) as Hlt.
  destruct (key a) as [[a1 a2] a3] eqn:Ka, (key b) as [[b1 b2] b3] eqn:Kb.
  destruct (SFltb a b).
  - rewrite Kb. assert (L : lex_lt (a1, a2, a3) (b1, b2, b3)) by (apply Hlt; reflexivity).
    unfold lex_lt, lex_le in *. lia.
  - rewrite Ka. assert (L : ~ lex_lt (a1, a2, a3) (b1, b2, b3))
      by (intros L; apply Hlt in L; discriminate).
    unfold lex_lt, lex_le in *. lia.
Qed.

Lemma py_max2_ge a b :
  wf a -> wf b ->
  leb a (py_max2 a b) = true /\ leb b (py_max2 a b) = true.
Proof.
  intros Ha Hb. destruct (py_max2_key a b Ha Hb) as [K1 K2].
  pose proof (py_max2_wf a b Ha Hb) as Hm.
  split; apply leb_key; auto using wf_not_nan.
Qed.

Lemma py_max3_wf a b c : wf a -> wf b -> wf c -> wf (py_max3 a b c).
Proof. intros. unfold py_max3. auto using py_max2_wf. Qed.

Lemma py_max3_key a b c :
  wf a -> wf b -> wf c ->
  lex_le (key a) (key (py_max3 a b c)) /\ lex_le (key b) (key (py_max3 a b c))
  /\ lex_le (key c) (key (py_max3 a b c)).
Proof.
  intros Ha Hb Hc. unfold py_max3.
  destruct (py_max2_key a b Ha Hb) as [K1 K2].
  destruct (py_max2_key (py_max2 a b) c (py_max2_wf a b Ha Hb) Hc) as [K3 K4].
  repeat split; eauto using lex_le_trans.
Qed.

(** ** Rounding to decimals *)

Lemma rhe_bounds p q : p / q <= round_half_even_div p q <= p / q + 1.
Proof.
  unfold round_half_even_div.
  destruct (2 * (p mod q) ?= q); [destruct (Z.even (p / q))| |]; lia.
Qed.

Lemma rhe_mono p1 p2 q :
  0 < q -> p1 <= p2 -> round_half_even_div p1 q <= round_half_even_div p2 q.
Proof.
  intros Hq Hp.
  destruct (Z.eq_dec (p1 / q) (p2 / q)) as [E|NE].
  - unfold round_half_even_div. rewrite <- E.
    assert (Hr : p1 mod q <= p2 mod q) by (Z.div_mod_to_equations; nia).
    destruct (Z.compare_spec (2 * (p1 mod q)) q);
      destruct (Z.compare_spec (2 * (p2 mod q)) q);
      destruct (Z.even (p1 / q)); lia.
  - pose proof (rhe_bounds p1 q). pose proof (rhe_bounds p2 q).
    assert (p1 / q <= p2 / q) by (apply Z.div_le_mono; lia). lia.
Qed.

Lemma rhe_scale p q c :
  0 < q -> 0 < c ->
  round_half_even_div (p * c) (q * c) = round_half_even_div p q.
Proof.
  intros Hq Hc. unfold round_half_even_div.
  rewrite Z.div_mul_cancel_r by lia.
  rewrite Z.mul_mod_distr_r by lia.
  destruct (Z.compare_spec (2 * (p mod q * c)) (q * c));
    destruct (Z.compare_spec (2 * (p mod q)) q); try reflexivity; nia.
Qed.

Lemma rhe_exact k q : 0 < q -> round_half_even_div (k * q) q = k.
Proof.
  intros Hq. unfold round_half_even_div.
  rewrite Z.div_mul, Z.mod_mul by lia.
  destruct (Z.compare_spec (2 * 0) q); lia.
Qed.

(** The digits as one formula over the value in units of [2^-1074]. *)
Lemma decimal_digits_scaled nd m e :
  0 <= nd -> emin <= e ->
  decimal_digits nd m e =
  round_half_even_div (scaled m e * 10 ^ nd) (2 ^ (- emin)).
Proof.
  intros Hnd He. unfold decimal_digits, scaled.
  unfold emin in *; change (SpecFloat.emin prec emax) with (-1074) in *.
  change (- -1074) with 1074.
  assert (H10 : 0 < 10 ^ nd) by (apply Z.pow_pos_nonneg; lia).
  destruct (Z.leb_spec 0 e).
  - replace (e - -1074) with (e + 1074) by lia.
    rewrite Z.pow_add_r by lia.
    replace (Z.pos m * (2 ^ e * 2 ^ 1074) * 10 ^ nd)
      with (Z.pos m * 2 ^ e * 10 ^ nd * 2 ^ 1074) by lia.
    rewrite rhe_exact; [reflexivity|]. apply Z.pow_pos_nonneg; lia.
  - assert (E : 2 ^ 1074 = 2 ^ (- e) * 2 ^ (e - -1074)).
    { rewrite <- Z.pow_add_r by lia. f_equal. lia. }
    rewrite E.
    replace (Z.pos m * 2 ^ (e - -1074) * 10 ^ nd)
      with (Z.pos m * 10 ^ nd * 2 ^ (e - -1074)) by lia.
    rewrite rhe_scale; [reflexivity| |]; apply Z.pow_pos_nonneg; lia.
Qed.

(** On canonical positive values the key order is the order of the
    values. *)
Lemma scaled_mono m1 e1 m2 e2 :
  canonical m1 e1 -> canonical m2 e2 ->
  lex_le (key (S754_finite false m1 e1)) (key (S754_finite false m2 e2)) ->
  scaled m1 e1 <= scaled m2 e2.
Proof.
  intros H1 H2 Hk. cbn in Hk.
  destruct (canonical_facts _ _ H1) as (_ & He1 & Hd1 & _).
  destruct (canonical_facts _ _ H2) as (_ & He2 & _ & Hn2).
  unfold scaled, emin. change (SpecFloat.emin prec emax) with (-1074).
  destruct (Z.eq_dec e1 e2) as [->|NE].
  - assert (0 < 2 ^ (e2 - -1074)) by (apply Z.pow_pos_nonneg; lia). nia.
  - assert (Hlt : e1 < e2) by lia.
    destruct (Zdigits2_bounds (Z.pos m1)) as [_ Hu1]; [lia|].
    destruct (Zdigits2_bounds (Z.pos m2)) as [Hl2 _]; [lia|].
    assert (Hd2 : Zdigits2 (Z.pos m2) = 53) by lia. rewrite Hd2 in Hl2.
    assert (Hm1 : Z.pos m1 < 2 ^ 53).
    { eapply Z.lt_le_trans; [exact Hu1|]. apply Z.pow_le_mono_r; lia. }
    replace (e2 - -1074) with ((e1 - -1074) + 1 + (e2 - e1 - 1)) by lia.
    rewrite !Z.pow_add_r by lia. change (2 ^ 1) with 2.
    assert (0 < 2 ^ (e1 - -1074)) by (apply Z.pow_pos_nonneg; lia).
    assert (0 < 2 ^ (e2 - e1 - 1)) by (apply Z.pow_pos_nonneg; lia).
    change (2 ^ 53) with (2 * 2 ^ 52) in Hm1. change (53 - 1) with 52 in Hl2.
    set (A := 2 ^ (e1 - -1074)) in *. set (B := 2 ^ (e2 - e1 - 1)) in *.
    set (T := 2 ^ 52) in *.
    assert (S1 : Z.pos m1 * A <= 2 * Z.pos m2 * A) by nia.
    assert (S2 : 2 * Z.pos m2 * A * 1 <= 2 * Z.pos m2 * A * B)
      by (apply Z.mul_le_mono_nonneg_l; nia).
    lia.
Qed.

Lemma new_location_code den r :
  0 < den -> 0 <= r < den ->
  loc_code (new_location den r) =
  if r =? 0 then 0
  else match 2 * r ?= den with Lt => 1 | Eq => 2 | Gt => 3 end.
Proof.
  intros Hd Hr. unfold new_location.
  pose proof (Zmod_even den) as He.
  destruct (Z.even den).
  - unfold new_location_even. destruct (Z.eqb_spec r 0); [reflexivity|].
    cbn [loc_code]. destruct (2 * r ?= den); reflexivity.
  - unfold new_location_odd. destruct (Z.eqb_spec r 0); [reflexivity|].
    destruct (Z.compare_spec (2 * r + 1) den);
      destruct (Z.compare_spec (2 * r) den); cbn [loc_code]; try reflexivity;
      Z.div_mod_to_equations; lia.
Qed.

(** The truncated quotient with its two extra bits grows with the
    numerator. *)
Lemma quotient_code_mono den n1 n2 :
  0 < den -> n1 <= n2 ->
  4 * (n1 / den) + loc_code (new_location den (n1 mod den))
  <= 4 * (n2 / den) + loc_code (new_location den (n2 mod den)).
Proof.
  intros Hd Hn.
  pose proof (Z.mod_pos_bound n1 den Hd) as Hr1.
  pose proof (Z.mod_pos_bound n2 den Hd) as Hr2.
  rewrite !new_location_code by assumption.
  assert (Hq : n1 / den <= n2 / den) by (apply Z.div_le_mono; lia).
  destruct (Z.eq_dec (n1 / den) (n2 / den)) as [E|NE].
  - assert (Hr : n1 mod den <= n2 mod den) by (Z.div_mod_to_equations; nia).
    rewrite E.
    destruct (Z.eqb_spec (n1 mod den) 0); destruct (Z.eqb_spec (n2 mod den) 0);
      destruct (Z.compare_spec (2 * (n1 mod den)) den);
      destruct (Z.compare_spec (2 * (n2 mod den)) den); lia.
  - destruct (Z.eqb_spec (n1 mod den) 0); destruct (Z.eqb_spec (n2 mod den) 0);
      destruct (Z.compare_spec (2 * (n1 mod den)) den);
      destruct (Z.compare_spec (2 * (n2 mod den)) den); lia.
Qed.

Lemma of_decimal_side q nd :
  0 <= nd -> 0 <= q ->
  let den := 10 ^ nd in
  let num := q * 2 ^ (- emin) in
  0 <= num / den /\ emin <= rnd_exp (num / den) emin.
Proof.
  intros Hnd Hq den num.
  assert (0 < den) by (apply Z.pow_pos_nonneg; lia).
  assert (0 < 2 ^ (- emin)) by reflexivity.
  split; [apply Z.div_pos; unfold num; nia|apply rnd_exp_ge_emin].
Qed.

Lemma of_decimal_wf s q nd : 0 <= nd -> 0 <= q -> wf (of_decimal s q nd).
Proof.
  intros Hnd Hq. destruct (of_decimal_side q nd Hnd Hq) as [H1 H2].
  unfold of_decimal. apply rnd_wf; assumption.
Qed.

Lemma of_decimal_sign q nd :
  0 <= nd -> 0 <= q ->
  lex_le (0, 0, 0) (key (of_decimal false q nd))
  /\ lex_le (key (of_decimal true q nd)) (0, 0, 0).
Proof.
  intros Hnd Hq. destruct (of_decimal_side q nd Hnd Hq) as [H1 H2].
  unfold of_decimal. apply rnd_sign; assumption.
Qed.

Lemma of_decimal_mono q1 q2 nd :
  0 <= nd -> 0 <= q1 <= q2 ->
  lex_le (key (of_decimal false q1 nd)) (key (of_decimal false q2 nd))
  /\ lex_le (key (of_decimal true q2 nd)) (key (of_decimal true q1 nd)).
Proof.
  intros Hnd Hq. destruct (of_decimal_side q1 nd Hnd ltac:(lia)) as [H1 H2].
  unfold of_decimal. apply rnd_mono; try assumption.
  assert (0 < 2 ^ (- emin)) by reflexivity.
  apply quotient_code_mono; [apply Z.pow_pos_nonneg; lia|nia].
Qed.

Lemma decimal_digits_nonneg nd m e : 0 <= nd -> 0 <= decimal_digits nd m e.
Proof.
  intros Hnd. unfold decimal_digits.
  assert (0 < 10 ^ nd) by (apply Z.pow_pos_nonneg; lia).
  destruct (Z.leb_spec 0 e).
  - assert (0 < 2 ^ e) by (apply Z.pow_pos_nonneg; lia). nia.
  - assert (0 < 2 ^ (- e)) by (apply Z.pow_pos_nonneg; lia).
    pose proof (rhe_bounds (Z.pos m * 10 ^ nd) (2 ^ (- e))).
    assert (0 <= Z.pos m * 10 ^ nd / 2 ^ (- e)) by (apply Z.div_pos; nia). lia.
Qed.

Lemma decimal_digits_mono nd m1 e1 m2 e2 :
  0 <= nd -> canonical m1 e1 -> canonical m2 e2 ->
  lex_le (key (S754_finite false m1 e1)) (key (S754_finite false m2 e2)) ->
  decimal_digits nd m1 e1 <= decimal_digits nd m2 e2.
Proof.
  intros Hnd H1 H2 Hk.
  destruct (canonical_facts _ _ H1) as (_ & He1 & _).
  destruct (canonical_facts _ _ H2) as (_ & He2 & _).
  rewrite !decimal_digits_scaled by (unfold emin; cbn; lia).
  pose proof (scaled_mono m1 e1 m2 e2 H1 H2 Hk).
  assert (0 < 10 ^ nd) by (apply Z.pow_pos_nonneg; lia).
  apply rhe_mono; [reflexivity|nia].
Qed.

Lemma py_round_wf x nd : 0 <= nd -> wf x -> wf (py_round x nd).
Proof.
  intros Hnd Hx. destruct x as [s|s| |s m e]; cbn in *; auto.
  destruct (Z.eqb_spec (decimal_digits nd m e) 0); [exact I|].
  apply of_decimal_wf; auto using decimal_digits_nonneg.
Qed.

Lemma key_floor x : lex_le (-2, 0, 0) (key x) /\ lex_le (key x) (2, 0, 0).
Proof. destruct x as [s|[]| |[] m e]; cbn; lia. Qed.

(** Rounding to decimals keeps the sign. *)
Lemma py_round_sign x nd :
  0 <= nd ->
  (lex_le (0, 0, 0) (key x) -> lex_le (0, 0, 0) (key (py_round x nd)))
  /\ (lex_le (key x) (0, 0, 0) -> lex_le (key (py_round x nd)) (0, 0, 0)).
Proof.
  intros Hnd. destruct x as [s|[]| |[] m e]; cbn [py_round]; auto;
    try (cbn; lia);
    pose proof (decimal_digits_nonneg nd m e Hnd) as Hq;
    destruct (of_decimal_sign (decimal_digits nd m e) nd Hnd Hq) as [Sp Sn];
    destruct (Z.eqb_spec (decimal_digits nd m e) 0); cbn [key];
    split; intros K; auto; try (unfold lex_le in *; lia).
Qed.

(** [round] is monotone: it composes two correctly rounded
    conversions. *)
Theorem py_round_mono x y nd :
  0 <= nd -> wf x -> wf y ->
  lex_le (key x) (key y) ->
  lex_le (key (py_round x nd)) (key (py_round y nd)).
Proof.
  intros Hnd Hx Hy Hk.
  destruct (py_round_sign x nd Hnd) as [Xp Xn].
  destruct (py_round_sign y nd Hnd) as [Yp Yn].
  destruct x as [sx|[]| |[] mx ex]; cbn in Hx; try tauto;
  destruct y as [sy|[]| |[] my ey]; cbn in Hy; try tauto;
    try (cbn in Hk; exfalso; lia);
    try (cbn [py_round]; cbn [key]; apply key_floor);
    try (eapply lex_le_trans; [apply Xn; cbn; lia|apply Yp; cbn; lia]).
  - (* both negative *)
    cbn [py_round].
    assert (Hd : decimal_digits nd my ey <= decimal_digits nd mx ex).
    { apply decimal_digits_mono; auto. cbn in Hk |- *. lia. }
    pose proof (decimal_digits_nonneg nd my ey Hnd) as Hq.
    destruct (of_decimal_mono _ _ nd Hnd (conj Hq Hd)) as [_ Hm].
    destruct (of_decimal_sign (decimal_digits nd mx ex) nd Hnd ltac:(lia)) as [_ Sx].
    destruct (Z.eqb_spec (decimal_digits nd mx ex) 0);
      destruct (Z.eqb_spec (decimal_digits nd my ey) 0); cbn [key]; try lia; auto;
      apply lex_le_refl.
  - (* both positive *)
    cbn [py_round].
    assert (Hd : decimal_digits nd mx ex <= decimal_digits nd my ey).
    { apply decimal_digits_mono; auto. }
    pose proof (decimal_digits_nonneg nd mx ex Hnd) as Hq.
    destruct (of_decimal_mono _ _ nd Hnd (conj Hq Hd)) as [Hm _].
    destruct (of_decimal_sign (decimal_digits nd my ey) nd Hnd ltac:(lia)) as [Sy _].
    destruct (Z.eqb_spec (decimal_digits nd mx ex) 0);
      destruct (Z.eqb_spec (decimal_digits nd my ey) 0); cbn [key]; try lia; auto;
      apply lex_le_refl.
Qed.

(** ** [round] commutes with [max], up to [==] *)

Lemma lex_le_antisym a b : lex_le a b -> lex_le b a -> a = b.
Proof.
  destruct a as [[a1 a2] a3], b as [[b1 b2] b3]. unfold lex_le.
  intros H1 H2. f_equal; [f_equal|]; lia.
Qed.

Lemma lex_le_total a b : lex_le a b \/ lex_le b a.
Proof. destruct a as [[a1 a2] a3], b as [[b1 b2] b3]. unfold lex_le. lia. Qed.

Lemma is_lex_max_unique K K' ka kb :
  is_lex_max K ka kb -> is_lex_max K' ka kb -> K = K'.
Proof.
  intros [[L1 ->]|[L1 ->]] [[L2 ->]|[L2 ->]]; auto using lex_le_antisym.
Qed.

Lemma py_max2_is_max a b :
  wf a -> wf b -> is_lex_max (key (py_max2 a b)) (key a) (key b).
Proof.
  intros Ha Hb. destruct (py_max2_key a b Ha Hb) as [K1 K2].
  destruct (py_max2_cases a b) as [E|E]; rewrite E in *; [left|right]; auto.
Qed.

Lemma py_round_max2 a b nd :
  0 <= nd -> wf a -> wf b ->
  key (py_round (py_max2 a b) nd) = key (py_max2 (py_round a nd) (py_round b nd)).
Proof.
  intros Hnd Ha Hb.
  apply (is_lex_max_unique _ _ (key (py_round a nd)) (key (py_round b nd))).
  - destruct (py_max2_key a b Ha Hb) as [K1 K2].
    destruct (py_max2_cases a b) as [E|E]; rewrite E in *; [left|right];
      split; auto using py_round_mono.
  - apply py_max2_is_max; auto using py_round_wf.
Qed.

Lemma py_max2_key_congr a a' b :
  wf a -> wf a' -> wf b -> key a = key a' ->
  key (py_max2 a b) = key (py_max2 a' b).
Proof.
  intros Ha Ha' Hb E.
  apply (is_lex_max_unique _ _ (key a) (key b)).
  - apply py_max2_is_max; auto.
  - rewrite E. apply py_max2_is_max; auto.
Qed.

Lemma py_round_max3 a b c nd :
  0 <= nd -> wf a -> wf b -> wf c ->
  key (py_round (py_max3 a b c) nd)
  = key (py_max3 (py_round a nd) (py_round b nd) (py_round c nd)).
Proof.
  intros Hnd Ha Hb Hc. unfold py_max3.
  rewrite py_round_max2 by auto using py_max2_wf.
  apply py_max2_key_congr; auto using py_round_wf, py_max2_wf, py_round_max2.
Qed.

Lemma eqb_of_key x y : wf x -> wf y -> key x = key y -> SFeqb x y = true.
Proof. intros Hx Hy E. apply eqb_key; auto using wf_not_nan. Qed.

Lemma leb_of_key x y : wf x -> wf y -> lex_le (key x) (key y) -> SFleb x y = true.
Proof. intros Hx Hy E. apply leb_key; auto using wf_not_nan. Qed.
(** ** Division is monotone in its dividend *)

(** The code of a truncated quotient at a finer exponent squashes to its
    code at a coarser one: one doubling of the dividend first. *)
Lemma quotient_code_double a b :
  0 <= a -> 0 < b ->
  squash 2 (4 * ((2 * a) / b) + loc_code (new_location b ((2 * a) mod b)))
  = 4 * (a / b) + loc_code (new_location b (a mod b)).
Proof.
  intros Ha Hb.
  pose proof (Z.mod_pos_bound a b Hb) as Hr.
  pose proof (Z.mod_pos_bound (2 * a) b Hb) as Hr2.
  rewrite !new_location_code by assumption.
  pose proof (Z.div_mod a b ltac:(lia)) as Ea.
  pose proof (Z.div_mod (2 * a) b ltac:(lia)) as E2.
  set (q := a / b) in *. set (r := a mod b) in *.
  set (Q := (2 * a) / b) in *. set (R := (2 * a) mod b) in *.
  assert (HQ : (Q = 2 * q /\ R = 2 * r) \/ (Q = 2 * q + 1 /\ R = 2 * r - b)).
  { destruct (Z.lt_ge_cases (2 * r) b) as [L|L].
    - left. apply (Z.div_mod_unique b); [left; lia|left; lia|lia].
    - right. apply (Z.div_mod_unique b); [left; lia|left; lia|lia]. }
  unfold squash. change (2 ^ 2) with 4.
  set (c := if R =? 0 then 0 else match 2 * R ?= b with Lt => 1 | Eq => 2 | Gt => 3 end).
  assert (Hc : 0 <= c <= 3 /\ (c = 0 <-> R = 0)).
  { unfold c. destruct (Z.eqb_spec R 0); [lia|].
    destruct (2 * R ?= b); lia. }
  assert (D1 : (4 * Q + c) / 4 = Q) by (Z.div_mod_to_equations; lia).
  assert (D2 : (4 * Q + c) mod 4 = c) by (Z.div_mod_to_equations; lia).
  rewrite D1, D2.
  destruct (Z.eqb_spec c 0); destruct (Z.eqb_spec r 0);
    destruct (Z.compare_spec (2 * r) b); lia.
Qed.

Lemma quotient_code_refine k : forall a b,
  0 <= k -> 0 <= a -> 0 < b ->
  squash (k + 1)
    (4 * ((a * 2 ^ k) / b) + loc_code (new_location b ((a * 2 ^ k) mod b)))
  = 4 * (a / b) + loc_code (new_location b (a mod b)).
Proof.
  intros a b Hk. revert a. pattern k. apply natlike_ind; [| |exact Hk].
  - intros a Ha Hb. rewrite Z.pow_0_r, Z.mul_1_r. apply squash_1.
  - clear k Hk. intros k Hk IH a Ha Hb.
    replace (Z.succ k + 1) with ((k + 1) + 2 - 1) by lia.
    rewrite <- squash_squash by lia.
    rewrite Z.pow_succ_r by lia.
    replace (a * (2 * 2 ^ k)) with (2 * (a * 2 ^ k)) by lia.
    assert (0 < 2 ^ k) by (apply Z.pow_pos_nonneg; lia).
    rewrite quotient_code_double by nia.
    apply IH; assumption.
Qed.

Lemma Zdigits2_of_div Q q k :
  0 <= k -> 0 < q -> Q / 2 ^ k = q -> Zdigits2 Q = Zdigits2 q + k.
Proof.
  intros Hk Hq E. assert (HB : 0 < 2 ^ k) by (apply Z.pow_pos_nonneg; lia).
  destruct (Zdigits2_bounds q Hq) as [Hl Hu].
  assert (Hd1 : 1 <= Zdigits2 q) by (destruct q; try lia; cbn; lia).
  pose proof (Z.div_mod Q (2 ^ k) ltac:(lia)) as Ed.
  pose proof (Z.mod_pos_bound Q (2 ^ k) HB) as Hm. rewrite E in Ed.
  apply Zdigits2_unique; [nia|].
  replace (Zdigits2 q + k - 1) with (Zdigits2 q - 1 + k) by lia.
  rewrite !Z.pow_add_r by lia. nia.
Qed.

(** Rounding does not depend on the exponent the quotient is truncated
    at, as long as that exponent is fine enough. *)
Lemma rnd_quotient_refine s a b e k :
  0 <= k -> 0 <= a -> 0 < b ->
  e <= rnd_exp (a / b) e ->
  rnd s ((a * 2 ^ k) / b) (e - k) (new_location b ((a * 2 ^ k) mod b))
  = rnd s (a / b) e (new_location b (a mod b))
  /\ e - k <= rnd_exp ((a * 2 ^ k) / b) (e - k).
Proof.
  intros Hk Ha Hb HP.
  assert (HB : 0 < 2 ^ k) by (apply Z.pow_pos_nonneg; lia).
  set (q := a / b) in *. set (Q := (a * 2 ^ k) / b).
  assert (Hq : 0 <= q) by (apply Z.div_pos; lia).
  assert (HQ : 0 <= Q) by (apply Z.div_pos; nia).
  assert (EQ : Q / 2 ^ k = q).
  { unfold Q, q. rewrite Z.div_div by lia. apply Z.div_mul_cancel_r; lia. }
  assert (EE : rnd_exp Q (e - k) = rnd_exp q e).
  { unfold rnd_exp in *. destruct (Z.eq_dec q 0) as [E0|N0].
    - rewrite E0 in *. cbn [Zdigits2] in *. rewrite fexp_eq in *.
      assert (Hd : Zdigits2 Q <= k).
      { apply Zdigits2_le; [lia|]. split; [lia|].
        pose proof (Z.div_mod Q (2 ^ k) ltac:(lia)) as Ed.
        pose proof (Z.mod_pos_bound Q (2 ^ k) HB). nia. }
      pose proof (Zdigits2_nonneg Q). rewrite ?fexp_eq. lia.
    - rewrite (Zdigits2_of_div Q q k) by lia. f_equal. lia. }
  split; [|lia].
  rewrite !rnd_closed by (auto; lia).
  rewrite EE. f_equal. unfold rnd_mant. rewrite EE. f_equal.
  replace (rnd_exp q e - (e - k) + 1) with ((rnd_exp q e - e + 1) + (k + 1) - 1) by lia.
  rewrite <- squash_squash by lia. f_equal.
  apply quotient_code_refine; lia.
Qed.

(** The quotient of two finite floats, truncated at a chosen fine
    exponent. *)
Lemma div_finite_at sx mx ex mc ec e0 :
  canonical mx ex -> canonical mc ec ->
  e0 <= ex - ec - 53 - 53 -> e0 <= -1074 - 53 ->
  let a := Z.pos mx * 2 ^ (ex - ec - e0) in
  SFdiv prec emax (S754_finite sx mx ex) (S754_finite false mc ec)
  = rnd sx (a / Z.pos mc) e0 (new_location (Z.pos mc) (a mod Z.pos mc))
  /\ e0 <= rnd_exp (a / Z.pos mc) e0.
Proof.
  intros Hx Hc H0 H1 a.
  destruct (canonical_facts _ _ Hx) as (_ & Hex & Hdx & _).
  destruct (canonical_facts _ _ Hc) as (_ & Hec & Hdc & _).
  assert (H1x : 1 <= Zdigits2 (Z.pos mx)) by (simpl; lia).
  assert (H1c : 1 <= Zdigits2 (Z.pos mc)) by (simpl; lia).
  pose proof (div_core_facts mx ex mc ec Hx Hc) as Hcore.
  cbn [SFdiv]. unfold SFdiv_core_binary in *.
  fold (fexp (Zdigits2 (Z.pos mx) + ex - (Zdigits2 (Z.pos mc) + ec))) in *.
  set (e' := Z.min (fexp (Zdigits2 (Z.pos mx) + ex - (Zdigits2 (Z.pos mc) + ec)))
               (ex - ec)) in *.
  assert (Hs : 0 <= ex - ec - e') by (unfold e'; lia).
  assert (He0 : e0 <= e') by (unfold e'; rewrite fexp_eq; lia).
  rewrite shift_case in * by exact Hs.
  change IntDef.Z.div_eucl with Z.div_eucl in *. rewrite div_eucl_eq in *.
  destruct Hcore as [Hq HP]. rewrite xorb_false_r.
  set (a' := Z.pos mx * 2 ^ (ex - ec - e')) in *.
  assert (HS : 0 < 2 ^ (ex - ec - e')) by (apply Z.pow_pos_nonneg; lia).
  assert (Ha' : 0 <= a') by (unfold a'; nia).
  destruct (rnd_quotient_refine sx a' (Z.pos mc) e' (e' - e0)
              ltac:(lia) Ha' ltac:(lia) HP) as [E P].
  replace (e' - (e' - e0)) with e0 in * by lia.
  assert (Ea : a' * 2 ^ (e' - e0) = a).
  { unfold a', a. rewrite <- Z.mul_assoc, <- Z.pow_add_r by lia. do 2 f_equal. lia. }
  rewrite Ea in *. split; [symmetry; exact E|exact P].
Qed.

Lemma div_sign x c :
  wf x -> fin_pos c ->
  wf (SFdiv prec emax x c)
  /\ (lex_le (0, 0, 0) (key x) -> lex_le (0, 0, 0) (key (SFdiv prec emax x c)))
  /\ (lex_le (key x) (0, 0, 0) -> lex_le (key (SFdiv prec emax x c)) (0, 0, 0)).
Proof.
  intros Hx Hc.
  destruct x as [sx|[]| |sx mx ex], c as [| | |[] mc ec]; cbn in Hx, Hc;
    try contradiction; try (cbn; repeat split; intros; lia).
  cbn [SFdiv]. pose proof (div_core_facts mx ex mc ec Hx Hc) as H.
  destruct (SFdiv_core_binary prec emax (Z.pos mx) ex (Z.pos mc) ec) as [[q e'] l].
  destruct H as [Hq HP]. rewrite xorb_false_r.
  split; [apply rnd_wf; assumption|].
  destruct (rnd_sign q e' l Hq HP) as [Sp Sn].
  destruct sx; cbn [key]; split; intros K; auto; unfold lex_le in K; lia.
Qed.

Theorem div_mono x y c :
  wf x -> wf y -> fin_pos c ->
  lex_le (key x) (key y) ->
  lex_le (key (SFdiv prec emax x c)) (key (SFdiv prec emax y c)).
Proof.
  intros Hx Hy Hc Hk.
  destruct (div_sign x c Hx Hc) as (_ & Xp & Xn).
  destruct (div_sign y c Hy Hc) as (_ & Yp & Yn).
  destruct x as [sx|[]| |[] mx ex]; cbn in Hx; try contradiction;
  destruct y as [sy|[]| |[] my ey]; cbn in Hy; try contradiction;
    try (cbn in Hk; exfalso; lia);
    try (eapply lex_le_trans; [apply Xn; cbn; lia|apply Yp; cbn; lia]);
    try (destruct c as [| | |[] mc ec]; cbn in Hc; try contradiction;
         cbn [SFdiv xorb key]; apply key_floor);
    try apply lex_le_refl.
  - (* both negative *)
    destruct c as [| | |[] mc ec]; cbn in Hc; try contradiction.
    destruct (canonical_facts _ _ Hx) as (_ & Hex & _).
    destruct (canonical_facts _ _ Hy) as (_ & Hey & _).
    destruct (canonical_facts _ _ Hc) as (_ & Hec & _).
    set (e0 := -1074 - 971 - 53 - 53 - 53).
    destruct (div_finite_at true mx ex mc ec e0 Hx Hc) as [Ex Px]; try (unfold e0; lia).
    destruct (div_finite_at true my ey mc ec e0 Hy Hc) as [Ey Py]; try (unfold e0; lia).
    rewrite Ex, Ey.
    assert (Hs : scaled my ey <= scaled mx ex).
    { apply scaled_mono; auto. cbn in Hk |- *. lia. }
    unfold scaled, emin in Hs. change (SpecFloat.emin prec emax) with (-1074) in Hs.
    assert (Hn : Z.pos my * 2 ^ (ey - ec - e0) <= Z.pos mx * 2 ^ (ex - ec - e0)).
    { replace (ey - ec - e0) with ((ey - -1074) + (-1074 - ec - e0)) by lia.
      replace (ex - ec - e0) with ((ex - -1074) + (-1074 - ec - e0)) by lia.
      rewrite !Z.pow_add_r by (unfold e0; lia).
      assert (0 < 2 ^ (-1074 - ec - e0)) by (apply Z.pow_pos_nonneg; unfold e0; lia).
      nia. }
    apply rnd_mono; [apply Z.div_pos; [|lia]|exact Py|].
    + assert (0 < 2 ^ (ey - ec - e0)) by (apply Z.pow_pos_nonneg; unfold e0; lia). nia.
    + apply quotient_code_mono; [lia|exact Hn].
  - (* both positive *)
    destruct c as [| | |[] mc ec]; cbn in Hc; try contradiction.
    destruct (canonical_facts _ _ Hx) as (_ & Hex & _).
    destruct (canonical_facts _ _ Hy) as (_ & Hey & _).
    destruct (canonical_facts _ _ Hc) as (_ & Hec & _).
    set (e0 := -1074 - 971 - 53 - 53 - 53).
    destruct (div_finite_at false mx ex mc ec e0 Hx Hc) as [Ex Px]; try (unfold e0; lia).
    destruct (div_finite_at false my ey mc ec e0 Hy Hc) as [Ey Py]; try (unfold e0; lia).
    rewrite Ex, Ey.
    assert (Hs : scaled mx ex <= scaled my ey) by (apply scaled_mono; auto).
    unfold scaled, emin in Hs. change (SpecFloat.emin prec emax) with (-1074) in Hs.
    assert (Hn : Z.pos mx * 2 ^ (ex - ec - e0) <= Z.pos my * 2 ^ (ey - ec - e0)).
    { replace (ey - ec - e0) with ((ey - -1074) + (-1074 - ec - e0)) by lia.
      replace (ex - ec - e0) with ((ex - -1074) + (-1074 - ec - e0)) by lia.
      rewrite !Z.pow_add_r by (unfold e0; lia).
      assert (0 < 2 ^ (-1074 - ec - e0)) by (apply Z.pow_pos_nonneg; unfold e0; lia).
      nia. }
    apply rnd_mono; [apply Z.div_pos; [|lia]|exact Px|].
    + assert (0 < 2 ^ (ex - ec - e0)) by (apply Z.pow_pos_nonneg; unfold e0; lia). nia.
    + apply quotient_code_mono; [lia|exact Hn].
Qed.

(** * The model on known values *)

(** Values of the Python expressions named in the comments, as CPython
    prints them with [float.hex]. *)

Example lit_13_6_bits :
  B64.lit 136 1 = S754_finite false 7656119366529843 (-49).
Proof. vm_compute. reflexivity. Qed.

Example lit_is_correctly_rounded_quotient :
  B64.lit 136 1 = B64.div (B64.of_Z 136) (B64.of_Z 10)
  /\ B64.lit 3048 1 = B64.div (B64.of_Z 3048) (B64.of_Z 10).
Proof. split; vm_compute; reflexivity. Qed.

(** [0.1 + 0.2 == 0.3] is [False], [0.1 + 0.2 == 0.30000000000000004]. *)
Example add_tenth_two_tenths :
  B64.eqb (B64.add (B64.lit 1 1) (B64.lit 2 1)) (B64.lit 3 1) = false
  /\ B64.add (B64.lit 1 1) (B64.lit 2 1) = B64.lit 30000000000000004 17.
Proof. split; vm_compute; reflexivity. Qed.

(** [float(2**53 + 1) == float(2**53)]: the conversion rounds to even. *)
Example of_Z_rounds : B64.of_Z (2 ^ 53 + 1) = B64.of_Z (2 ^ 53).
Proof. vm_compute. reflexivity. Qed.

(** [round(0.125, 2) == 0.12] (an exact tie goes to the even digit),
    [round(2.675, 2) == 2.67] (the float is below the decimal tie),
    [round(250.25, 1) == 250.2], [round(-0.04, 1) == -0.0]. *)
Example py_round_values :
  py_round (B64.lit 125 3) 2 = B64.lit 12 2
  /\ py_round (B64.lit 2675 3) 2 = B64.lit 267 2
  /\ py_round (B64.lit 25025 2) 1 = B64.lit 2502 1
  /\ py_round (B64.opp (B64.lit 4 2)) 1 = S754_zero true.
Proof. repeat split; vm_compute; reflexivity. Qed.

(** [math.ceil(7416.0 / 300) == 25], [math.ceil(-0.5) == 0],
    [math.ceil(float("inf"))] raises OverflowError. *)
Example py_ceil_values :
  py_ceil (B64.div (B64.lit 7416 0) (B64.lit 300 0)) = inr 25
  /\ py_ceil (B64.opp (B64.lit 5 1)) = inr 0
  /\ py_ceil (S754_infinity false) = inl OverflowError.
Proof. repeat split; vm_compute; reflexivity. Qed.

(** [max(1.0, 2.0, 1.5) == 2.0], and [max] keeps its first argument
    against an equal one: [max(0.0, -0.0)] is [0.0], [max(-0.0, 0.0)] is
    [-0.0]. *)
Example py_max_values :
  py_max3 (B64.lit 1 0) (B64.lit 2 0) (B64.lit 15 1) = B64.lit 2 0
  /\ py_max2 (S754_zero false) (S754_zero true) = S754_zero false
  /\ py_max2 (S754_zero true) (S754_zero false) = S754_zero true.
Proof. repeat split; vm_compute; reflexivity. Qed.
(** * Facts about [calc_for_bar] *)

(** ** The literals of the source text *)

Lemma literals_denote :
  lit_1e_9 = lit 1 9 /\ lit_12_0 = lit 120 1 /\ lit_2_0 = lit 20 1
  /\ lit_40_0 = lit 400 1 /\ lit_16_0 = lit 160 1 /\ lit_1000_0 = lit 10000 1
  /\ lit_0_3 = lit 3 1 /\ lit_25_4 = lit 254 1 /\ lit_304_8 = lit 3048 1.
Proof. vm_compute. repeat split. Qed.

Lemma lit_1e_9_pos : fin_pos lit_1e_9.
Proof. reflexivity. Qed.
Lemma lit_12_pos : fin_pos lit_12_0.
Proof. reflexivity. Qed.
Lemma lit_2_pos : fin_pos lit_2_0.
Proof. reflexivity. Qed.
Lemma lit_40_pos : fin_pos lit_40_0.
Proof. reflexivity. Qed.
Lemma lit_16_pos : fin_pos lit_16_0.
Proof. reflexivity. Qed.
Lemma lit_1000_pos : fin_pos lit_1000_0.
Proof. reflexivity. Qed.
Lemma lit_03_pos : fin_pos lit_0_3.
Proof. reflexivity. Qed.
Lemma lit_3048_pos : fin_pos lit_304_8.
Proof. reflexivity. Qed.

Create HintDb lits.
#[local] Hint Resolve lit_1e_9_pos lit_12_pos lit_2_pos lit_40_pos lit_16_pos
  lit_1000_pos lit_03_pos lit_3048_pos : lits.
#[local] Hint Resolve fin_pos_nonneg fin_nonneg_nonneg nonneg_above above_wf : lits.

(** ** Division by a positive finite value *)

Lemma div_wf x y : wf x -> fin_pos y -> wf (SFdiv prec emax x y).
Proof.
  intros Hx Hy.
  destruct x as [sx|sx| |sx mx ex], y as [sy| | |[] my ey]; cbn in Hx, Hy; try tauto;
    try exact I.
  cbn [SFdiv]. pose proof (div_core_facts mx ex my ey Hx Hy) as H.
  destruct (SFdiv_core_binary prec emax (Z.pos mx) ex (Z.pos my) ey) as [[q e'] l].
  destruct H as [Hq HP]. apply rnd_wf; assumption.
Qed.

Lemma py_truediv_pos x c : fin_pos c -> py_truediv x c = ret (B64.div x c).
Proof.
  intros Hc. unfold py_truediv.
  destruct c as [| | |[] m e]; cbn in Hc; try contradiction; reflexivity.
Qed.

Lemma py_truediv_inv x c q :
  py_truediv x c = inr q -> q = B64.div x c /\ B64.eqb c B64.zero = false.
Proof.
  unfold py_truediv. destruct (B64.eqb c B64.zero); [discriminate|].
  intros E. inversion E. auto.
Qed.

(** ** The body of [calc_for_bar] through its local variables *)

Lemma call_calc_eq G i b :
  constants_ok G ->
  call_calc G i b =
  let* n := n_bars i b in
  let* sp := spacing_in i n in
  ret (row_of i b n sp).
Proof.
  intros HG.
  unfold call_calc, calc_for_bar, n_bars, spacing_in, row_of, governing_ft,
    L_req_ft, L_03ln_ft, L_req_mm, L_03ln_mm, base_mm, l_add_mm, l_span_mm,
    l_db_mm, d_effective_mm.
  rewrite HG.
  rewrite !(py_truediv_pos _ lit_2_0) by exact lit_2_pos.
  rewrite !(py_truediv_pos _ lit_16_0) by exact lit_16_pos.
  rewrite !(py_truediv_pos _ lit_304_8) by exact lit_3048_pos.
  reflexivity.
Qed.

Lemma call_calc_inv G i b r :
  constants_ok G -> call_calc G i b = inr r ->
  exists n sp, n_bars i b = inr n /\ spacing_in i n = inr sp /\ r = row_of i b n sp.
Proof.
  intros HG H. rewrite call_calc_eq in H by assumption.
  destruct (n_bars i b) as [e|n] eqn:En; cbn [bind] in H; [discriminate H|].
  destruct (spacing_in i n) as [e|sp] eqn:Es; cbn [bind] in H; [discriminate H|].
  unfold ret in H. injection H as <-.
  exists n, sp. repeat split. exact Es.
Qed.

(** ** The classes of the local variables *)

Section Locals.

Variables (i : Inputs) (b : BarSpec).
Hypothesis Hok : inputs_ok i b.

Let HA : fin_nonneg (A_s i). Proof. apply Hok. Qed.
Let HLw : fin_nonneg (L_wall_ft i). Proof. apply Hok. Qed.
Let Htw : fin_nonneg (t_wall_mm i). Proof. apply Hok. Qed.
Let Hdc : fin_nonneg (d_c_mm i). Proof. apply Hok. Qed.
Let Hli : fin_nonneg (l_inf_m i). Proof. apply Hok. Qed.
Let HLs : fin_nonneg (L_s_mm i). Proof. apply Hok. Qed.
Let Hts : fin_nonneg (t_slab_mm i). Proof. apply Hok. Qed.
Let Hdia : fin_nonneg (dia b). Proof. apply Hok. Qed.
Let Harea : fin_nonneg (area b). Proof. apply Hok. Qed.
Let Hhook : fin_nonneg (hook b). Proof. apply Hok. Qed.

Lemma fin_nonneg_not_inf x s : fin_nonneg x -> x <> S754_infinity s.
Proof. destruct x as [| | |[]]; cbn; try tauto; discriminate. Qed.

Lemma fin_pos_not_inf x s : fin_pos x -> x <> S754_infinity s.
Proof. destruct x as [| | |[]]; cbn; try tauto; discriminate. Qed.

Lemma d_effective_wf : wf (d_effective_mm i b).
Proof.
  unfold d_effective_mm, B64.sub, B64.div.
  apply sub_wf.
  - apply sub_wf.
    + auto with lits.
    + apply above_wf, nonneg_above, div_nonneg; auto with lits.
    + intros s E. exfalso. exact (fin_nonneg_not_inf _ s Hts E).
  - auto with lits.
  - intros s _. apply fin_pos_not_inf. exact lit_40_pos.
Qed.

Lemma l_db_nonneg : nonneg (l_db_mm b).
Proof. unfold l_db_mm, B64.mul. apply mul_nonneg; auto with lits. Qed.

Lemma l_span_nonneg : nonneg (l_span_mm i).
Proof. unfold l_span_mm, B64.div. apply div_nonneg; auto with lits. Qed.

Lemma l_add_wf : wf (l_add_mm i b).
Proof.
  unfold l_add_mm. apply py_max3_wf; auto using d_effective_wf with lits.
  - apply above_wf, nonneg_above, l_db_nonneg.
  - apply above_wf, nonneg_above, l_span_nonneg.
Qed.

Lemma nonneg_key_iff x : wf x -> (nonneg x <-> lex_le (0, 0, 0) (key x)).
Proof.
  destruct x as [s|[]| |[] m e]; cbn; intros H; split; try tauto;
    unfold lex_le; try lia; intros; auto.
Qed.

Lemma l_add_nonneg : nonneg (l_add_mm i b).
Proof.
  apply nonneg_key_iff; [apply l_add_wf|].
  pose proof l_db_nonneg as Hn.
  assert (Hw : wf (l_db_mm b)) by auto with lits.
  destruct (py_max3_key (d_effective_mm i b) (l_db_mm b) (l_span_mm i)) as (_ & K & _);
    auto using d_effective_wf with lits.
  { apply above_wf, nonneg_above, l_span_nonneg. }
  eapply lex_le_trans; [|exact K]. apply nonneg_key_iff; assumption.
Qed.

Lemma base_above : above_ninf (base_mm i b).
Proof.
  unfold base_mm, B64.sub, B64.add, B64.mul.
  apply sub_above; auto.
  repeat apply add_nonneg; auto with lits.
  apply mul_nonneg; auto with lits.
Qed.

Lemma L_req_mm_above :
  above_ninf (L_req_mm i b) /\ SFleb (base_mm i b) (L_req_mm i b) = true.
Proof. unfold L_req_mm, B64.add. apply add_ge; auto using base_above, l_add_nonneg. Qed.

Lemma L_03ln_mm_above : above_ninf (L_03ln_mm i b).
Proof.
  unfold L_03ln_mm, B64.sub, B64.add, B64.mul.
  apply sub_above; auto.
  repeat apply add_nonneg; auto with lits.
  apply mul_nonneg; auto with lits.
Qed.

Lemma L_req_ft_wf : wf (L_req_ft i b).
Proof.
  unfold L_req_ft, B64.div. apply div_wf; auto with lits.
  apply above_wf, L_req_mm_above.
Qed.

Lemma L_03ln_ft_wf : wf (L_03ln_ft i b).
Proof.
  unfold L_03ln_ft, B64.div. apply div_wf; auto with lits.
  apply above_wf, L_03ln_mm_above.
Qed.

Lemma governing_ft_wf : wf (governing_ft i b).
Proof. unfold governing_ft. apply py_max2_wf; auto using L_req_ft_wf, L_03ln_ft_wf. Qed.

End Locals.

(** ** The bar count *)

Lemma max_floor_pos a : fin_nonneg a -> fin_pos (py_max2 a lit_1e_9).
Proof.
  intros Ha. unfold py_max2, py_gt, B64.ltb.
  destruct a as [s| | |[] m e]; cbn in Ha; try contradiction.
  - reflexivity.
  - destruct (SFltb (S754_finite false m e) lit_1e_9); [reflexivity|exact Ha].
Qed.

Lemma bar_quotient_nonneg i b :
  fin_nonneg (A_s i) -> fin_nonneg (area b) -> nonneg (bar_quotient i b).
Proof.
  intros HA Ha. unfold bar_quotient, B64.div.
  apply div_nonneg; auto using max_floor_pos with lits.
Qed.

Lemma n_bars_eq i b :
  fin_nonneg (area b) ->
  n_bars i b =
  if py_gt (A_s i) B64.zero then py_ceil (bar_quotient i b) else ret 0.
Proof.
  intros Ha. unfold n_bars, bar_quotient.
  rewrite py_truediv_pos by auto using max_floor_pos. reflexivity.
Qed.

(** [math.ceil] returns the least integer that is not below its
    argument, read as an exact rational. *)
Lemma py_ceil_spec x n :
  py_ceil x = inr n ->
  B64.is_finite x = true
  /\ (inject_Z n - 1 < to_Q x)%Q /\ (to_Q x <= inject_Z n)%Q.
Proof.
  destruct x as [s|s| |s m e]; cbn [py_ceil]; try discriminate.
  - intros E. inversion E. subst n. cbn. split; [reflexivity|].
    split; [reflexivity|]. apply Qle_refl.
  - intros E. unfold ret in E. injection E as <-. split; [reflexivity|].
    cbn [to_Q]. set (v := if s then Z.neg m else Z.pos m).
    destruct (Z.leb_spec 0 e) as [He|He].
    + unfold Qlt, Qle, Qminus, Qplus, Qopp, inject_Z. cbn [Qnum Qden]. lia.
    + assert (HD : 0 < 2 ^ (- e)) by (apply Z.pow_pos_nonneg; lia).
      unfold Qlt, Qle, Qminus, Qplus, Qopp, inject_Z. cbn [Qnum Qden].
      rewrite Z2Pos.id by exact HD.
      set (D := 2 ^ (- e)) in *.
      pose proof (Z.div_mod (- v) D ltac:(lia)) as Hdm.
      pose proof (Z.mod_pos_bound (- v) D HD) as Hmod.
      split; nia.
Qed.

Lemma py_ceil_nonneg x n : nonneg x -> py_ceil x = inr n -> 0 <= n.
Proof.
  destruct x as [s|[]| |s m e]; unfold nonneg; try contradiction;
    unfold py_ceil, ret, raise; try discriminate; intros Hs E; injection E as <-;
    [lia|].
  destruct s; [contradiction|]. cbv iota.
  destruct (Z.leb_spec 0 e).
  - assert (0 < 2 ^ e) by (apply Z.pow_pos_nonneg; lia). nia.
  - assert (HD : 0 < 2 ^ (- e)) by (apply Z.pow_pos_nonneg; lia).
    assert (- Z.pos m / 2 ^ (- e) <= 0); [|lia].
    apply Z.div_le_upper_bound; lia.
Qed.

(** ** The spacing *)

Lemma pack_nonzero s M E : M <> 0 -> forall z, pack s M E <> S754_zero z.
Proof.
  intros HM z. unfold pack. destruct (Z.eqb_spec M 0); [contradiction|].
  destruct (M <? 2 ^ 53); [destruct (E <=? 971)|destruct (E + 1 <=? 971)];
    discriminate.
Qed.

(** A positive integer converts to a positive float or overflows. *)
Lemma of_Z_pos n :
  0 < n -> B64.of_Z n = S754_infinity false \/ fin_pos (B64.of_Z n).
Proof.
  intros Hn. unfold B64.of_Z.
  destruct (normalize_rnd n 0 false ltac:(lia)) as (E & HP & Hk).
  set (k := norm_shift (Z.abs n) 0) in *.
  rewrite Z.abs_eq in * by lia.
  destruct (Z.ltb_spec n 0); [lia|].
  assert (HB : 0 < 2 ^ k) by (apply Z.pow_pos_nonneg; lia).
  assert (Hm : 0 <= n * 2 ^ k) by nia.
  pose proof (rnd_nonneg _ _ loc_Exact Hm HP) as Hnn.
  assert (Hnz : forall z, rnd false (n * 2 ^ k) (0 - k) loc_Exact <> S754_zero z).
  { rewrite rnd_closed by assumption. apply pack_nonzero.
    destruct (rnd_mant_bounds _ _ loc_Exact Hm HP) as (_ & _ & Hlow).
    assert (2 ^ 52 <= rnd_mant (n * 2 ^ k) (0 - k) loc_Exact); [|lia].
    apply Hlow. unfold rnd_exp, emin. change (SpecFloat.emin prec emax) with (-1074).
    rewrite Zdigits2_shift by lia. rewrite fexp_eq.
    assert (1 <= Zdigits2 n) by (destruct n; try lia; cbn; lia). lia. }
  rewrite E.
  destruct (rnd false (n * 2 ^ k) (0 - k) loc_Exact) as [z|[]| |[] m e];
    cbn in Hnn; try contradiction; auto.
  exfalso. apply (Hnz z). reflexivity.
Qed.

Lemma spacing_in_inv i n sp :
  fin_nonneg (L_wall_ft i) -> spacing_in i n = inr sp ->
  (n < 2 /\ sp = B64.nan)
  \/ (2 <= n /\ nonneg sp
      /\ sp = B64.div (B64.mul (L_wall_ft i) lit_12_0) (B64.of_Z (n - 1))).
Proof.
  intros HL. unfold spacing_in.
  destruct (Z.leb_spec 2 n) as [Hn|Hn].
  - intros H. right. split; [exact Hn|].
    unfold py_float_of_int in H.
    destruct (of_Z_pos (n - 1) ltac:(lia)) as [Ei|Hp].
    + rewrite Ei in H. discriminate H.
    + destruct (B64.of_Z (n - 1)) as [| | |[] m e] eqn:Ek; cbn in Hp;
        try contradiction.
      cbn [bind ret] in H.
      rewrite py_truediv_pos in H by exact Hp.
      unfold ret in H. injection H as <-. split; [|reflexivity].
      unfold B64.div, B64.mul. apply div_nonneg; [|exact Hp].
      apply mul_nonneg; auto with lits.
  - intros H. left. unfold ret in H. injection H as <-. auto.
Qed.

(** ** The sign of a depth rounded to one decimal *)

Lemma ltb_zero_key x : wf x -> (SFltb x B64.zero = true <-> lex_lt (key x) (0, 0, 0)).
Proof. intros Hx. apply (ltb_key x B64.zero); auto using wf_not_nan. Qed.

Lemma round1_negative d :
  wf d ->
  (B64.ltb (py_round d 1) B64.zero = true -> B64.ltb d B64.zero = true)
  /\ (B64.leb d (B64.opp lit_0_05) = true ->
      B64.ltb (py_round d 1) B64.zero = true).
Proof.
  intros Hd. unfold B64.ltb, B64.leb.
  pose proof (py_round_wf d 1 ltac:(lia) Hd) as Hr.
  destruct (py_round_sign d 1 ltac:(lia)) as [Sp Sn].
  split.
  - intros H. apply ltb_zero_key in H; [|exact Hr]. apply ltb_zero_key; [exact Hd|].
    destruct (lex_le_total (0, 0, 0) (key d)) as [L|L].
    + specialize (Sp L). destruct (key (py_round d 1)) as [[a1 a2] a3].
      unfold lex_lt, lex_le in *. lia.
    + destruct (key d) as [[a1 a2] a3]; destruct (key (py_round d 1)) as [[b1 b2] b3].
      destruct (Z.eq_dec a1 0) as [->|]; [|unfold lex_lt, lex_le in *; lia].
      destruct (Z.eq_dec a2 0) as [->|]; [|unfold lex_lt, lex_le in *; lia].
      destruct (Z.eq_dec a3 0) as [->|]; [|unfold lex_lt, lex_le in *; lia].
      specialize (Sp ltac:(unfold lex_le; lia)). unfold lex_lt, lex_le in *. lia.
  - intros H. apply leb_key in H; [|auto using wf_not_nan|reflexivity].
    apply ltb_zero_key; [exact Hr|].
    destruct d as [s|[]| |[] m e]; cbn in Hd; try contradiction;
      try (cbn in H; exfalso; lia).
    + cbn. lia.
    + cbn [py_round].
      assert (Hq : 1 <= decimal_digits 1 m e).
      { change 1 with (decimal_digits 1 7205759403792794 (-57)) at 1.
        apply decimal_digits_mono; [lia|reflexivity|exact Hd|].
        cbn in H |- *. lia. }
      destruct (Z.eqb_spec (decimal_digits 1 m e) 0); [lia|].
      destruct (of_decimal_mono 1 (decimal_digits 1 m e) 1 ltac:(lia) ltac:(lia))
        as [_ Hm].
      assert (K1 : key (of_decimal true 1 1) = (-1, 56, -7205759403792794))
        by (vm_compute; reflexivity).
      rewrite K1 in Hm.
      destruct (key (of_decimal true (decimal_digits 1 m e) 1)) as [[b1 b2] b3].
      unfold lex_lt, lex_le in *. lia.
Qed.

Lemma row_warnings_negative L r :
  warns_negative_depth L (row_warnings r)
  <-> (r_Bar r = L /\ py_lt (r_d r) B64.zero = true).
Proof.
  unfold warns_negative_depth, row_warnings. split.
  - intros [d H]. apply in_app_or in H. destruct H as [H|H].
    + destruct (r_Bars r <=? 1); cbn in H; [destruct H as [H|[]]; discriminate|tauto].
    + destruct (py_lt (r_d r) B64.zero); cbn in H; [|tauto].
      destruct H as [H|[]]. inversion H. auto.
  - intros [<- H]. exists (r_d r). apply in_or_app. right. rewrite H. left. reflexivity.
Qed.

Lemma flat_map_warnings_negative L rs :
  warns_negative_depth L (flat_map row_warnings rs)
  <-> exists r, In r rs /\ r_Bar r = L /\ py_lt (r_d r) B64.zero = true.
Proof.
  unfold warns_negative_depth. split.
  - intros [d H]. apply in_flat_map in H. destruct H as (r & Hr & H).
    exists r. split; [exact Hr|]. apply row_warnings_negative. exists d. exact H.
  - intros (r & Hr & H). apply row_warnings_negative in H. destruct H as [d H].
    exists d. apply in_flat_map. exists r. auto.
Qed.

(** ** When a row is returned *)

(** An integer below a finite float converts without overflow. *)
Lemma of_Z_fin k mb e :
  0 <= e <= 971 -> 0 < mb < 2 ^ 53 -> 1 <= k < mb * 2 ^ e ->
  fin_pos (B64.of_Z k).
Proof.
  intros He Hmb Hk.
  destruct (of_Z_pos k ltac:(lia)) as [Ei|Hp]; [|exact Hp]. exfalso.
  revert Ei. unfold B64.of_Z.
  destruct (normalize_rnd k 0 false ltac:(lia)) as (E & HP & Hj).
  set (j := norm_shift (Z.abs k) 0) in *.
  rewrite Z.abs_eq in * by lia.
  destruct (Z.ltb_spec k 0); [lia|]. rewrite E. clear E.
  assert (HJ : 0 < 2 ^ j) by (apply Z.pow_pos_nonneg; lia).
  assert (Hm : 0 <= k * 2 ^ j) by nia.
  assert (H2e : 0 < 2 ^ e) by (apply Z.pow_pos_nonneg; lia).
  assert (Hd1 : 1 <= Zdigits2 k) by (destruct k; try lia; cbn; lia).
  assert (Hdk : Zdigits2 k <= 53 + e).
  { apply Zdigits2_le; [lia|]. rewrite Z.pow_add_r by lia. nia. }
  assert (HE : rnd_exp (k * 2 ^ j) (0 - j) = Zdigits2 k - 53).
  { unfold rnd_exp. rewrite Zdigits2_shift by lia. rewrite fexp_eq. lia. }
  assert (Ej : j = Z.max (53 - Zdigits2 k) 0).
  { unfold j, norm_shift. rewrite Z.abs_eq by lia. rewrite fexp_eq. lia. }
  clearbody j.
  rewrite rnd_closed by assumption.
  destruct (rnd_mant_bounds _ _ loc_Exact Hm HP) as ((_ & Hup) & Hlim & _).
  rewrite HE in *.
  set (M := rnd_mant (k * 2 ^ j) (0 - j) loc_Exact) in *.
  assert (Hfin : (M < 2 ^ 53 /\ Zdigits2 k - 53 <= 971)
                 \/ Zdigits2 k - 53 + 1 <= 971).
  { destruct (Z.le_gt_cases (Zdigits2 k - 53 + 1) 971) as [L|G]; [right; exact L|].
    left. assert (Ee : e = 971) by lia. assert (Ed : Zdigits2 k = 1024) by lia.
    split; [|lia].
    assert (Ej0 : j = 0) by lia. rewrite Ej0 in Hup.
    replace (Zdigits2 k - 53 - (0 - 0)) with 971 in Hup by lia.
    rewrite Z.pow_0_r, Z.mul_1_r in Hup.
    assert (k / 2 ^ 971 < mb); [|lia].
    apply Z.div_lt_upper_bound; [apply Z.pow_pos_nonneg; lia|].
    rewrite Ee in Hk. lia. }
  unfold pack. destruct (Z.eqb_spec M 0); [discriminate|].
  destruct (Z.ltb_spec M (2 ^ 53)).
  - destruct (Z.leb_spec (Zdigits2 k - 53) 971); [discriminate|]. lia.
  - destruct (Z.leb_spec (Zdigits2 k - 53 + 1) 971); [discriminate|]. lia.
Qed.

Lemma py_ceil_finite s m e n :
  py_ceil (S754_finite s m e) = inr n ->
  n = if 0 <=? e then (if s then Z.neg m else Z.pos m) * 2 ^ e
      else - (- (if s then Z.neg m else Z.pos m) / 2 ^ (- e)).
Proof. unfold py_ceil, ret. intros H. injection H as <-. reflexivity. Qed.

Lemma spacing_in_returns i q n :
  fin_nonneg q -> py_ceil q = inr n -> exists sp, spacing_in i n = inr sp.
Proof.
  intros Hq Hn. unfold spacing_in.
  destruct (Z.leb_spec 2 n) as [H2|H2]; [|eexists; reflexivity].
  assert (Hp : fin_pos (B64.of_Z (n - 1))).
  { destruct q as [s| | |[] m e]; cbn in Hq; try contradiction.
    - unfold py_ceil, ret in Hn. injection Hn as Hn. lia.
    - apply py_ceil_finite in Hn. cbv iota in Hn.
      destruct (canonical_facts m e Hq) as (_ & He & Hd & _).
      destruct (Zdigits2_bounds (Z.pos m)) as [_ Hu]; [lia|].
      assert (Hm : Z.pos m < 2 ^ 53).
      { eapply Z.lt_le_trans; [exact Hu|]. apply Z.pow_le_mono_r; lia. }
      destruct (Z.leb_spec 0 e).
      + apply (of_Z_fin (n - 1) (Z.pos m) e); lia.
      + subst n. apply (of_Z_fin _ (Z.pos m) 0); try lia.
        rewrite Z.pow_0_r, Z.mul_1_r.
        assert (HD : 0 < 2 ^ (- e)) by (apply Z.pow_pos_nonneg; lia).
        assert (- Z.pos m <= - Z.pos m / 2 ^ (- e)); [|lia].
        apply Z.div_le_lower_bound; [lia|]. nia. }
  unfold py_float_of_int.
  destruct (B64.of_Z (n - 1)) as [| | |[] m e]; cbn in Hp; try contradiction.
  cbn [bind ret]. rewrite py_truediv_pos by exact Hp. eexists. reflexivity.
Qed.

(** Under the form's constraint, [calc_for_bar] returns a row unless the
    quotient A_s / max(area, 1e-9) overflows, and then it raises
    OverflowError; nothing else in the body can raise. *)
Theorem call_calc_returns_iff G i b :
  constants_ok G -> inputs_ok i b ->
  ((exists r, call_calc G i b = inr r)
   <-> (B64.ltb B64.zero (A_s i) = true ->
        B64.is_finite (bar_quotient i b) = true))
  /\ (B64.ltb B64.zero (A_s i) = true ->
      B64.is_finite (bar_quotient i b) = false ->
      call_calc G i b = inl OverflowError).
Proof.
  intros HG Hok.
  assert (HA : fin_nonneg (A_s i)) by apply Hok.
  assert (Ha : fin_nonneg (area b)) by apply Hok.
  pose proof (bar_quotient_nonneg i b HA Ha) as Hq.
  rewrite call_calc_eq by exact HG. rewrite n_bars_eq by exact Ha.
  unfold py_gt. destruct (B64.ltb B64.zero (A_s i)).
  - destruct (bar_quotient i b) as [s|[]| |[] m e] eqn:Eq; cbn in Hq;
      try contradiction.
    + split; [|discriminate]. split; [reflexivity|]. intros _.
      cbn [py_ceil bind ret]. eexists. reflexivity.
    + split; [|reflexivity]. split; [|intros H; specialize (H eq_refl); discriminate].
      intros [r H]. discriminate H.
    + split; [|discriminate]. split; [reflexivity|]. intros _.
      destruct (py_ceil (S754_finite false m e)) as [x|n] eqn:En;
        [discriminate En|].
      destruct (spacing_in_returns i (S754_finite false m e) n Hq En) as [sp Es].
      cbn [bind]. rewrite Es. cbn [bind]. eexists. reflexivity.
  - split; [|discriminate]. split; [discriminate|]. intros _.
    cbn [bind ret]. eexists. reflexivity.
Qed.

(** * Monotonicity of the arithmetic *)

Lemma rnd_shift s m e j :
  0 < m -> e <= rnd_exp m e -> 0 <= j ->
  rnd s (m * 2 ^ j) (e - j) loc_Exact = rnd s m e loc_Exact
  /\ e - j <= rnd_exp (m * 2 ^ j) (e - j).
Proof.
  intros Hm HP Hj.
  assert (HB : 0 < 2 ^ j) by (apply Z.pow_pos_nonneg; lia).
  assert (HE : rnd_exp (m * 2 ^ j) (e - j) = rnd_exp m e).
  { unfold rnd_exp. rewrite Zdigits2_shift by lia. f_equal. lia. }
  split; [|lia].
  rewrite !rnd_closed by (rewrite ?HE; nia).
  rewrite HE. f_equal.
  unfold rnd_mant. rewrite HE. cbn [loc_code]. rewrite !Z.add_0_r.
  replace (rnd_exp m e - (e - j) + 1) with ((rnd_exp m e - e + 1) + j) by lia.
  replace (4 * (m * 2 ^ j)) with (4 * m * 2 ^ j) by lia.
  rewrite squash_shift by lia. reflexivity.
Qed.

Lemma norm_shift_le m e : 0 < m -> 0 <= norm_shift m e <= 53.
Proof.
  intros Hm. unfold norm_shift. rewrite fexp_eq.
  destruct (Zdigits2_bounds m) as [_ _]; [lia|].
  pose proof (Zdigits2_nonneg m). lia.
Qed.

(** Every non-zero integer is rounded as its multiple by [2^53], which is
    long enough for the rounding to shift it to the right. *)
Lemma normalize_at M e sz :
  M <> 0 ->
  binary_normalize prec emax M e sz
  = rnd (M <? 0) (Z.abs M * 2 ^ 53) (e - 53) loc_Exact
  /\ e - 53 <= rnd_exp (Z.abs M * 2 ^ 53) (e - 53).
Proof.
  intros HM. destruct (normalize_rnd M e sz HM) as (E & HP & Hk).
  set (k := norm_shift (Z.abs M) e) in *.
  assert (Hk53 : k <= 53) by (apply norm_shift_le; lia).
  assert (HB : 0 < 2 ^ k) by (apply Z.pow_pos_nonneg; lia).
  destruct (rnd_shift (M <? 0) (Z.abs M * 2 ^ k) (e - k) (53 - k)) as [E2 HP2];
    [nia|exact HP|lia|].
  replace (Z.abs M * 2 ^ k * 2 ^ (53 - k)) with (Z.abs M * 2 ^ 53) in E2, HP2
    by (rewrite <- Z.mul_assoc, <- pow2_split by lia; do 2 f_equal; lia).
  replace (e - k - (53 - k)) with (e - 53) in E2, HP2 by lia.
  rewrite E, <- E2. split; [reflexivity|exact HP2].
Qed.

Theorem normalize_mono e M1 M2 sz1 sz2 :
  M1 <= M2 ->
  lex_le (key (binary_normalize prec emax M1 e sz1))
         (key (binary_normalize prec emax M2 e sz2)).
Proof.
  intros Hle.
  assert (Hz : forall sz, key (binary_normalize prec emax 0 e sz) = (0, 0, 0))
    by reflexivity.
  assert (Hpos : forall M sz, 0 < M ->
            lex_le (0, 0, 0) (key (binary_normalize prec emax M e sz))).
  { intros M sz HM. destruct (normalize_at M e sz) as [E HP]; [lia|].
    rewrite E. destruct (Z.ltb_spec M 0); [lia|].
    apply rnd_sign; [lia|exact HP]. }
  assert (Hneg : forall M sz, M < 0 ->
            lex_le (key (binary_normalize prec emax M e sz)) (0, 0, 0)).
  { intros M sz HM. destruct (normalize_at M e sz) as [E HP]; [lia|].
    rewrite E. destruct (Z.ltb_spec M 0); [|lia].
    apply rnd_sign; [lia|exact HP]. }
  destruct (Z.lt_trichotomy M1 0) as [H1|[H1|H1]];
    destruct (Z.lt_trichotomy M2 0) as [H2|[H2|H2]]; try lia.
  - destruct (normalize_at M1 e sz1) as [E1 P1]; [lia|].
    destruct (normalize_at M2 e sz2) as [E2 P2]; [lia|].
    rewrite E1, E2.
    destruct (Z.ltb_spec M1 0); [|lia]. destruct (Z.ltb_spec M2 0); [|lia].
    apply (rnd_mono (e - 53) (Z.abs M2 * 2 ^ 53) loc_Exact (Z.abs M1 * 2 ^ 53) loc_Exact);
      [lia|exact P2|cbn [loc_code]; lia].
  - subst M2. rewrite Hz. apply Hneg; lia.
  - eapply lex_le_trans; [apply Hneg; lia|apply Hpos; lia].
  - subst M1. assert (M2 = 0) by lia. subst M2. rewrite !Hz. apply lex_le_refl.
  - subst M1. rewrite Hz. apply Hpos; lia.
  - destruct (normalize_at M1 e sz1) as [E1 P1]; [lia|].
    destruct (normalize_at M2 e sz2) as [E2 P2]; [lia|].
    rewrite E1, E2.
    destruct (Z.ltb_spec M1 0); [lia|]. destruct (Z.ltb_spec M2 0); [lia|].
    apply (rnd_mono (e - 53) (Z.abs M1 * 2 ^ 53) loc_Exact (Z.abs M2 * 2 ^ 53) loc_Exact);
      [lia|exact P1|cbn [loc_code]; lia].
Qed.

Lemma normalize_shift M e j sz :
  0 <= j ->
  key (binary_normalize prec emax (M * 2 ^ j) (e - j) sz)
  = key (binary_normalize prec emax M e sz).
Proof.
  intros Hj. assert (HB : 0 < 2 ^ j) by (apply Z.pow_pos_nonneg; lia).
  destruct (Z.eq_dec M 0) as [->|HM]; [reflexivity|].
  destruct (normalize_at M e sz HM) as [E1 P1].
  destruct (normalize_at (M * 2 ^ j) (e - j) sz) as [E2 P2]; [nia|].
  rewrite E1, E2.
  replace (M * 2 ^ j <? 0) with (M <? 0)
    by (destruct (Z.ltb_spec M 0), (Z.ltb_spec (M * 2 ^ j) 0); auto; nia).
  destruct (rnd_shift (M <? 0) (Z.abs M * 2 ^ 53) (e - 53) j) as [E3 _];
    [lia|exact P1|exact Hj|].
  replace (Z.abs (M * 2 ^ j) * 2 ^ 53) with (Z.abs M * 2 ^ 53 * 2 ^ j)
    by (rewrite Z.abs_mul, (Z.abs_eq (2 ^ j)) by lia; lia).
  replace (e - j - 53) with (e - 53 - j) by lia.
  rewrite E3. reflexivity.
Qed.

Lemma scaled_pos m e : canonical m e -> 0 < scaled m e.
Proof.
  intros Hc. destruct (canonical_facts _ _ Hc) as (_ & He & _).
  unfold scaled, emin. change (SpecFloat.emin prec emax) with (-1074).
  assert (0 < 2 ^ (e - -1074)) by (apply Z.pow_pos_nonneg; lia). nia.
Qed.

Lemma key_sv x y :
  fin x -> fin y -> lex_le (key x) (key y) -> sv x <= sv y.
Proof.
  intros Hx Hy Hk.
  destruct x as [sx| | |[] mx ex], y as [sy| | |[] my ey]; cbn in Hx, Hy; try tauto;
    cbn [sv cond_Zopp];
    try pose proof (scaled_pos _ _ Hx); try pose proof (scaled_pos _ _ Hy);
    try lia; try (cbn in Hk; exfalso; lia).
  - assert (scaled my ey <= scaled mx ex); [|lia].
    apply scaled_mono; auto. cbn in Hk |- *. lia.
  - apply scaled_mono; auto.
Qed.

Lemma normalize_canonical s m e sz :
  canonical m e ->
  binary_normalize prec emax (cond_Zopp s (Z.pos m)) e sz = S754_finite s m e.
Proof.
  intros Hc. destruct (normalize_at (cond_Zopp s (Z.pos m)) e sz) as [E _].
  { destruct s; cbn; lia. }
  rewrite E.
  replace (cond_Zopp s (Z.pos m) <? 0) with s by (destruct s; reflexivity).
  replace (Z.abs (cond_Zopp s (Z.pos m))) with (Z.pos m) by (destruct s; reflexivity).
  apply rnd_canonical; [exact Hc|lia].
Qed.

Lemma cond_Zopp_mul s a b : cond_Zopp s a * b = cond_Zopp s (a * b).
Proof. destruct s; cbn [cond_Zopp]; lia. Qed.

(** A zero or finite float is the rounding of its own value. *)
Lemma normalize_sv x :
  fin x -> key (binary_normalize prec emax (sv x) (-1074) false) = key x.
Proof.
  intros Hx. destruct x as [s| | |s m e]; cbn in Hx; try contradiction;
    [reflexivity|].
  destruct (canonical_facts _ _ Hx) as (_ & He & _).
  cbn [sv]. unfold scaled, emin. change (SpecFloat.emin prec emax) with (-1074).
  rewrite <- cond_Zopp_mul.
  replace (-1074) with (e - (e - -1074)) at 2 by lia.
  rewrite normalize_shift by lia.
  rewrite normalize_canonical by assumption. reflexivity.
Qed.

Lemma add_sv x z :
  fin x -> fin z ->
  key (SFadd prec emax x z)
  = key (binary_normalize prec emax (sv x + sv z) (-1074) false).
Proof.
  intros Hx Hz.
  destruct x as [sx| | |sx mx ex], z as [sz| | |sz mz ez]; cbn in Hx, Hz; try tauto.
  - destruct sx, sz; reflexivity.
  - cbn [SFadd]. rewrite <- (normalize_sv (S754_finite sz mz ez)) by exact Hz.
    reflexivity.
  - cbn [SFadd]. rewrite <- (normalize_sv (S754_finite sx mx ex)) by exact Hx.
    cbn [sv]. rewrite Z.add_0_r. reflexivity.
  - rewrite add_finite.
    destruct (canonical_facts _ _ Hx) as (_ & Hex & _).
    destruct (canonical_facts _ _ Hz) as (_ & Hez & _).
    set (e0 := Z.min ex ez).
    rewrite <- (normalize_shift _ e0 (e0 - -1074)) by (unfold e0; lia).
    replace (e0 - (e0 - -1074)) with (-1074) by lia.
    f_equal. f_equal. cbn [sv]. unfold scaled, emin.
    change (SpecFloat.emin prec emax) with (-1074).
    rewrite Z.mul_add_distr_r, !cond_Zopp_mul, <- !Z.mul_assoc, <- !pow2_split
      by (unfold e0; lia).
    do 4 f_equal; lia.
Qed.

Lemma sub_sv x z :
  fin x -> fin z ->
  key (SFsub prec emax x z)
  = key (binary_normalize prec emax (sv x - sv z) (-1074) false).
Proof.
  intros Hx Hz.
  destruct x as [sx| | |sx mx ex], z as [sz| | |sz mz ez]; cbn in Hx, Hz; try tauto.
  - destruct sx, sz; reflexivity.
  - cbn [SFsub]. rewrite <- (normalize_sv (S754_finite (negb sz) mz ez)) by exact Hz.
    cbn [sv]. do 2 f_equal. destruct sz; cbn [negb cond_Zopp]; lia.
  - cbn [SFsub]. rewrite <- (normalize_sv (S754_finite sx mx ex)) by exact Hx.
    cbn [sv]. rewrite Z.sub_0_r. reflexivity.
  - rewrite sub_finite.
    destruct (canonical_facts _ _ Hx) as (_ & Hex & _).
    destruct (canonical_facts _ _ Hz) as (_ & Hez & _).
    set (e0 := Z.min ex ez).
    rewrite <- (normalize_shift _ e0 (e0 - -1074)) by (unfold e0; lia).
    replace (e0 - (e0 - -1074)) with (-1074) by lia.
    f_equal. f_equal. cbn [sv]. unfold scaled, emin.
    change (SpecFloat.emin prec emax) with (-1074).
    rewrite Z.mul_sub_distr_r, !cond_Zopp_mul, <- !Z.mul_assoc, <- !pow2_split
      by (unfold e0; lia).
    do 4 f_equal; lia.
Qed.

Lemma above_cases x :
  above_ninf x -> x = S754_infinity false \/ fin x.
Proof. destruct x as [|[]| |]; cbn; auto. Qed.

Lemma key_inf_top x :
  wf x -> lex_le (2, 0, 0) (key x) -> x = S754_infinity false.
Proof.
  destruct x as [s|[]| |[] m e]; cbn; intros H K; try tauto; try reflexivity;
    exfalso; lia.
Qed.

(** Addition is monotone in both operands, [-inf] and NaN left out. *)
Theorem add_mono x x' z z' :
  above_ninf x -> above_ninf x' -> above_ninf z -> above_ninf z' ->
  lex_le (key x) (key x') -> lex_le (key z) (key z') ->
  lex_le (key (SFadd prec emax x z)) (key (SFadd prec emax x' z')).
Proof.
  intros Hx Hx' Hz Hz' Kx Kz.
  assert (Htop : forall a, above_ninf a ->
            SFadd prec emax a (S754_infinity false) = S754_infinity false
            /\ SFadd prec emax (S754_infinity false) a = S754_infinity false).
  { intros a Ha. destruct a as [|[]| |]; cbn in *; tauto. }
  destruct (above_cases x' Hx') as [->|Fx'].
  { rewrite (proj2 (Htop z' Hz')). apply key_floor. }
  destruct (above_cases z' Hz') as [->|Fz'].
  { rewrite (proj1 (Htop x' Hx')). apply key_floor. }
  destruct (above_cases x Hx) as [->|Fx].
  { apply key_inf_top in Kx; [|apply above_wf; assumption].
    subst x'. cbn in Fx'. tauto. }
  destruct (above_cases z Hz) as [->|Fz].
  { apply key_inf_top in Kz; [|apply above_wf; assumption].
    subst z'. cbn in Fz'. tauto. }
  rewrite !add_sv by assumption.
  apply normalize_mono.
  pose proof (key_sv x x' Fx Fx' Kx). pose proof (key_sv z z' Fz Fz' Kz). lia.
Qed.

(** Subtraction of a finite value is monotone in the first operand and
    antitone in the second. *)
Theorem sub_mono x x' z z' :
  above_ninf x -> above_ninf x' -> fin z -> fin z' ->
  lex_le (key x) (key x') -> lex_le (key z') (key z) ->
  lex_le (key (SFsub prec emax x z)) (key (SFsub prec emax x' z')).
Proof.
  intros Hx Hx' Fz Fz' Kx Kz.
  assert (Htop : forall a, fin a ->
            SFsub prec emax (S754_infinity false) a = S754_infinity false).
  { intros a Ha. destruct a as [| | |]; cbn in *; tauto. }
  destruct (above_cases x' Hx') as [->|Fx'].
  { rewrite (Htop z' Fz'). apply key_floor. }
  destruct (above_cases x Hx) as [->|Fx].
  { apply key_inf_top in Kx; [|apply above_wf; assumption].
    subst x'. cbn in Fx'. tauto. }
  rewrite !sub_sv by assumption.
  apply normalize_mono.
  pose proof (key_sv x x' Fx Fx' Kx). pose proof (key_sv z' z Fz' Fz Kz). lia.
Qed.

Lemma fin_nonneg_fin x : fin_nonneg x -> fin x.
Proof. destruct x as [| | |[]]; cbn; tauto. Qed.

(** Multiplication by a positive finite factor is monotone on the values
    that are not negative. *)
Theorem mul_mono x y c :
  fin_nonneg x -> fin_nonneg y -> fin_pos c ->
  lex_le (key x) (key y) ->
  lex_le (key (SFmul prec emax x c)) (key (SFmul prec emax y c))
  /\ lex_le (key (SFmul prec emax c x)) (key (SFmul prec emax c y)).
Proof.
  intros Hx Hy Hc Hk.
  assert (N1 : lex_le (0, 0, 0) (key (SFmul prec emax y c))).
  { pose proof (mul_nonneg y c Hy (fin_pos_nonneg c Hc)) as N.
    apply nonneg_key_iff; [apply above_wf, nonneg_above|]; exact N. }
  assert (N2 : lex_le (0, 0, 0) (key (SFmul prec emax c y))).
  { pose proof (mul_nonneg c y (fin_pos_nonneg c Hc) Hy) as N.
    apply nonneg_key_iff; [apply above_wf, nonneg_above|]; exact N. }
  destruct c as [| | |[] mc ec]; cbn in Hc; try contradiction.
  destruct x as [sx| | |[] mx ex]; cbn in Hx; try contradiction.
  { cbn [SFmul xorb key]. split; [exact N1|exact N2]. }
  destruct y as [sy| | |[] my ey]; cbn in Hy; try contradiction.
  { cbn in Hk. exfalso. lia. }
  pose proof (scaled_mono _ _ _ _ Hx Hy Hk) as Hs.
  destruct (canonical_facts _ _ Hx) as (_ & Hex & _).
  destruct (canonical_facts _ _ Hy) as (_ & Hey & _).
  unfold scaled, emin in Hs. change (SpecFloat.emin prec emax) with (-1074) in Hs.
  assert (Hmul : forall m e, canonical m e ->
            rnd false (Z.pos (m * mc)) (e + ec) loc_Exact
            = rnd false (Z.pos m * 2 ^ (e - -1074) * Z.pos mc) (ec + -1074) loc_Exact
            /\ ec + -1074 <= rnd_exp (Z.pos m * 2 ^ (e - -1074) * Z.pos mc) (ec + -1074)).
  { intros m e Hm. destruct (canonical_facts _ _ Hm) as (_ & He & _).
    destruct (rnd_shift false (Z.pos (m * mc)) (e + ec) (e - -1074)) as [E P];
      [lia|apply mul_side_condition; assumption|lia|].
    replace (e + ec - (e - -1074)) with (ec + -1074) in E, P by lia.
    replace (Z.pos (m * mc) * 2 ^ (e - -1074))
      with (Z.pos m * 2 ^ (e - -1074) * Z.pos mc) in E, P by lia.
    split; [symmetry; exact E|exact P]. }
  assert (Hgoal : lex_le (key (rnd false (Z.pos (mx * mc)) (ex + ec) loc_Exact))
                    (key (rnd false (Z.pos (my * mc)) (ey + ec) loc_Exact))).
  { destruct (Hmul mx ex Hx) as [E1 P1]. destruct (Hmul my ey Hy) as [E2 _].
    rewrite E1, E2.
    assert (0 < 2 ^ (ex - -1074)) by (apply Z.pow_pos_nonneg; lia).
    apply rnd_mono; [nia|exact P1|cbn [loc_code]; nia]. }
  split; [exact Hgoal|].
  cbn [SFmul xorb]. rewrite (Pos.mul_comm mc mx), (Pos.mul_comm mc my).
  rewrite (Z.add_comm ec ex), (Z.add_comm ec ey). exact Hgoal.
Qed.

Lemma quotient_code_scale a b k :
  0 < b -> 0 < k ->
  4 * ((a * k) / (b * k)) + loc_code (new_location (b * k) ((a * k) mod (b * k)))
  = 4 * (a / b) + loc_code (new_location b (a mod b)).
Proof.
  intros Hb Hk.
  pose proof (Z.mod_pos_bound a b Hb) as Hr.
  rewrite Z.div_mul_cancel_r, Z.mul_mod_distr_r by lia.
  rewrite !new_location_code by nia.
  destruct (Z.eqb_spec (a mod b * k) 0), (Z.eqb_spec (a mod b) 0); try nia.
  destruct (Z.compare_spec (2 * (a mod b * k)) (b * k)),
    (Z.compare_spec (2 * (a mod b)) b); try nia; reflexivity.
Qed.

Lemma quotient_code_anti n d d' :
  0 <= n -> 0 < d <= d' ->
  4 * (n / d') + loc_code (new_location d' (n mod d'))
  <= 4 * (n / d) + loc_code (new_location d (n mod d)).
Proof.
  intros Hn Hd.
  pose proof (Z.mod_pos_bound n d ltac:(lia)) as Hr.
  pose proof (Z.mod_pos_bound n d' ltac:(lia)) as Hr'.
  rewrite !new_location_code by lia.
  assert (Hq : n / d' <= n / d) by (apply Z.div_le_compat_l; lia).
  pose proof (Z.div_mod n d ltac:(lia)) as E.
  pose proof (Z.div_mod n d' ltac:(lia)) as E'.
  assert (Hq0 : 0 <= n / d') by (apply Z.div_pos; lia).
  destruct (Z.eq_dec (n / d') (n / d)) as [Eq|NE].
  - assert (Hrr : n mod d' <= n mod d) by nia.
    assert (Hc : 2 * (n mod d') - d' <= 2 * (n mod d) - d) by nia.
    rewrite Eq.
    destruct (Z.eqb_spec (n mod d') 0); destruct (Z.eqb_spec (n mod d) 0);
      destruct (Z.compare_spec (2 * (n mod d')) d');
      destruct (Z.compare_spec (2 * (n mod d)) d); lia.
  - destruct (Z.eqb_spec (n mod d') 0); destruct (Z.eqb_spec (n mod d) 0);
      destruct (Z.compare_spec (2 * (n mod d')) d');
      destruct (Z.compare_spec (2 * (n mod d)) d); lia.
Qed.

(** Division of a value that is not negative is antitone in a positive
    finite divisor. *)
Theorem div_anti x c c' :
  nonneg x -> fin_pos c -> fin_pos c' ->
  lex_le (key c) (key c') ->
  lex_le (key (SFdiv prec emax x c')) (key (SFdiv prec emax x c)).
Proof.
  intros Hx Hc Hc' Hk.
  destruct c as [| | |[] mc ec]; cbn in Hc; try contradiction.
  destruct c' as [| | |[] mc' ec']; cbn in Hc'; try contradiction.
  destruct x as [sx|[]| |[] mx ex]; cbn in Hx; try contradiction;
    try (cbn; lia).
  destruct (canonical_facts _ _ Hx) as (_ & Hex & _).
  destruct (canonical_facts _ _ Hc) as (_ & Hec & _).
  destruct (canonical_facts _ _ Hc') as (_ & Hec' & _).
  pose proof (scaled_mono _ _ _ _ Hc Hc' Hk) as Hs.
  unfold scaled, emin in Hs. change (SpecFloat.emin prec emax) with (-1074) in Hs.
  set (e0 := -1074 - 971 - 53 - 53 - 53).
  destruct (div_finite_at false mx ex mc ec e0 Hx Hc) as [E P]; try (unfold e0; lia).
  destruct (div_finite_at false mx ex mc' ec' e0 Hx Hc') as [E' P']; try (unfold e0; lia).
  rewrite E, E'.
  set (N := Z.pos mx * 2 ^ (ex - -1074 - e0)).
  assert (HN : 0 <= N).
  { assert (0 < 2 ^ (ex - -1074 - e0)) by (apply Z.pow_pos_nonneg; unfold e0; lia).
    unfold N. nia. }
  assert (Hsc : forall m e, -1074 <= e <= 971 ->
            4 * (Z.pos mx * 2 ^ (ex - e - e0) / Z.pos m)
            + loc_code (new_location (Z.pos m) ((Z.pos mx * 2 ^ (ex - e - e0)) mod Z.pos m))
            = 4 * (N / (Z.pos m * 2 ^ (e - -1074)))
              + loc_code (new_location (Z.pos m * 2 ^ (e - -1074))
                            (N mod (Z.pos m * 2 ^ (e - -1074))))).
  { intros m e He.
    assert (0 < 2 ^ (e - -1074)) by (apply Z.pow_pos_nonneg; lia).
    rewrite <- (quotient_code_scale (Z.pos mx * 2 ^ (ex - e - e0)) (Z.pos m)
                  (2 ^ (e - -1074))) by lia.
    replace (Z.pos mx * 2 ^ (ex - e - e0) * 2 ^ (e - -1074)) with N; [reflexivity|].
    unfold N. rewrite <- Z.mul_assoc, <- pow2_split by (unfold e0; lia).
    do 2 f_equal. lia. }
  apply rnd_mono; [apply Z.div_pos; [|lia]|exact P'|].
  - assert (0 < 2 ^ (ex - ec' - e0)) by (apply Z.pow_pos_nonneg; unfold e0; lia). nia.
  - rewrite (Hsc mc ec), (Hsc mc' ec') by lia.
    apply quotient_code_anti; [exact HN|].
    assert (0 < 2 ^ (ec - -1074)) by (apply Z.pow_pos_nonneg; lia). nia.
Qed.

Lemma py_max2_mono a a' b b' :
  wf a' -> wf b' ->
  lex_le (key a) (key a') -> lex_le (key b) (key b') ->
  lex_le (key (py_max2 a b)) (key (py_max2 a' b')).
Proof.
  intros Ha' Hb' Ka Kb. destruct (py_max2_key a' b' Ha' Hb') as [K1 K2].
  destruct (py_max2_cases a b) as [->| ->]; eapply lex_le_trans; eassumption.
Qed.

Lemma py_max3_mono a a' b b' c c' :
  wf a' -> wf b' -> wf c' ->
  lex_le (key a) (key a') -> lex_le (key b) (key b') -> lex_le (key c) (key c') ->
  lex_le (key (py_max3 a b c)) (key (py_max3 a' b' c')).
Proof.
  intros Ha' Hb' Hc' Ka Kb Kc. unfold py_max3.
  apply py_max2_mono; auto using py_max2_wf. apply py_max2_mono; auto.
Qed.

(** [math.ceil] on a zero or finite float is the ceiling of its value. *)
Lemma py_ceil_sv x :
  fin x -> py_ceil x = inr (- (- sv x / 2 ^ 1074)).
Proof.
  intros Hx. destruct x as [s| | |s m e]; cbn in Hx; try contradiction;
    [reflexivity|].
  destruct (canonical_facts _ _ Hx) as (_ & He & _).
  cbn [py_ceil sv]. unfold ret. f_equal.
  unfold scaled, emin. change (SpecFloat.emin prec emax) with (-1074).
  replace (if s then Z.neg m else Z.pos m) with (cond_Zopp s (Z.pos m))
    by (destruct s; reflexivity).
  rewrite <- cond_Zopp_mul. set (v := cond_Zopp s (Z.pos m)).
  assert (HP : 0 < 2 ^ 1074) by (apply Z.pow_pos_nonneg; lia).
  destruct (Z.leb_spec 0 e).
  - replace (e - -1074) with (e + 1074) by lia. rewrite pow2_split by lia.
    replace (- (v * (2 ^ e * 2 ^ 1074))) with (- (v * 2 ^ e) * 2 ^ 1074) by lia.
    rewrite Z.div_mul by lia. lia.
  - replace (2 ^ 1074) with (2 ^ (- e) * 2 ^ (e - -1074))
      by (rewrite <- pow2_split by lia; f_equal; lia).
    replace (- (v * 2 ^ (e - -1074))) with (- v * 2 ^ (e - -1074)) by lia.
    rewrite Z.div_mul_cancel_r; [reflexivity| |];
      apply Z.pow_nonzero; lia.
Qed.

Lemma py_ceil_mono x y n n' :
  fin x -> fin y -> lex_le (key x) (key y) ->
  py_ceil x = inr n -> py_ceil y = inr n' -> n <= n'.
Proof.
  intros Hx Hy Hk Ex Ey.
  rewrite py_ceil_sv in Ex, Ey by assumption.
  injection Ex as <-. injection Ey as <-.
  pose proof (key_sv x y Hx Hy Hk) as Hs.
  assert (HP : 0 < 2 ^ 1074) by (apply Z.pow_pos_nonneg; lia).
  assert (- sv y / 2 ^ 1074 <= - sv x / 2 ^ 1074) by (apply Z.div_le_mono; lia).
  lia.
Qed.

Lemma of_Z_mono n n' :
  n <= n' -> lex_le (key (B64.of_Z n)) (key (B64.of_Z n')).
Proof. intros H. unfold B64.of_Z. apply normalize_mono. exact H. Qed.

(** A positive finite value divided by itself is [1.0]. *)
Lemma div_self c :
  fin_pos c -> SFdiv prec emax c c = S754_finite false (2 ^ 52) (-52).
Proof.
  intros Hc. destruct c as [| | |[] mc ec]; cbn in Hc; try contradiction.
  destruct (canonical_facts _ _ Hc) as (_ & Hec & _).
  set (e0 := -1074 - 971 - 53 - 53 - 53).
  destruct (div_finite_at false mc ec mc ec e0 Hc Hc) as [E _]; try (unfold e0; lia).
  rewrite E. replace (ec - ec - e0) with (- e0) by lia.
  rewrite Z.mul_comm, Z.mod_mul, Z.div_mul by lia.
  replace (new_location (Z.pos mc) 0) with loc_Exact
    by (unfold new_location, new_location_even, new_location_odd;
        destruct (Z.even (Z.pos mc)); reflexivity).
  replace (2 ^ (- e0)) with (Z.pos (2 ^ 52) * 2 ^ (- 52 - e0))
    by (change (Z.pos (2 ^ 52)) with (2 ^ 52); rewrite <- pow2_split by (unfold e0; lia);
        f_equal; lia).
  replace e0 with (-52 - (-52 - e0)) at 2 by lia.
  apply rnd_canonical; [reflexivity|unfold e0; lia].
Qed.
(** * Facts about the two loops *)

Lemma calc_for_bar_namespace G1 G2 a1 a2 a3 a4 a5 a6 a7 l a8 a9 a10 :
  MM_PER_FT G1 = MM_PER_FT G2 ->
  calc_for_bar G1 a1 a2 a3 a4 a5 a6 a7 l a8 a9 a10
  = calc_for_bar G2 a1 a2 a3 a4 a5 a6 a7 l a8 a9 a10.
Proof. intros E. unfold calc_for_bar. rewrite E. reflexivity. Qed.

Lemma call_calc_namespace G1 G2 i b :
  MM_PER_FT G1 = MM_PER_FT G2 -> call_calc G1 i b = call_calc G2 i b.
Proof. intros E. unfold call_calc. apply calc_for_bar_namespace. exact E. Qed.

Lemma calc_all_namespace G1 G2 i bs :
  MM_PER_FT G1 = MM_PER_FT G2 -> calc_all G1 i bs = calc_all G2 i bs.
Proof.
  intros E. induction bs as [|b bs IH]; [reflexivity|].
  cbn [calc_all]. rewrite IH, (call_calc_namespace G1 G2 i b E). reflexivity.
Qed.

Lemma append_rows_nil G : append_rows [] G = G.
Proof. destruct G. unfold append_rows. cbn. rewrite app_nil_r. reflexivity. Qed.

Lemma append_rows_cons r rs G :
  append_rows rs (append_row r G) = append_rows (r :: rs) G.
Proof.
  unfold append_rows, append_row. cbn. rewrite <- app_assoc. reflexivity.
Qed.

Lemma rows_loop_eq i bs : forall G,
  rows_loop i bs G = let* rs := calc_all G i bs in ret (append_rows rs G).
Proof.
  induction bs as [|b bs IH]; intros G.
  - cbn. rewrite append_rows_nil. reflexivity.
  - cbn [rows_loop calc_all]. destruct (call_calc G i b) as [e|r]; [reflexivity|].
    cbn [bind]. rewrite IH.
    rewrite (calc_all_namespace (append_row r G) G) by reflexivity.
    destruct (calc_all G i bs) as [e|rs]; [reflexivity|].
    cbn [bind]. rewrite append_rows_cons. reflexivity.
Qed.

Lemma fold_append_warnings ws : forall G,
  fold_left (fun g w => append_warning w g) ws G = append_warnings ws G.
Proof.
  induction ws as [|w ws IH]; intros G.
  - destruct G. unfold append_warnings. cbn. rewrite app_nil_r. reflexivity.
  - cbn [fold_left]. rewrite IH. unfold append_warnings, append_warning. cbn.
    rewrite <- app_assoc. reflexivity.
Qed.

Lemma warns_loop_eq rs : forall G,
  warns_loop rs G = append_warnings (flat_map row_warnings rs) G.
Proof.
  induction rs as [|r rs IH]; intros G.
  - destruct G. unfold append_warnings. cbn. rewrite app_nil_r. reflexivity.
  - cbn [warns_loop flat_map]. rewrite fold_append_warnings, IH.
    unfold append_warnings. cbn. rewrite <- app_assoc. reflexivity.
Qed.

(** One run: the five rows in the order of [bars], then the warnings of
    the rows in that order. *)
Lemma script_eq i :
  script i =
  let* rs := calc_all module_init i (bars i) in
  ret {| MM_PER_IN := lit_25_4; MM_PER_FT := lit_304_8;
         rows := rs; warns := flat_map row_warnings rs |}.
Proof.
  unfold script. rewrite rows_loop_eq.
  destruct (calc_all module_init i (bars i)) as [e|rs]; [reflexivity|].
  cbn [bind ret]. rewrite warns_loop_eq. unfold append_warnings, append_rows.
  cbn. reflexivity.
Qed.

Lemma calc_all_five G i b1 b2 b3 b4 b5 rs :
  calc_all G i [b1; b2; b3; b4; b5] = inr rs ->
  exists r1 r2 r3 r4 r5,
    rs = [r1; r2; r3; r4; r5]
    /\ call_calc G i b1 = inr r1 /\ call_calc G i b2 = inr r2
    /\ call_calc G i b3 = inr r3 /\ call_calc G i b4 = inr r4
    /\ call_calc G i b5 = inr r5.
Proof.
  cbn [calc_all].
  destruct (call_calc G i b1) as [|r1]; [discriminate|].
  destruct (call_calc G i b2) as [|r2]; [discriminate|].
  destruct (call_calc G i b3) as [|r3]; [discriminate|].
  destruct (call_calc G i b4) as [|r4]; [discriminate|].
  destruct (call_calc G i b5) as [|r5]; [discriminate|].
  cbn. intros E. injection E as <-.
  exists r1, r2, r3, r4, r5. repeat split.
Qed.

Lemma reachable_constants G : reachable G -> MM_PER_FT G = lit_304_8.
Proof. induction 1; auto. Qed.

Lemma call_calc_label G i b r : call_calc G i b = inr r -> r_Bar r = label b.
Proof.
  unfold call_calc, calc_for_bar.
  repeat match goal with
  | |- context [bind ?c _] =>
      let x := fresh "x" in destruct c as [|x]; cbn [bind]; [discriminate|]
  end.
  intros E. unfold ret in E. injection E as <-. reflexivity.
Qed.

Lemma call_calc_same_globals G i i' b :
  same_globals i i' -> call_calc G i b = call_calc G i' b.
Proof.
  intros (E1 & E2 & E3 & E4 & E5 & E6 & E7). unfold call_calc.
  rewrite E1, E2, E3, E4, E5, E6, E7. reflexivity.
Qed.

(** What a completed run leaves in the namespace. *)
Lemma script_inv i G :
  script i = inr G ->
  exists r10 r15 r20 r25 r30,
    rows G = [r10; r15; r20; r25; r30]
    /\ warns G = flat_map row_warnings (rows G)
    /\ call_calc module_init i (bar10 i) = inr r10
    /\ call_calc module_init i (bar15 i) = inr r15
    /\ call_calc module_init i (bar20 i) = inr r20
    /\ call_calc module_init i (bar25 i) = inr r25
    /\ call_calc module_init i (bar30 i) = inr r30.
Proof.
  rewrite script_eq.
  destruct (calc_all module_init i (bars i)) as [e|rs] eqn:E; [discriminate|].
  cbn [bind ret]. intros H. injection H as <-. cbn [rows warns].
  apply calc_all_five in E. destruct E as (r1 & r2 & r3 & r4 & r5 & -> & H).
  exists r1, r2, r3, r4, r5. tauto.
Qed.


(** * Monotonicity and bounds of the calculator *)

(** ** Division by a value of at least one *)

Lemma lit_1_pos : fin_pos lit_1_0.
Proof. reflexivity. Qed.

(** Division by [1.0] is exact. *)
Lemma div_one x : nonneg x -> key (SFdiv prec emax x lit_1_0) = key x.
Proof.
  intros Hx. destruct x as [sx|[]| |[] mx ex]; cbn in Hx; try contradiction;
    try reflexivity.
  destruct (canonical_facts _ _ Hx) as (_ & Hex & _).
  set (e0 := -1074 - 971 - 53 - 53 - 53).
  change lit_1_0 with (S754_finite false (2 ^ 52) (-52)).
  destruct (div_finite_at false mx ex (2 ^ 52) (-52) e0 Hx) as [E _];
    try (unfold e0; lia); [reflexivity|].
  rewrite E.
  replace (Z.pos mx * 2 ^ (ex - -52 - e0))
    with (Z.pos mx * 2 ^ (ex - e0) * Z.pos (2 ^ 52))
    by (change (Z.pos (2 ^ 52)) with (2 ^ 52);
        rewrite <- Z.mul_assoc, <- pow2_split by (unfold e0; lia);
        do 2 f_equal; lia).
  rewrite Z.mod_mul, Z.div_mul by lia.
  replace (new_location (Z.pos (2 ^ 52)) 0) with loc_Exact by reflexivity.
  replace e0 with (ex - (ex - e0)) at 2 by lia.
  rewrite rnd_canonical; [reflexivity|exact Hx|unfold e0; lia].
Qed.

Lemma key_fin_nonneg x y :
  nonneg x -> fin_nonneg y -> lex_le (key x) (key y) -> fin_nonneg x.
Proof.
  destruct x as [sx|[]| |[] mx ex], y as [sy| | |[] my ey]; cbn; intros Hx Hy K;
    try tauto; exfalso; lia.
Qed.

(** A finite value that is not negative stays finite when divided by a
    value of at least [1.0]. *)
Lemma div_ge_one_fin x c :
  fin_nonneg x -> fin_pos c -> lex_le (key lit_1_0) (key c) ->
  fin_nonneg (SFdiv prec emax x c)
  /\ lex_le (key (SFdiv prec emax x c)) (key x).
Proof.
  intros Hx Hc Hk.
  pose proof (div_anti x lit_1_0 c (fin_nonneg_nonneg x Hx) lit_1_pos Hc Hk) as K.
  rewrite div_one in K by (apply fin_nonneg_nonneg; exact Hx).
  split; [|exact K].
  apply (key_fin_nonneg _ x); [|exact Hx|exact K].
  apply div_nonneg; [apply fin_nonneg_nonneg; exact Hx|exact Hc].
Qed.

Lemma half_dia_fin x : fin_nonneg x -> fin (SFdiv prec emax x lit_2_0).
Proof.
  intros Hx. apply fin_nonneg_fin.
  apply div_ge_one_fin; [exact Hx|reflexivity|cbn; lia].
Qed.

Lemma key_of_leb x y :
  fin_nonneg x -> fin_nonneg y -> B64.leb x y = true -> lex_le (key x) (key y).
Proof.
  intros Hx Hy H. apply leb_key; [| |exact H];
    apply wf_not_nan, above_wf, nonneg_above, fin_nonneg_nonneg; assumption.
Qed.

(** ** The locals of two calls *)

Section TwoCalls.

Variables (i i' : Inputs) (b b' : BarSpec).

Hypothesis Hok : inputs_ok i b.

Hypothesis Hok' : inputs_ok i' b'.

Lemma d_effective_mono :
  dia b = dia b' ->
  B64.leb (t_slab_mm i) (t_slab_mm i') = true ->
  lex_le (key (d_effective_mm i b)) (key (d_effective_mm i' b')).
Proof.
  intros Ed Ht. unfold d_effective_mm, B64.sub, B64.div. rewrite <- Ed.
  assert (Hd : fin_nonneg (dia b)) by apply Hok.
  assert (H1 : fin_nonneg (t_slab_mm i)) by apply Hok.
  assert (H2 : fin_nonneg (t_slab_mm i')) by apply Hok'.
  pose proof (half_dia_fin _ Hd) as Fh.
  assert (Hh : fin_nonneg (SFdiv prec emax (dia b) lit_2_0))
    by (apply div_ge_one_fin; [exact Hd|reflexivity|cbn; lia]).
  apply sub_mono; try reflexivity; try apply lex_le_refl.
  - apply sub_above; [apply fin_nonneg_nonneg|]; assumption.
  - apply sub_above; [apply fin_nonneg_nonneg|]; assumption.
  - apply sub_mono; try assumption; try apply lex_le_refl;
      try (apply nonneg_above, fin_nonneg_nonneg; assumption).
    apply key_of_leb; assumption.
Qed.

Lemma l_span_mono :
  B64.leb (L_s_mm i) (L_s_mm i') = true ->
  lex_le (key (l_span_mm i)) (key (l_span_mm i')).
Proof.
  intros H. unfold l_span_mm, B64.div.
  assert (H1 : fin_nonneg (L_s_mm i)) by apply Hok.
  assert (H2 : fin_nonneg (L_s_mm i')) by apply Hok'.
  apply div_mono; [| |reflexivity|apply key_of_leb; assumption];
    apply above_wf, nonneg_above, fin_nonneg_nonneg; assumption.
Qed.

Lemma l_add_mono :
  dia b = dia b' ->
  B64.leb (t_slab_mm i) (t_slab_mm i') = true ->
  B64.leb (L_s_mm i) (L_s_mm i') = true ->
  lex_le (key (l_add_mm i b)) (key (l_add_mm i' b')).
Proof.
  intros Ed Ht Hs. unfold l_add_mm.
  apply py_max3_mono.
  - apply d_effective_wf; exact Hok'.
  - apply above_wf, nonneg_above, l_db_nonneg with (i := i'); exact Hok'.
  - apply above_wf, nonneg_above, l_span_nonneg with (b := b'); exact Hok'.
  - apply d_effective_mono; assumption.
  - unfold l_db_mm. rewrite Ed. apply lex_le_refl.
  - apply l_span_mono; assumption.
Qed.

Lemma base_mono :
  B64.leb (l_inf_m i) (l_inf_m i') = true ->
  B64.leb (t_wall_mm i) (t_wall_mm i') = true ->
  B64.leb (hook b) (hook b') = true ->
  B64.leb (d_c_mm i') (d_c_mm i) = true ->
  lex_le (key (base_mm i b)) (key (base_mm i' b')).
Proof.
  intros H1 H2 H3 H4. unfold base_mm, B64.sub, B64.add, B64.mul.
  destruct Hok as (_ & _ & Tw & Dc & Li & _ & _ & _ & _ & Hk).
  destruct Hok' as (_ & _ & Tw' & Dc' & Li' & _ & _ & _ & _ & Hk').
  assert (M : nonneg (SFmul prec emax (l_inf_m i) lit_1000_0))
    by (apply mul_nonneg; auto with lits).
  assert (M' : nonneg (SFmul prec emax (l_inf_m i') lit_1000_0))
    by (apply mul_nonneg; auto with lits).
  assert (S1 : nonneg (SFadd prec emax (SFmul prec emax (l_inf_m i) lit_1000_0) (t_wall_mm i)))
    by (apply add_nonneg; auto using fin_nonneg_nonneg).
  assert (S1' : nonneg (SFadd prec emax (SFmul prec emax (l_inf_m i') lit_1000_0) (t_wall_mm i')))
    by (apply add_nonneg; auto using fin_nonneg_nonneg).
  apply sub_mono; auto using fin_nonneg_fin, key_of_leb;
    try (apply nonneg_above, add_nonneg; auto using fin_nonneg_nonneg).
  apply add_mono; auto using nonneg_above, fin_nonneg_nonneg, key_of_leb.
  apply add_mono; auto using nonneg_above, fin_nonneg_nonneg, key_of_leb.
  apply mul_mono; auto using key_of_leb. reflexivity.
Qed.

Lemma L_03ln_mm_mono :
  B64.leb (L_s_mm i) (L_s_mm i') = true ->
  B64.leb (t_wall_mm i) (t_wall_mm i') = true ->
  B64.leb (hook b) (hook b') = true ->
  B64.leb (d_c_mm i') (d_c_mm i) = true ->
  lex_le (key (L_03ln_mm i b)) (key (L_03ln_mm i' b')).
Proof.
  intros H1 H2 H3 H4. unfold L_03ln_mm, B64.sub, B64.add, B64.mul.
  destruct Hok as (_ & _ & Tw & Dc & _ & Ls & _ & _ & _ & Hk).
  destruct Hok' as (_ & _ & Tw' & Dc' & _ & Ls' & _ & _ & _ & Hk').
  assert (M : nonneg (SFmul prec emax lit_0_3 (L_s_mm i)))
    by (apply mul_nonneg; auto with lits).
  assert (M' : nonneg (SFmul prec emax lit_0_3 (L_s_mm i')))
    by (apply mul_nonneg; auto with lits).
  assert (S1 : nonneg (SFadd prec emax (SFmul prec emax lit_0_3 (L_s_mm i)) (t_wall_mm i)))
    by (apply add_nonneg; auto using fin_nonneg_nonneg).
  assert (S1' : nonneg (SFadd prec emax (SFmul prec emax lit_0_3 (L_s_mm i')) (t_wall_mm i')))
    by (apply add_nonneg; auto using fin_nonneg_nonneg).
  apply sub_mono; auto using fin_nonneg_fin, key_of_leb;
    try (apply nonneg_above, add_nonneg; auto using fin_nonneg_nonneg).
  apply add_mono; auto using nonneg_above, fin_nonneg_nonneg, key_of_leb.
  apply add_mono; auto using nonneg_above, fin_nonneg_nonneg, key_of_leb.
  apply mul_mono; auto using key_of_leb. reflexivity.
Qed.

End TwoCalls.

(** ** The bar count *)

Lemma nonneg_finite_fin x : nonneg x -> B64.is_finite x = true -> fin_nonneg x.
Proof. destruct x as [s|[]| |[] m e]; cbn; intros H F; try tauto; discriminate. Qed.

Lemma floor_area_mono a a' :
  fin_nonneg a -> fin_nonneg a' -> B64.leb a' a = true ->
  lex_le (key (py_max2 a' lit_1e_9)) (key (py_max2 a lit_1e_9)).
Proof.
  intros Ha Ha' H.
  apply py_max2_mono; [auto with lits..| |apply lex_le_refl].
  apply key_of_leb; assumption.
Qed.

Lemma bar_quotient_mono i i' b b' :
  fin_nonneg (A_s i) -> fin_nonneg (A_s i') ->
  fin_nonneg (area b) -> fin_nonneg (area b') ->
  B64.leb (A_s i) (A_s i') = true -> B64.leb (area b') (area b) = true ->
  lex_le (key (bar_quotient i b)) (key (bar_quotient i' b')).
Proof.
  intros HA HA' Ha Ha' H1 H2. unfold bar_quotient, B64.div.
  eapply lex_le_trans.
  - apply (div_mono (A_s i) (A_s i')); auto with lits.
    + apply max_floor_pos; exact Ha.
    + apply key_of_leb; assumption.
  - apply div_anti; auto using max_floor_pos with lits.
    apply floor_area_mono; assumption.
Qed.

Lemma gt_zero_mono x y :
  fin_nonneg x -> fin_nonneg y -> B64.leb x y = true ->
  py_gt x B64.zero = true -> py_gt y B64.zero = true.
Proof.
  destruct x as [sx| | |[] mx ex], y as [sy| | |[] my ey]; cbn; intros Hx Hy H G;
    try tauto; try discriminate; reflexivity.
Qed.

Lemma n_bars_nonneg i b n :
  fin_nonneg (A_s i) -> fin_nonneg (area b) -> n_bars i b = inr n -> 0 <= n.
Proof.
  intros HA Ha H. rewrite n_bars_eq in H by exact Ha.
  destruct (py_gt (A_s i) B64.zero).
  - apply (py_ceil_nonneg (bar_quotient i b)); [|exact H].
    apply bar_quotient_nonneg; assumption.
  - unfold ret in H. injection H as <-. lia.
Qed.

Lemma n_bars_quotient_fin i b n :
  fin_nonneg (A_s i) -> fin_nonneg (area b) ->
  py_ceil (bar_quotient i b) = inr n -> fin_nonneg (bar_quotient i b).
Proof.
  intros HA Ha H. apply nonneg_finite_fin.
  - apply bar_quotient_nonneg; assumption.
  - apply (py_ceil_spec _ n H).
Qed.

Lemma n_bars_mono i i' b b' n n' :
  fin_nonneg (A_s i) -> fin_nonneg (A_s i') ->
  fin_nonneg (area b) -> fin_nonneg (area b') ->
  B64.leb (A_s i) (A_s i') = true -> B64.leb (area b') (area b) = true ->
  n_bars i b = inr n -> n_bars i' b' = inr n' -> n <= n'.
Proof.
  intros HA HA' Ha Ha' H1 H2 En En'.
  pose proof (n_bars_nonneg i' b' n' HA' Ha' En') as Hn'.
  rewrite n_bars_eq in En, En' by assumption.
  destruct (py_gt (A_s i) B64.zero) eqn:G.
  - rewrite (gt_zero_mono _ _ HA HA' H1 G) in En'.
    apply (py_ceil_mono (bar_quotient i b) (bar_quotient i' b')); auto.
    + apply fin_nonneg_fin, (n_bars_quotient_fin i b n); assumption.
    + apply fin_nonneg_fin, (n_bars_quotient_fin i' b' n'); assumption.
    + apply bar_quotient_mono; assumption.
  - unfold ret in En. injection En as <-. exact Hn'.
Qed.

(** ** The spacing *)

Lemma spacing_in_two i n sp :
  fin_nonneg (L_wall_ft i) -> 2 <= n -> spacing_in i n = inr sp ->
  fin_pos (B64.of_Z (n - 1))
  /\ sp = B64.div (B64.mul (L_wall_ft i) lit_12_0) (B64.of_Z (n - 1)).
Proof.
  intros HL Hn H. unfold spacing_in in H.
  destruct (Z.leb_spec 2 n); [|lia].
  unfold py_float_of_int in H.
  destruct (of_Z_pos (n - 1) ltac:(lia)) as [Ei|Hp].
  - rewrite Ei in H. discriminate H.
  - split; [exact Hp|].
    destruct (B64.of_Z (n - 1)) as [| | |[] m e] eqn:Ek; cbn in Hp;
      try contradiction.
    cbn [bind ret] in H. rewrite py_truediv_pos in H by exact Hp.
    unfold ret in H. injection H as <-. reflexivity.
Qed.

Lemma wall_in_nonneg i :
  fin_nonneg (L_wall_ft i) -> nonneg (B64.mul (L_wall_ft i) lit_12_0).
Proof. intros H. apply mul_nonneg; auto with lits. Qed.

Lemma of_Z_ge_one n : 1 <= n -> lex_le (key lit_1_0) (key (B64.of_Z n)).
Proof. intros H. change lit_1_0 with (B64.of_Z 1). apply of_Z_mono. exact H. Qed.

Lemma spacing_le_wall i n sp :
  fin_nonneg (L_wall_ft i) -> 2 <= n -> spacing_in i n = inr sp ->
  nonneg sp /\ lex_le (key sp) (key (B64.mul (L_wall_ft i) lit_12_0)).
Proof.
  intros HL Hn H. destruct (spacing_in_two i n sp HL Hn H) as [Hp ->].
  pose proof (wall_in_nonneg i HL) as HW.
  split; [apply div_nonneg; assumption|].
  rewrite <- (div_one (B64.mul (L_wall_ft i) lit_12_0)) by exact HW.
  apply div_anti; auto using lit_1_pos. apply of_Z_ge_one. lia.
Qed.

Lemma spacing_mono i i' n n' sp sp' :
  fin_nonneg (L_wall_ft i) -> fin_nonneg (L_wall_ft i') ->
  B64.leb (L_wall_ft i) (L_wall_ft i') = true ->
  2 <= n' <= n ->
  spacing_in i n = inr sp -> spacing_in i' n' = inr sp' ->
  lex_le (key sp) (key sp').
Proof.
  intros HL HL' H Hn E E'.
  destruct (spacing_in_two i n sp HL ltac:(lia) E) as [Hp ->].
  destruct (spacing_in_two i' n' sp' HL' ltac:(lia) E') as [Hp' ->].
  unfold B64.div.
  eapply lex_le_trans.
  - apply (div_mono _ (B64.mul (L_wall_ft i') lit_12_0)); auto.
    + apply above_wf, nonneg_above, wall_in_nonneg; exact HL.
    + apply above_wf, nonneg_above, wall_in_nonneg; exact HL'.
    + apply mul_mono; auto using key_of_leb with lits.
  - apply div_anti; auto using wall_in_nonneg.
    apply of_Z_mono. lia.
Qed.

Lemma row_spacing_some i b n sp s :
  fin_nonneg (L_wall_ft i) -> spacing_in i n = inr sp ->
  r_Spacing (row_of i b n sp) = Some s ->
  2 <= n /\ nonneg sp /\ s = py_round sp 2.
Proof.
  intros HL E H. cbn [row_of r_Spacing] in H.
  destruct (spacing_in_inv i n sp HL E) as [[Hn ->]|(Hn & Hnn & _)].
  - cbn in H. discriminate H.
  - rewrite (wf_not_nan sp) in H by (apply above_wf, nonneg_above; exact Hnn).
    injection H as <-. auto.
Qed.

(** ** Rounded values and the builtin [max] *)

Lemma round_leb x y nd :
  0 <= nd -> wf x -> wf y -> lex_le (key x) (key y) ->
  B64.leb (py_round x nd) (py_round y nd) = true.
Proof.
  intros Hnd Hx Hy K.
  apply leb_of_key; try (apply py_round_wf; assumption).
  apply py_round_mono; assumption.
Qed.

Lemma py_max2_first a b :
  wf a -> wf b -> lex_le (key b) (key a) -> py_max2 a b = a.
Proof.
  intros Ha Hb K. unfold py_max2, py_gt.
  destruct (B64.ltb a b) eqn:L; [|reflexivity].
  apply ltb_key in L; auto using wf_not_nan.
  exfalso. unfold B64.lex_lt, B64.lex_le in *.
  destruct (key a) as [[a1 a2] a3], (key b) as [[b1 b2] b3]. lia.
Qed.

(** ** The effective depth *)

Lemma sub_zero_key t :
  fin_nonneg t -> key (SFsub prec emax t (S754_zero false)) = key t.
Proof. destruct t as [[]| | |[] m e]; cbn; tauto. Qed.

Lemma d_effective_le_slab i b :
  inputs_ok i b ->
  lex_le (key (d_effective_mm i b)) (key (B64.sub (t_slab_mm i) lit_40_0)).
Proof.
  intros Hok. unfold d_effective_mm, B64.sub, B64.div.
  assert (Hd : fin_nonneg (dia b)) by apply Hok.
  assert (Ht : fin_nonneg (t_slab_mm i)) by apply Hok.
  assert (Hh : fin_nonneg (SFdiv prec emax (dia b) lit_2_0))
    by (apply div_ge_one_fin; [exact Hd|reflexivity|cbn; lia]).
  apply sub_mono; try reflexivity; try apply lex_le_refl.
  - apply sub_above; [apply fin_nonneg_nonneg|]; assumption.
  - apply nonneg_above, fin_nonneg_nonneg; exact Ht.
  - rewrite <- (sub_zero_key (t_slab_mm i)) by exact Ht.
    apply sub_mono; auto using fin_nonneg_fin, lex_le_refl;
      try (apply nonneg_above, fin_nonneg_nonneg; exact Ht); try exact I.
    apply nonneg_key_iff; [apply above_wf, nonneg_above|];
      apply fin_nonneg_nonneg; exact Hh.
Qed.

Lemma slab_minus_40_wf i :
  fin_nonneg (t_slab_mm i) -> wf (B64.sub (t_slab_mm i) lit_40_0).
Proof.
  intros Ht. apply above_wf. unfold B64.sub.
  apply sub_above; [apply fin_nonneg_nonneg; exact Ht|reflexivity].
Qed.

(** ** Rows and bars of a completed run *)

(** The table of a completed run and a bar of the list. *)
Lemma script_row_of_bar i G b :
  script i = inr G -> In b (bars i) ->
  exists r, In r (rows G) /\ call_calc module_init i b = inr r
            /\ r_Bar r = label b.
Proof.
  intros H Hb. apply script_inv in H.
  destruct H as (r1 & r2 & r3 & r4 & r5 & E & _ & H1 & H2 & H3 & H4 & H5).
  rewrite E. cbn in Hb.
  destruct Hb as [<-|[<-|[<-|[<-|[<-|[]]]]]];
    [exists r1|exists r2|exists r3|exists r4|exists r5];
    (split; [cbn; tauto|]); (split; [assumption|]);
    eapply call_calc_label; eassumption.
Qed.

Lemma script_bar_of_row i G r :
  script i = inr G -> In r (rows G) ->
  exists b, In b (bars i) /\ call_calc module_init i b = inr r.
Proof.
  intros H Hr. apply script_inv in H.
  destruct H as (r1 & r2 & r3 & r4 & r5 & E & _ & H1 & H2 & H3 & H4 & H5).
  rewrite E in Hr. cbn in Hr.
  destruct Hr as [<-|[<-|[<-|[<-|[<-|[]]]]]];
    [exists (bar10 i)|exists (bar15 i)|exists (bar20 i)|exists (bar25 i)
    |exists (bar30 i)]; (split; [cbn; tauto|assumption]).
Qed.

Lemma bars_labels_distinct i b b' :
  In b (bars i) -> In b' (bars i) -> label b = label b' -> b = b'.
Proof.
  intros Hb Hb' E. cbn in Hb, Hb'.
  destruct Hb as [<-|[<-|[<-|[<-|[<-|[]]]]]];
    destruct Hb' as [<-|[<-|[<-|[<-|[<-|[]]]]]];
    cbn [label] in E; try discriminate E; reflexivity.
Qed.

(** In a completed run a bar is warned of a negative depth exactly when
    its row holds one. *)
Lemma script_negative_depth_iff i G b r :
  script i = inr G -> In b (bars i) -> call_calc module_init i b = inr r ->
  (warns_negative_depth (label b) (warns G)
   <-> B64.ltb (r_d r) B64.zero = true).
Proof.
  intros H Hb E.
  pose proof (script_inv i G H) as (r1 & r2 & r3 & r4 & r5 & _ & Ew & _).
  rewrite Ew, flat_map_warnings_negative. unfold py_lt. split.
  - intros (r0 & Hr0 & Hl & Hd).
    destruct (script_bar_of_row i G r0 H Hr0) as (b0 & Hb0 & E0).
    assert (b0 = b).
    { apply (bars_labels_distinct i); auto.
      rewrite <- Hl. symmetry. eapply call_calc_label; eassumption. }
    subst b0. rewrite E0 in E. injection E as <-. exact Hd.
  - intros Hd. destruct (script_row_of_bar i G b H Hb) as (r0 & Hr0 & E0 & Hl).
    rewrite E0 in E. injection E as <-.
    exists r0. auto.
Qed.

(** ** Calls that return *)

Lemma floor_ge_1e_9 a :
  fin_nonneg a -> lex_le (key lit_1e_9) (key (py_max2 a lit_1e_9)).
Proof.
  intros Ha. apply py_max2_key; auto with lits.
Qed.

Lemma bar_quotient_finite i b :
  fin_nonneg (A_s i) -> fin_nonneg (area b) ->
  B64.leb (A_s i) lit_1e299 = true \/ B64.leb lit_1_0 (area b) = true ->
  fin_nonneg (bar_quotient i b).
Proof.
  intros HA Ha [H|H]; unfold bar_quotient, B64.div.
  - apply (key_fin_nonneg _ (B64.div lit_1e299 lit_1e_9));
      [apply bar_quotient_nonneg; assumption|reflexivity|].
    eapply lex_le_trans.
    + apply (div_mono (A_s i) lit_1e299);
        [auto with lits|reflexivity|apply max_floor_pos; exact Ha|].
      apply key_of_leb; [exact HA|reflexivity|exact H].
    + apply div_anti;
        [reflexivity|auto with lits|apply max_floor_pos; exact Ha
        |apply floor_ge_1e_9; exact Ha].
  - apply div_ge_one_fin; auto using max_floor_pos.
    eapply lex_le_trans;
      [|apply (proj1 (py_max2_key (area b) lit_1e_9 ltac:(auto with lits)
                        ltac:(auto with lits)))].
    apply leb_key; [reflexivity|apply wf_not_nan; auto with lits|exact H].
Qed.


Lemma row_warnings_only L n r :
  In (OnlyBarsComputed L n) (row_warnings r)
  <-> (r_Bar r = L /\ r_Bars r = n /\ n <= 1).
Proof.
  unfold row_warnings. split.
  - intros H. apply in_app_or in H. destruct H as [H|H].
    + destruct (Z.leb_spec (r_Bars r) 1); cbn in H; [|tauto].
      destruct H as [H|[]]. injection H as <- <-. auto.
    + destruct (py_lt (r_d r) B64.zero); cbn in H; [|tauto].
      destruct H as [H|[]]. discriminate H.
  - intros (<- & <- & H). apply in_or_app. left.
    destruct (Z.leb_spec (r_Bars r) 1); [left; reflexivity|lia].
Qed.

Lemma py_ceil_one : py_ceil lit_1_0 = inr 1.
Proof. reflexivity. Qed.

Lemma ge_pos_gt_zero c x :
  fin_pos c -> fin_nonneg x -> B64.leb c x = true -> py_gt x B64.zero = true.
Proof.
  destruct c as [sc| | |[] mc ec], x as [sx| | |[] m e]; cbn; intros Hc Hx H;
    try contradiction; try discriminate H; reflexivity.
Qed.

(** ** Finite values *)

Lemma key_min_float x : above_ninf x -> lex_le (key min_float) (key x).
Proof.
  destruct x as [s|[]| |[] m e]; cbn; intros H; try contradiction; try lia.
  destruct (canonical_facts _ _ H) as (_ & He & Hd & _).
  destruct (Zdigits2_bounds (Z.pos m)) as [_ Hu]; [lia|].
  assert (Hm : Z.pos m < 2 ^ 53).
  { eapply Z.lt_le_trans; [exact Hu|]. apply Z.pow_le_mono_r; lia. }
  change (2 ^ 53) with 9007199254740992 in Hm. lia.
Qed.

(** [round] to at most three decimals never turns a value into [-inf]. *)
Lemma py_round_above x nd :
  0 <= nd <= 3 -> above_ninf x -> above_ninf (py_round x nd).
Proof.
  intros Hnd Hx.
  pose proof (py_round_wf x nd ltac:(lia) (above_wf x Hx)) as W.
  pose proof (py_round_mono min_float x nd ltac:(lia) eq_refl (above_wf x Hx)
                (key_min_float x Hx)) as K.
  assert (E : key (py_round min_float nd) = key min_float).
  { assert (C : nd = 0 \/ nd = 1 \/ nd = 2 \/ nd = 3) by lia.
    destruct C as [->|[->|[->| ->]]]; vm_compute; reflexivity. }
  rewrite E in K.
  destruct (py_round x nd) as [s|[]| |s m e]; cbn in W |- *; auto.
  cbn in K. lia.
Qed.

Lemma half_dia_fin_nonneg x :
  fin_nonneg x -> fin_nonneg (SFdiv prec emax x lit_2_0).
Proof. intros Hx. apply div_ge_one_fin; [exact Hx|reflexivity|cbn; lia]. Qed.

Lemma d_effective_anti_dia i b b' :
  inputs_ok i b -> inputs_ok i b' ->
  B64.leb (dia b) (dia b') = true ->
  lex_le (key (d_effective_mm i b')) (key (d_effective_mm i b)).
Proof.
  intros Hok Hok' H. unfold d_effective_mm, B64.sub, B64.div.
  assert (Hd : fin_nonneg (dia b)) by apply Hok.
  assert (Hd' : fin_nonneg (dia b')) by apply Hok'.
  assert (Ht : fin_nonneg (t_slab_mm i)) by apply Hok.
  pose proof (half_dia_fin_nonneg _ Hd) as Hh.
  pose proof (half_dia_fin_nonneg _ Hd') as Hh'.
  apply sub_mono; try reflexivity; try apply lex_le_refl;
    try (apply sub_above; [apply fin_nonneg_nonneg|]; assumption).
  apply sub_mono; auto using fin_nonneg_fin, lex_le_refl;
    try (apply nonneg_above, fin_nonneg_nonneg; exact Ht).
  apply div_mono; auto with lits. apply key_of_leb; assumption.
Qed.

Lemma l_db_mono b b' :
  fin_nonneg (dia b) -> fin_nonneg (dia b') ->
  B64.leb (dia b) (dia b') = true ->
  lex_le (key (l_db_mm b)) (key (l_db_mm b')).
Proof.
  intros Hd Hd' H. unfold l_db_mm, B64.mul.
  apply mul_mono; auto using key_of_leb with lits.
Qed.

(** Decides an inequality between the keys of two closed floats. *)
Ltac key_decide :=
  match goal with
  | |- lex_le (key ?x) (key ?y) =>
      let vx := eval vm_compute in (key x) in
      let vy := eval vm_compute in (key y) in
      replace (key x) with vx by (vm_compute; reflexivity);
      replace (key y) with vy by (vm_compute; reflexivity);
      unfold lex_le; lia
  end.

Lemma fin_of_bounds x lo hi :
  wf x -> fin lo -> fin hi ->
  lex_le (key lo) (key x) -> lex_le (key x) (key hi) -> fin x.
Proof.
  destruct x as [s|[]| |s m e]; cbn [wf fin]; intros W Hlo Hhi K1 K2; auto.
  - destruct lo as [sl| | |[] ml el]; cbn in Hlo, K1; try contradiction; lia.
  - destruct hi as [sh| | |[] mh eh]; cbn in Hhi, K2; try contradiction; lia.
Qed.

Lemma key_max_float x : fin x -> lex_le (key x) (key max_float).
Proof.
  destruct x as [s| | |[] m e]; cbn; intros H; try contradiction; try lia.
  destruct (canonical_facts _ _ H) as (_ & He & Hd & _).
  destruct (Zdigits2_bounds (Z.pos m)) as [_ Hu]; [lia|].
  assert (Hm : Z.pos m < 2 ^ 53).
  { eapply Z.lt_le_trans; [exact Hu|]. apply Z.pow_le_mono_r; lia. }
  change (2 ^ 53) with 9007199254740992 in Hm. lia.
Qed.

Lemma fin_wf x : fin x -> wf x.
Proof. destruct x; cbn; tauto. Qed.

Lemma fin_above x : fin x -> above_ninf x.
Proof. destruct x; cbn; tauto. Qed.

(** [round] to at most three decimals keeps a finite value finite. *)
Lemma py_round_fin x nd : 0 <= nd <= 3 -> fin x -> fin (py_round x nd).
Proof.
  intros Hnd Hx.
  assert (C : nd = 0 \/ nd = 1 \/ nd = 2 \/ nd = 3) by lia.
  apply (fin_of_bounds _ (py_round min_float nd) (py_round max_float nd)).
  - apply py_round_wf; [lia|apply fin_wf; exact Hx].
  - destruct C as [->|[->|[->| ->]]]; vm_compute; reflexivity.
  - destruct C as [->|[->|[->| ->]]]; vm_compute; reflexivity.
  - apply py_round_mono; [lia|reflexivity|apply fin_wf; exact Hx|].
    apply key_min_float, fin_above, Hx.
  - apply py_round_mono; [lia|apply fin_wf; exact Hx|reflexivity|].
    apply key_max_float, Hx.
Qed.

Lemma py_max2_fin a b : fin a -> fin b -> fin (py_max2 a b).
Proof. intros Ha Hb. destruct (py_max2_cases a b) as [->| ->]; assumption. Qed.

Lemma leb_zero x : fin_nonneg x -> B64.leb B64.zero x = true.
Proof. destruct x as [s| | |[] m e]; cbn; intros H; try contradiction; reflexivity. Qed.

Lemma uniform_ok x c :
  fin_nonneg x -> fin_nonneg c -> inputs_ok (uniform_inputs x c) (uniform_bar x).
Proof. intros Hx Hc. unfold inputs_ok. cbn. tauto. Qed.

Section Bounded.

Variables (i : Inputs) (b : BarSpec).

Hypothesis Hok : inputs_ok i b.

Hypothesis Hbd : inputs_bounded i b.

Let i_hi := uniform_inputs lit_1e300 B64.zero.
Let i_lo := uniform_inputs B64.zero lit_1e300.
Let b_hi := uniform_bar lit_1e300.
Let b_lo := uniform_bar B64.zero.

Lemma hi_ok : inputs_ok i_hi b_hi.
Proof. apply uniform_ok; reflexivity. Qed.

Lemma lo_ok : inputs_ok i_lo b_lo.
Proof. apply uniform_ok; reflexivity. Qed.

Lemma d_effective_fin : fin (d_effective_mm i b).
Proof.
  destruct Hok as (_ & _ & _ & _ & _ & _ & Ts & Hd & _).
  destruct Hbd as (_ & _ & _ & _ & _ & B6 & B7 & _).
  pose proof (half_dia_fin_nonneg _ Hd) as Hh.
  apply (fin_of_bounds _
           (B64.sub (B64.sub B64.zero lit_1e300) lit_40_0)
           (B64.sub lit_1e300 lit_40_0)).
  - apply d_effective_wf; exact Hok.
  - reflexivity.
  - reflexivity.
  - unfold d_effective_mm, B64.sub, B64.div.
    apply sub_mono; try reflexivity; try apply lex_le_refl.
    + apply sub_above; [apply fin_nonneg_nonneg|]; assumption.
    + apply sub_mono; try reflexivity; auto using fin_nonneg_fin.
      * apply nonneg_above, fin_nonneg_nonneg; exact Ts.
      * apply nonneg_key_iff; [apply above_wf, nonneg_above|];
          apply fin_nonneg_nonneg; exact Ts.
      * eapply lex_le_trans; [apply div_ge_one_fin; [exact Hd|reflexivity|cbn; lia]|].
        apply key_of_leb; [exact Hd|reflexivity|exact B7].
  - eapply lex_le_trans; [apply d_effective_le_slab; exact Hok|].
    unfold B64.sub. apply sub_mono; try reflexivity; try apply lex_le_refl.
    + apply nonneg_above, fin_nonneg_nonneg; exact Ts.
    + apply key_of_leb; [exact Ts|reflexivity|exact B6].
Qed.

Lemma l_db_fin : fin_nonneg (l_db_mm b).
Proof.
  destruct Hok as (_ & _ & _ & _ & _ & _ & _ & Hd & _).
  destruct Hbd as (_ & _ & _ & _ & _ & _ & B7 & _).
  apply (key_fin_nonneg _ (B64.mul lit_16_0 lit_1e300)).
  - apply l_db_nonneg with (i := i); exact Hok.
  - reflexivity.
  - unfold l_db_mm, B64.mul.
    apply mul_mono; [exact Hd|reflexivity|reflexivity|].
    apply key_of_leb; [exact Hd|reflexivity|exact B7].
Qed.

Lemma l_span_fin : fin_nonneg (l_span_mm i).
Proof.
  destruct Hok as (_ & _ & _ & _ & _ & Ls & _).
  unfold l_span_mm, B64.div. apply div_ge_one_fin; [exact Ls|reflexivity|cbn; lia].
Qed.

Lemma l_add_fin : fin_nonneg (l_add_mm i b).
Proof.
  apply nonneg_finite_fin; [apply l_add_nonneg; exact Hok|].
  assert (F : fin (l_add_mm i b)).
  { unfold l_add_mm, py_max3.
    repeat apply py_max2_fin; auto using d_effective_fin, fin_nonneg_fin,
      l_db_fin, l_span_fin. }
  destruct (l_add_mm i b); cbn in F |- *; tauto.
Qed.

Lemma l_add_le : lex_le (key (l_add_mm i b)) (key (B64.mul lit_16_0 lit_1e300)).
Proof.
  destruct Hok as (_ & _ & _ & _ & _ & Ls & Ts & Hd & _).
  destruct Hbd as (_ & _ & _ & _ & B5 & B6 & B7 & _).
  unfold l_add_mm, py_max3.
  destruct (py_max2_cases (py_max2 (d_effective_mm i b) (l_db_mm b)) (l_span_mm i))
    as [->| ->];
    [destruct (py_max2_cases (d_effective_mm i b) (l_db_mm b)) as [->| ->]|].
  - eapply lex_le_trans; [apply d_effective_le_slab; exact Hok|].
    apply (lex_le_trans _ (key (B64.sub lit_1e300 lit_40_0))); [|key_decide].
    unfold B64.sub. apply sub_mono; try reflexivity; try apply lex_le_refl.
    + apply nonneg_above, fin_nonneg_nonneg; exact Ts.
    + apply key_of_leb; [exact Ts|reflexivity|exact B6].
  - unfold l_db_mm, B64.mul.
    apply mul_mono; [exact Hd|reflexivity|reflexivity|].
    apply key_of_leb; [exact Hd|reflexivity|exact B7].
  - apply (lex_le_trans _ (key lit_1e300)); [|key_decide].
    eapply lex_le_trans;
      [apply div_ge_one_fin; [exact Ls|reflexivity|cbn; lia]|].
    apply key_of_leb; [exact Ls|reflexivity|exact B5].
Qed.

Lemma base_bounds :
  lex_le (key (base_mm i_lo b_lo)) (key (base_mm i b))
  /\ lex_le (key (base_mm i b)) (key (base_mm i_hi b_hi)).
Proof.
  destruct Hok as (_ & _ & Tw & Dc & Li & _ & _ & _ & _ & Hk).
  destruct Hbd as (_ & B2 & B3 & B4 & _ & _ & _ & B8).
  split.
  - apply (base_mono i_lo i b_lo b lo_ok Hok); cbn; auto using leb_zero.
  - apply (base_mono i i_hi b b_hi Hok hi_ok); cbn; auto using leb_zero.
Qed.

Lemma L_req_mm_fin : fin (L_req_mm i b).
Proof.
  destruct base_bounds as [K1 K2].
  pose proof l_add_fin as Fa. pose proof l_add_le as Ka.
  destruct (L_req_mm_above i b Hok) as [Ar _].
  apply (fin_of_bounds _ (B64.add (base_mm i_lo b_lo) B64.zero)
           (B64.add (base_mm i_hi b_hi) (B64.mul lit_16_0 lit_1e300))).
  - apply above_wf; exact Ar.
  - vm_compute; reflexivity.
  - vm_compute; reflexivity.
  - unfold L_req_mm, B64.add. apply add_mono; auto using base_above, lo_ok.
    + exact I.
    + apply nonneg_above, fin_nonneg_nonneg; exact Fa.
    + apply nonneg_key_iff;
        [apply above_wf, nonneg_above, fin_nonneg_nonneg|apply fin_nonneg_nonneg];
        exact Fa.
  - unfold L_req_mm, B64.add. apply add_mono; auto using base_above, hi_ok.
    + apply nonneg_above, fin_nonneg_nonneg; exact Fa.
    + reflexivity.
Qed.

Lemma L_03ln_mm_fin : fin (L_03ln_mm i b).
Proof.
  destruct Hok as (_ & _ & Tw & Dc & _ & Ls & _ & _ & _ & Hk).
  destruct Hbd as (_ & B2 & B3 & _ & B5 & _ & _ & B8).
  apply (fin_of_bounds _ (L_03ln_mm i_lo b_lo) (L_03ln_mm i_hi b_hi)).
  - apply above_wf, L_03ln_mm_above; exact Hok.
  - vm_compute; reflexivity.
  - vm_compute; reflexivity.
  - apply (L_03ln_mm_mono i_lo i b_lo b lo_ok Hok); cbn; auto using leb_zero.
  - apply (L_03ln_mm_mono i i_hi b b_hi Hok hi_ok); cbn; auto using leb_zero.
Qed.

Lemma to_feet_fin x : fin x -> fin (B64.div x lit_304_8).
Proof.
  intros Hx. unfold B64.div.
  apply (fin_of_bounds _ (B64.div min_float lit_304_8) (B64.div max_float lit_304_8)).
  - apply div_wf; [apply fin_wf; exact Hx|reflexivity].
  - vm_compute; reflexivity.
  - vm_compute; reflexivity.
  - apply div_mono; [reflexivity|apply fin_wf; exact Hx|reflexivity|].
    apply key_min_float, fin_above, Hx.
  - apply div_mono; [apply fin_wf; exact Hx|reflexivity|reflexivity|].
    apply key_max_float, Hx.
Qed.

End Bounded.

Lemma fin_is_finite x : fin x -> B64.is_finite x = true.
Proof. destruct x; cbn; tauto. Qed.

Lemma spacing_fin i n sp :
  fin_nonneg (L_wall_ft i) -> B64.leb (L_wall_ft i) lit_1e300 = true ->
  2 <= n -> spacing_in i n = inr sp -> fin sp.
Proof.
  intros HL HB Hn E.
  destruct (spacing_le_wall i n sp HL Hn E) as [Hnn K].
  apply fin_nonneg_fin, (key_fin_nonneg _ (B64.mul lit_1e300 lit_12_0));
    [exact Hnn|reflexivity|].
  eapply lex_le_trans; [exact K|].
  unfold B64.mul. apply mul_mono; [exact HL|reflexivity|reflexivity|].
  apply key_of_leb; [exact HL|reflexivity|exact HB].
Qed.

(** ** The bar count against the exact quotient *)

Lemma canonical_intro m e :
  fexp (Zdigits2 (Z.pos m) + e) = e -> e <= 971 -> canonical m e.
Proof.
  intros Hf He. unfold canonical, bounded, canonical_mantissa.
  fold (fexp (Z.pos (digits2_pos m) + e)).
  change (Z.pos (digits2_pos m)) with (Zdigits2 (Z.pos m)).
  rewrite Hf, Z.eqb_refl. cbn [andb].
  apply Z.leb_le. change (emax - prec) with 971. exact He.
Qed.

(** The float that holds the integer [k], [0 < k < 2^53], exactly. *)
Lemma int_float k :
  0 < k < 2 ^ 53 ->
  exists m e,
    canonical m e /\ -52 <= e <= 0 /\ Z.pos m = k * 2 ^ (- e).
Proof.
  intros Hk. set (d := Zdigits2 k).
  destruct (Zdigits2_bounds k ltac:(lia)) as [Hl Hu]. fold d in Hl, Hu.
  assert (Hd1 : 1 <= d) by (unfold d; destruct k; try lia; cbn; lia).
  assert (Hd : d <= 53).
  { destruct (Z.le_gt_cases d 53); [assumption|exfalso].
    assert (2 ^ 53 <= 2 ^ (d - 1)) by (apply Z.pow_le_mono_r; lia). lia. }
  assert (HB : 0 < 2 ^ (53 - d)) by (apply Z.pow_pos_nonneg; lia).
  set (M := k * 2 ^ (53 - d)).
  assert (HM : 0 < M) by (unfold M; nia).
  exists (Z.to_pos M), (d - 53).
  rewrite Z2Pos.id by exact HM.
  assert (HdM : Zdigits2 M = 53).
  { unfold M. rewrite Zdigits2_shift by lia. fold d. lia. }
  split; [|split; [lia|]].
  - apply canonical_intro; [|lia]. rewrite Z2Pos.id by exact HM.
    rewrite HdM, fexp_eq. lia.
  - unfold M. do 2 f_equal; lia.
Qed.

Lemma int_float_ceil m e k :
  canonical m e -> -52 <= e <= 0 -> Z.pos m = k * 2 ^ (- e) ->
  py_ceil (S754_finite false m e) = inr k.
Proof.
  intros Hc He Hm. rewrite py_ceil_sv by exact Hc. f_equal.
  cbn [sv cond_Zopp]. unfold scaled, emin.
  change (SpecFloat.emin prec emax) with (-1074). rewrite Hm.
  rewrite <- Z.mul_assoc, <- pow2_split by lia.
  replace (- e + (e - -1074)) with 1074 by lia.
  replace (- (k * 2 ^ 1074)) with (- k * 2 ^ 1074) by lia.
  rewrite Z.div_mul by (apply Z.pow_nonzero; lia). lia.
Qed.

(** The quotient of two positive finite values against an integer [k]:
    rounding preserves the comparison. *)
Lemma div_vs_int mx ex mc ec m e k :
  canonical mx ex -> canonical mc ec ->
  canonical m e -> -52 <= e <= 0 -> Z.pos m = k * 2 ^ (- e) ->
  let q := SFdiv prec emax (S754_finite false mx ex) (S754_finite false mc ec) in
  (k * scaled mc ec <= scaled mx ex ->
   lex_le (key (S754_finite false m e)) (key q))
  /\ (scaled mx ex <= k * scaled mc ec ->
      lex_le (key q) (key (S754_finite false m e))).
Proof.
  intros Hx Hc Hm He Ek q.
  destruct (canonical_facts _ _ Hx) as (_ & Hex & _).
  destruct (canonical_facts _ _ Hc) as (_ & Hec & _).
  destruct (canonical_facts _ _ Hm) as (Hfm & _).
  set (e0 := -1074 - 971 - 53 - 53 - 53).
  destruct (div_finite_at false mx ex mc ec e0 Hx Hc) as [E P]; try (unfold e0; lia).
  unfold q. rewrite E.
  pose proof (rnd_canonical false m e (e - e0) Hm ltac:(unfold e0; lia)) as EF.
  replace (e - (e - e0)) with e0 in EF by lia.
  rewrite <- EF.
  assert (PF : e0 <= rnd_exp (Z.pos m * 2 ^ (e - e0)) e0).
  { unfold rnd_exp. rewrite Zdigits2_shift by (unfold e0; lia).
    replace (Zdigits2 (Z.pos m) + (e - e0) + e0) with (Zdigits2 (Z.pos m) + e) by lia.
    rewrite Hfm. unfold e0. lia. }
  set (D := Z.pos mc * 2 ^ (ec - -1074)).
  assert (HD2 : 0 < 2 ^ (ec - -1074)) by (apply Z.pow_pos_nonneg; lia).
  assert (HD : 0 < D) by (unfold D; nia).
  set (N := Z.pos mx * 2 ^ (ex - -1074 - e0)).
  set (K := Z.pos m * 2 ^ (e - e0)).
  assert (HK : 0 < K).
  { assert (0 < 2 ^ (e - e0)) by (apply Z.pow_pos_nonneg; unfold e0; lia).
    unfold K. nia. }
  assert (EK : K = k * 2 ^ (- e0)).
  { unfold K. rewrite Ek, <- Z.mul_assoc, <- pow2_split by (unfold e0; lia).
    do 2 f_equal; lia. }
  assert (EN : N = Z.pos mx * 2 ^ (ex - -1074) * 2 ^ (- e0)).
  { unfold N. rewrite <- Z.mul_assoc, <- pow2_split by (unfold e0; lia).
    do 2 f_equal; lia. }
  assert (Cq : 4 * (Z.pos mx * 2 ^ (ex - ec - e0) / Z.pos mc)
               + loc_code (new_location (Z.pos mc)
                             ((Z.pos mx * 2 ^ (ex - ec - e0)) mod Z.pos mc))
               = 4 * (N / D) + loc_code (new_location D (N mod D))).
  { unfold D.
    rewrite <- (quotient_code_scale (Z.pos mx * 2 ^ (ex - ec - e0)) (Z.pos mc)
                  (2 ^ (ec - -1074))) by lia.
    replace (Z.pos mx * 2 ^ (ex - ec - e0) * 2 ^ (ec - -1074)) with N; [reflexivity|].
    unfold N. rewrite <- Z.mul_assoc, <- pow2_split by (unfold e0; lia).
    do 2 f_equal; lia. }
  assert (CK : 4 * K + loc_code loc_Exact
               = 4 * (K * D / D) + loc_code (new_location D ((K * D) mod D))).
  { rewrite Z.div_mul, Z.mod_mul by lia.
    rewrite new_location_code by lia. reflexivity. }
  assert (HP2 : 0 < 2 ^ (- e0)) by (apply Z.pow_pos_nonneg; unfold e0; lia).
  unfold scaled, emin. change (SpecFloat.emin prec emax) with (-1074).
  fold D K.
  split; intros Hle.
  - apply rnd_mono; [lia|exact PF|].
    rewrite CK, Cq. apply quotient_code_mono; [exact HD|].
    rewrite EK, EN. nia.
  - apply rnd_mono; [apply Z.div_pos; [|lia]|exact P|].
    + assert (0 < 2 ^ (ex - ec - e0)) by (apply Z.pow_pos_nonneg; unfold e0; lia). nia.
    + rewrite CK, Cq. apply quotient_code_mono; [exact HD|].
      rewrite EK, EN. nia.
Qed.

Lemma bars_within_one_sv A c n :
  fin_pos A -> fin_pos c ->
  py_ceil (SFdiv prec emax A c) = inr n -> n + 1 < 2 ^ 53 ->
  (n - 1) * sv c < sv A /\ sv A < (n + 1) * sv c.
Proof.
  intros HA Hc Hn Hb.
  assert (Hq : fin_nonneg (SFdiv prec emax A c)).
  { apply nonneg_finite_fin; [|apply (py_ceil_spec _ n Hn)].
    apply div_nonneg; [apply fin_nonneg_nonneg, fin_pos_nonneg|]; assumption. }
  pose proof (py_ceil_nonneg _ n (fin_nonneg_nonneg _ Hq) Hn) as Hn0.
  destruct A as [| | |[] mx ex]; cbn in HA; try contradiction.
  destruct c as [| | |[] mc ec]; cbn in Hc; try contradiction.
  cbn [sv cond_Zopp].
  pose proof (scaled_pos _ _ HA) as HX. pose proof (scaled_pos _ _ Hc) as HC.
  split.
  - destruct (Z.le_gt_cases n 1) as [H1|H1]; [nia|].
    destruct (Z.lt_ge_cases ((n - 1) * scaled mc ec) (scaled mx ex)) as [H|H];
      [exact H|exfalso].
    destruct (int_float (n - 1) ltac:(lia)) as (m & e & Hm & He & Em).
    destruct (div_vs_int mx ex mc ec m e (n - 1) HA Hc Hm He Em) as [_ K].
    specialize (K H).
    pose proof (py_ceil_mono _ (S754_finite false m e) n (n - 1)
                  (fin_nonneg_fin _ Hq) Hm K Hn
                  (int_float_ceil m e (n - 1) Hm He Em)). lia.
  - destruct (Z.lt_ge_cases (scaled mx ex) ((n + 1) * scaled mc ec)) as [H|H];
      [exact H|exfalso].
    destruct (int_float (n + 1) ltac:(lia)) as (m & e & Hm & He & Em).
    destruct (div_vs_int mx ex mc ec m e (n + 1) HA Hc Hm He Em) as [K _].
    specialize (K ltac:(lia)).
    pose proof (py_ceil_mono (S754_finite false m e) _ (n + 1) n Hm
                  (fin_nonneg_fin _ Hq) K
                  (int_float_ceil m e (n + 1) Hm He Em) Hn). lia.
Qed.

(** The exact value of a zero or finite float is its count of smallest
    subnormals. *)
Lemma to_Q_sv x :
  fin x -> (to_Q x == inject_Z (sv x) / inject_Z (2 ^ 1074))%Q.
Proof.
  intros Hx. destruct x as [s| | |s m e]; cbn in Hx; try contradiction.
  - cbn [to_Q sv]. unfold Qdiv. rewrite Qmult_0_l. reflexivity.
  - destruct (canonical_facts _ _ Hx) as (_ & He & _).
    assert (HP : 0 < 2 ^ 1074) by (apply Z.pow_pos_nonneg; lia).
    cbn [to_Q sv]. unfold scaled, emin. change (SpecFloat.emin prec emax) with (-1074).
    replace (if s then Z.neg m else Z.pos m) with (cond_Zopp s (Z.pos m))
      by (destruct s; reflexivity).
    rewrite <- cond_Zopp_mul. set (v := cond_Zopp s (Z.pos m)).
    apply Qmult_inj_r with (z := inject_Z (2 ^ 1074)).
    { intros H. unfold Qeq in H. cbn in H. lia. }
    unfold Qdiv. rewrite <- Qmult_assoc, (Qmult_comm (/ _)), Qmult_inv_r, Qmult_1_r
      by (intros H; unfold Qeq in H; cbn in H; lia).
    destruct (Z.leb_spec 0 e).
    + rewrite <- inject_Z_mult. apply inject_Z_injective.
      replace (e - -1074) with (e + 1074) by lia. rewrite pow2_split by lia. lia.
    + assert (HE : 0 < 2 ^ (- e)) by (apply Z.pow_pos_nonneg; lia).
      unfold Qeq, Qmult, inject_Z. cbn [Qnum Qden].
      rewrite Pos.mul_1_r, Z2Pos.id by exact HE. rewrite !Z.mul_1_r.
      replace (2 ^ 1074) with (2 ^ (e - -1074) * 2 ^ (- e))
        by (rewrite <- pow2_split by lia; f_equal; lia).
      lia.
Qed.

Lemma Qlt_scaled k X C P :
  0 < P ->
  (k * C < X ->
   (inject_Z k * (inject_Z C / inject_Z P) < inject_Z X / inject_Z P)%Q)
  /\ (X < k * C ->
      (inject_Z X / inject_Z P < inject_Z k * (inject_Z C / inject_Z P))%Q).
Proof.
  intros HP.
  assert (HPn : ~ (inject_Z P == 0)%Q) by (unfold Qeq; cbn; lia).
  assert (HPp : (0 < inject_Z P)%Q) by (unfold Qlt; cbn; lia).
  split; intros H.
  - apply Qmult_lt_r with (z := inject_Z P); [exact HPp|].
    unfold Qdiv. rewrite <- !Qmult_assoc, (Qmult_comm (/ _)), Qmult_inv_r, !Qmult_1_r
      by exact HPn.
    rewrite <- inject_Z_mult. rewrite <- Zlt_Qlt. exact H.
  - apply Qmult_lt_r with (z := inject_Z P); [exact HPp|].
    unfold Qdiv. rewrite <- !Qmult_assoc, (Qmult_comm (/ _)), Qmult_inv_r, !Qmult_1_r
      by exact HPn.
    rewrite <- inject_Z_mult. rewrite <- Zlt_Qlt. exact H.
Qed.
(** * Properties of the calculator and of the script *)

(** ** C1: the 20M row at the defaults *)

(** C1 (as stated, refuted): the dictionary returned for the defaults and the
    20M bar does not hold 250.25 under "d (mm)"; the value stored there is
    not equal to it. *)
Lemma C1_returned_depth_is_rounded :
  exists r,
    call_calc module_init default_inputs (bar20 default_inputs) = inr r
    /\ B64.eqb (r_d r) (B64.lit 25025 2) = false
    /\ B64.eqb (r_l_span r) (B64.lit 35625 2) = false
    /\ B64.eqb (r_l_add r) (B64.lit 35625 2) = false.
Proof.
  exists default_row_20M. vm_compute. repeat split.
Qed.

(** C1 (amended): for the defaults and the 20M bar the local variables are
    exactly 250.25, 312.0, 356.25, 356.25 (mm), 6.8 (in), 2872.25 and
    2226.0 (mm), and the returned row holds 25 bars, spacing 6.8 and the
    values rounded half-even: d 250.2, l_db 312.0, l_span 356.2,
    l_add 356.2, L_req 9.423, L_03ln 7.303, governing 9.423. *)
Theorem C1_default_20M :
  call_calc module_init default_inputs (bar20 default_inputs)
  = inr default_row_20M
  /\ n_bars default_inputs (bar20 default_inputs) = inr 25
  /\ spacing_in default_inputs 25 = inr (B64.lit 68 1)
  /\ d_effective_mm default_inputs (bar20 default_inputs) = B64.lit 25025 2
  /\ l_db_mm (bar20 default_inputs) = B64.lit 3120 1
  /\ l_span_mm default_inputs = B64.lit 35625 2
  /\ l_add_mm default_inputs (bar20 default_inputs) = B64.lit 35625 2
  /\ L_req_mm default_inputs (bar20 default_inputs) = B64.lit 287225 2
  /\ L_03ln_mm default_inputs (bar20 default_inputs) = B64.lit 22260 1
  /\ r_d default_row_20M = B64.lit 2502 1
  /\ r_l_span default_row_20M = B64.lit 3562 1
  /\ r_L_req default_row_20M = B64.lit 9423 3
  /\ r_L_03ln default_row_20M = B64.lit 7303 3
  /\ r_Governing default_row_20M = B64.lit 9423 3.
Proof. vm_compute. repeat split. Qed.

(** ** C2: the two maxima *)

(** C2: for finite non-negative inputs the returned row satisfies
    governing = max(L_req, L_03ln) and l_add = max(d, l_db, l_span) under
    [==], and l_add is at least each of d, l_db and l_span; the same
    inequalities hold between the local variables before rounding. *)
Theorem C2_row_maxima G i b r :
  constants_ok G -> inputs_ok i b -> call_calc G i b = inr r ->
  B64.eqb (r_Governing r) (py_max2 (r_L_req r) (r_L_03ln r)) = true
  /\ B64.eqb (r_l_add r) (py_max3 (r_d r) (r_l_db r) (r_l_span r)) = true
  /\ B64.leb (r_d r) (r_l_add r) = true
  /\ B64.leb (r_l_db r) (r_l_add r) = true
  /\ B64.leb (r_l_span r) (r_l_add r) = true
  /\ B64.leb (r_L_req r) (r_Governing r) = true
  /\ B64.leb (r_L_03ln r) (r_Governing r) = true
  /\ B64.leb (d_effective_mm i b) (l_add_mm i b) = true
  /\ B64.leb (l_db_mm b) (l_add_mm i b) = true
  /\ B64.leb (l_span_mm i) (l_add_mm i b) = true
  /\ B64.leb (L_req_ft i b) (governing_ft i b) = true
  /\ B64.leb (L_03ln_ft i b) (governing_ft i b) = true.
Proof.
  intros HG Hok H.
  destruct (call_calc_inv G i b r HG H) as (n & sp & _ & _ & ->).
  cbn [row_of r_Governing r_L_req r_L_03ln r_l_add r_d r_l_db r_l_span].
  pose proof (d_effective_wf i b Hok) as Wd.
  pose proof (above_wf _ (nonneg_above _ (l_db_nonneg i b Hok))) as Wdb.
  pose proof (above_wf _ (nonneg_above _ (l_span_nonneg i b Hok))) as Wsp.
  pose proof (l_add_wf i b Hok) as Wadd.
  pose proof (L_req_ft_wf i b Hok) as Wreq.
  pose proof (L_03ln_ft_wf i b Hok) as W03.
  pose proof (governing_ft_wf i b Hok) as Wgov.
  destruct (py_max3_key _ _ _ Wd Wdb Wsp) as (K1 & K2 & K3).
  destruct (py_max2_key _ _ Wreq W03) as (K4 & K5).
  unfold B64.eqb, B64.leb. fold (l_add_mm i b) in K1, K2, K3.
  fold (governing_ft i b) in K4, K5.
  assert (Hnd1 : 0 <= 1) by lia. assert (Hnd3 : 0 <= 3) by lia.
  repeat split.
  - apply eqb_of_key; auto using py_round_wf, py_max2_wf.
    unfold governing_ft. apply py_round_max2; auto.
  - apply eqb_of_key; auto using py_round_wf, py_max3_wf.
    unfold l_add_mm. apply py_round_max3; auto.
  - apply leb_of_key; auto using py_round_wf, py_round_mono.
  - apply leb_of_key; auto using py_round_wf, py_round_mono.
  - apply leb_of_key; auto using py_round_wf, py_round_mono.
  - apply leb_of_key; auto using py_round_wf, py_round_mono.
  - apply leb_of_key; auto using py_round_wf, py_round_mono.
  - apply leb_of_key; auto.
  - apply leb_of_key; auto.
  - apply leb_of_key; auto.
  - apply leb_of_key; auto.
  - apply leb_of_key; auto.
Qed.

Lemma default_inputs_ok : inputs_ok default_inputs (bar20 default_inputs).
Proof. unfold inputs_ok. repeat split. Defined.

Lemma C2_row_maxima_witness :
  B64.eqb (r_Governing default_row_20M)
    (py_max2 (r_L_req default_row_20M) (r_L_03ln default_row_20M)) = true
  /\ B64.leb (r_d default_row_20M) (r_l_add default_row_20M) = true.
Proof.
  pose proof (C2_row_maxima module_init default_inputs (bar20 default_inputs)
                default_row_20M eq_refl default_inputs_ok
                ltac:(vm_compute; reflexivity)) as H.
  split; [apply H|]. apply H.
Defined.

(** ** C3: the bar count *)

(** C3 (as stated, refuted): with A_s = 1728.000000000001 and an area per
    bar of 192.00000000000009 the function returns 9 bars, yet nine bars
    fall short of the required area, in exact arithmetic and in floating
    point alike: the quotient was rounded down to 9.0 before the
    ceiling. *)
Lemma C3_nine_bars_fall_short :
  exists r,
    call_calc module_init rounded_quotient_inputs (bar10 rounded_quotient_inputs)
    = inr r
    /\ r_Bars r = 9
    /\ (inject_Z (r_Bars r) * B64.to_Q (A10 rounded_quotient_inputs)
        < B64.to_Q (A_s rounded_quotient_inputs))%Q
    /\ B64.ltb (B64.mul (B64.of_Z (r_Bars r)) (A10 rounded_quotient_inputs))
         (A_s rounded_quotient_inputs) = true.
Proof.
  eexists. split; [vm_compute; reflexivity|]. vm_compute. repeat split.
Qed.

(** C3 (amended): the bar count is 0 when A_s is zero; otherwise it is the
    least integer not below the binary64 quotient
    A_s / max(area_per_bar, 1e-9), which is finite whenever a row is
    returned; it is never negative. *)
Theorem C3_bar_count G i b r :
  constants_ok G -> inputs_ok i b -> call_calc G i b = inr r ->
  0 <= r_Bars r
  /\ (B64.eqb (A_s i) B64.zero = true -> r_Bars r = 0)
  /\ (B64.ltb B64.zero (A_s i) = true ->
      B64.is_finite (bar_quotient i b) = true
      /\ (inject_Z (r_Bars r) - 1 < B64.to_Q (bar_quotient i b))%Q
      /\ (B64.to_Q (bar_quotient i b) <= inject_Z (r_Bars r))%Q).
Proof.
  intros HG Hok H.
  destruct (call_calc_inv G i b r HG H) as (n & sp & Hn & _ & ->).
  cbn [row_of r_Bars].
  assert (HA : fin_nonneg (A_s i)) by apply Hok.
  assert (Ha : fin_nonneg (area b)) by apply Hok.
  rewrite n_bars_eq in Hn by exact Ha.
  pose proof (bar_quotient_nonneg i b HA Ha) as Hq.
  unfold py_gt in Hn.
  destruct (B64.ltb B64.zero (A_s i)) eqn:Hgt.
  - split; [eapply py_ceil_nonneg; eauto|]. split.
    + intros Hz. destruct (A_s i) as [s| | |[] m e]; cbn in HA, Hz, Hgt;
        try contradiction; discriminate.
    + intros _. apply py_ceil_spec. exact Hn.
  - unfold ret in Hn. injection Hn as <-. split; [lia|]. split; [reflexivity|].
    discriminate.
Qed.

Lemma C3_bar_count_witness :
  0 <= r_Bars default_row_20M
  /\ (inject_Z 25 - 1
      < B64.to_Q (bar_quotient default_inputs (bar20 default_inputs)))%Q.
Proof.
  pose proof (C3_bar_count module_init default_inputs (bar20 default_inputs)
                default_row_20M eq_refl default_inputs_ok
                ltac:(vm_compute; reflexivity)) as H.
  destruct H as (H1 & _ & H3). split; [exact H1|].
  exact (proj1 (proj2 (H3 eq_refl))).
Defined.

(** ** C4: the thin slab *)

(** C4 (as stated, refuted): with t_slab = 30 and everything else at its
    default, the negative-depth warning is emitted for the 10M bar too. *)
Lemma C4_warning_for_10M :
  exists G,
    script thin_slab_inputs = inr G
    /\ warns_negative_depth "10M" (warns G).
Proof.
  eexists. split; [vm_compute; reflexivity|].
  eexists. left. reflexivity.
Qed.

(** C4 (amended): with t_slab = 30 and everything else at its default,
    the warnings are exactly the five negative-depth warnings, one per bar
    in table order, with depths -15.6, -18.0, -19.8, -22.6 and -24.9. *)
Theorem C4_thin_slab_warnings :
  exists G,
    script thin_slab_inputs = inr G
    /\ warns G =
       [ NegativeDepth "10M" (B64.opp (B64.lit 156 1));
         NegativeDepth "15M" (B64.opp (B64.lit 180 1));
         NegativeDepth "20M" (B64.opp (B64.lit 198 1));
         NegativeDepth "25M" (B64.opp (B64.lit 226 1));
         NegativeDepth "30M" (B64.opp (B64.lit 249 1)) ].
Proof. eexists. split; vm_compute; reflexivity. Qed.

(** ** C6: the spacing *)

(** C6 (as stated, refuted): for the defaults and the 10M bar, 75 bars, the
    row's spacing is 2.21 and not the quotient 13.6*12/74. *)
Lemma C6_spacing_is_rounded :
  exists r,
    call_calc module_init default_inputs (bar10 default_inputs) = inr r
    /\ r_Bars r = 75
    /\ r_Spacing r = Some (B64.lit 221 2)
    /\ B64.eqb (B64.lit 221 2)
         (B64.div (B64.mul (L_wall_ft default_inputs) lit_12_0)
            (B64.of_Z (r_Bars r - 1))) = false.
Proof.
  eexists. split; [vm_compute; reflexivity|]. vm_compute. repeat split.
Qed.

(** C6 (amended): the row's spacing is undefined exactly when the bar count
    is below 2; from 2 bars on the local variable is the binary64 quotient
    (L_wall * 12.0) / float(n - 1), never NaN, and the row holds it rounded
    half-even to two decimals. *)
Theorem C6_spacing G i b r :
  constants_ok G -> inputs_ok i b -> call_calc G i b = inr r ->
  (r_Spacing r = None <-> r_Bars r < 2)
  /\ (2 <= r_Bars r ->
      let s := B64.div (B64.mul (L_wall_ft i) lit_12_0) (B64.of_Z (r_Bars r - 1)) in
      spacing_in i (r_Bars r) = inr s
      /\ B64.is_nan s = false
      /\ r_Spacing r = Some (py_round s 2)).
Proof.
  intros HG Hok H.
  destruct (call_calc_inv G i b r HG H) as (n & sp & _ & Hs & ->).
  cbn [row_of r_Bars r_Spacing].
  assert (HL : fin_nonneg (L_wall_ft i)) by apply Hok.
  destruct (spacing_in_inv i n sp HL Hs) as [[Hn ->]|(Hn & Hnn & E)].
  - cbn. split; [tauto|lia].
  - assert (Hnan : B64.is_nan sp = false)
      by (apply wf_not_nan, above_wf, nonneg_above; exact Hnn).
    rewrite Hnan. split.
    + split; [discriminate|lia].
    + intros _. cbv zeta. rewrite <- E. auto.
Qed.

Lemma C6_spacing_witness :
  (r_Spacing default_row_20M = None <-> r_Bars default_row_20M < 2)
  /\ r_Spacing default_row_20M
     = Some (py_round (B64.div (B64.mul (L_wall_ft default_inputs) lit_12_0)
                         (B64.of_Z (25 - 1))) 2).
Proof.
  pose proof (C6_spacing module_init default_inputs (bar20 default_inputs)
                default_row_20M eq_refl default_inputs_ok
                ltac:(vm_compute; reflexivity)) as H.
  destruct H as (H1 & H2). split; [exact H1|].
  exact (proj2 (proj2 (H2 ltac:(vm_compute; discriminate)))).
Defined.

(** ** C7: exceptions *)

Lemma overflow_inputs_ok : inputs_ok overflow_inputs (bar10 overflow_inputs).
Proof. unfold inputs_ok. repeat split. Qed.

(** C7 (the code raises): A_s = 1e300 with an area per bar of 0.0 is a
    finite non-negative input; the floored quotient 1e300 / 1e-9 overflows
    to infinity and [math.ceil] raises OverflowError, so no row is returned
    and the run of the script ends there. *)
Theorem C7_overflow_raises :
  inputs_ok overflow_inputs (bar10 overflow_inputs)
  /\ bar_quotient overflow_inputs (bar10 overflow_inputs) = S754_infinity false
  /\ call_calc module_init overflow_inputs (bar10 overflow_inputs)
     = inl OverflowError
  /\ script overflow_inputs = inl OverflowError.
Proof.
  split; [exact overflow_inputs_ok|]. vm_compute. repeat split.
Qed.

(** ** C5: the negative-depth warning *)

(** C5 (as stated, refuted): with t_slab = 40 and a 10M diameter of 0.08
    the effective depth of the 10M bar is strictly negative (about -0.04),
    the run completes, and no negative-depth warning is emitted for 10M:
    the row holds the depth rounded to -0.0, which is not below zero. *)
Lemma C5_small_negative_depth_unwarned :
  exists G,
    script shallow_inputs = inr G
    /\ B64.ltb (d_effective_mm shallow_inputs (bar10 shallow_inputs)) B64.zero
       = true
    /\ ~ warns_negative_depth "10M" (warns G).
Proof.
  eexists. split; [vm_compute; reflexivity|]. split; [vm_compute; reflexivity|].
  intros [d H]. cbn in H.
  repeat (destruct H as [H|H]; [discriminate H|]). exact H.
Qed.

(** C5 (amended): the rows hold the effective depth already rounded to one
    decimal, and the warning for a bar is emitted exactly when that rounded
    value is below zero.  Hence it is emitted only if the un-rounded depth
    is strictly negative, and it is emitted whenever the un-rounded depth
    is at most -0.05. *)
Theorem C5_negative_depth_warning i G :
  script i = inr G ->
  (forall b, In b (bars i) -> inputs_ok i b) ->
  forall b, In b (bars i) ->
    (warns_negative_depth (label b) (warns G)
     <-> B64.ltb (py_round (d_effective_mm i b) 1) B64.zero = true)
    /\ (warns_negative_depth (label b) (warns G) ->
        B64.ltb (d_effective_mm i b) B64.zero = true)
    /\ (B64.leb (d_effective_mm i b) (B64.opp lit_0_05) = true ->
        warns_negative_depth (label b) (warns G)).
Proof.
  intros H Hok b Hb.
  assert (Hiff : warns_negative_depth (label b) (warns G)
                 <-> B64.ltb (py_round (d_effective_mm i b) 1) B64.zero = true).
  { apply script_inv in H.
    destruct H as (r1 & r2 & r3 & r4 & r5 & -> & -> & H1 & H2 & H3 & H4 & H5).
    apply call_calc_inv in H1; [|reflexivity]. destruct H1 as (n1 & s1 & _ & _ & ->).
    apply call_calc_inv in H2; [|reflexivity]. destruct H2 as (n2 & s2 & _ & _ & ->).
    apply call_calc_inv in H3; [|reflexivity]. destruct H3 as (n3 & s3 & _ & _ & ->).
    apply call_calc_inv in H4; [|reflexivity]. destruct H4 as (n4 & s4 & _ & _ & ->).
    apply call_calc_inv in H5; [|reflexivity]. destruct H5 as (n5 & s5 & _ & _ & ->).
    rewrite flat_map_warnings_negative. unfold py_lt.
    assert (Hfwd : forall b0,
              (exists r,
                 In r [row_of i (bar10 i) n1 s1; row_of i (bar15 i) n2 s2;
                       row_of i (bar20 i) n3 s3; row_of i (bar25 i) n4 s4;
                       row_of i (bar30 i) n5 s5]
                 /\ r_Bar r = label b0 /\ B64.ltb (r_d r) B64.zero = true) ->
              In b0 (bars i) ->
              B64.ltb (py_round (d_effective_mm i b0) 1) B64.zero = true).
    { intros b0 (r & Hr & Hl & Hd) Hb0. cbn in Hr, Hb0.
      destruct Hb0 as [<-|[<-|[<-|[<-|[<-|[]]]]]];
        destruct Hr as [<-|[<-|[<-|[<-|[<-|[]]]]]];
        cbn [row_of r_Bar label bar10 bar15 bar20 bar25 bar30] in Hl;
        try discriminate Hl; exact Hd. }
    split; [intros W; apply Hfwd; assumption|].
    intros Hd. cbn in Hb.
    destruct Hb as [<-|[<-|[<-|[<-|[<-|[]]]]]].
    - exists (row_of i (bar10 i) n1 s1). split; [cbn; tauto|]. split; [reflexivity|exact Hd].
    - exists (row_of i (bar15 i) n2 s2). split; [cbn; tauto|]. split; [reflexivity|exact Hd].
    - exists (row_of i (bar20 i) n3 s3). split; [cbn; tauto|]. split; [reflexivity|exact Hd].
    - exists (row_of i (bar25 i) n4 s4). split; [cbn; tauto|]. split; [reflexivity|exact Hd].
    - exists (row_of i (bar30 i) n5 s5). split; [cbn; tauto|]. split; [reflexivity|exact Hd]. }
  pose proof (round1_negative (d_effective_mm i b)
                (d_effective_wf i b (Hok b Hb))) as [R1 R2].
  split; [exact Hiff|]. split.
  - intros W. apply R1, Hiff, W.
  - intros L. apply Hiff, R2, L.
Qed.

Lemma thin_slab_inputs_ok :
  forall b, In b (bars thin_slab_inputs) -> inputs_ok thin_slab_inputs b.
Proof.
  intros b Hb. cbn in Hb.
  destruct Hb as [<-|[<-|[<-|[<-|[<-|[]]]]]]; unfold inputs_ok; repeat split.
Defined.

Lemma C5_negative_depth_warning_witness :
  script thin_slab_inputs = inr thin_slab_result
  /\ B64.leb (d_effective_mm thin_slab_inputs (bar30 thin_slab_inputs))
       (B64.opp lit_0_05) = true
  /\ warns_negative_depth "30M" (warns thin_slab_result).
Proof.
  assert (E : script thin_slab_inputs = inr thin_slab_result)
    by (vm_compute; reflexivity).
  assert (L : B64.leb (d_effective_mm thin_slab_inputs (bar30 thin_slab_inputs))
                (B64.opp lit_0_05) = true) by (vm_compute; reflexivity).
  split; [exact E|]. split; [exact L|].
  exact (proj2 (proj2 (C5_negative_depth_warning thin_slab_inputs thin_slab_result
                         E thin_slab_inputs_ok (bar30 thin_slab_inputs)
                         (or_intror (or_intror (or_intror (or_intror
                            (or_introl eq_refl))))))) L).
Defined.

(** ** C8: the table *)

(** C8: a completed run leaves exactly five rows, for 10M, 15M, 20M, 25M
    and 30M in that order, each the result of [calc_for_bar] on the global
    inputs and that bar's entry; a row depends on nothing else, so two runs
    on the same global inputs agree on every row whose bar entry is the
    same. *)
Theorem C8_result_table i G :
  script i = inr G ->
  (exists r10 r15 r20 r25 r30,
     rows G = [r10; r15; r20; r25; r30]
     /\ call_calc module_init i (bar10 i) = inr r10
     /\ call_calc module_init i (bar15 i) = inr r15
     /\ call_calc module_init i (bar20 i) = inr r20
     /\ call_calc module_init i (bar25 i) = inr r25
     /\ call_calc module_init i (bar30 i) = inr r30)
  /\ map r_Bar (rows G) = ["10M"; "15M"; "20M"; "25M"; "30M"]%string
  /\ (forall i' G' k,
        same_globals i i' ->
        nth_error (bars i) k = nth_error (bars i') k ->
        script i' = inr G' ->
        nth_error (rows G) k = nth_error (rows G') k).
Proof.
  intros H. apply script_inv in H.
  destruct H as (r1 & r2 & r3 & r4 & r5 & ER & _ & H1 & H2 & H3 & H4 & H5).
  split; [exists r1, r2, r3, r4, r5; tauto|]. split.
  - rewrite ER. cbn [map].
    rewrite (call_calc_label _ _ _ _ H1), (call_calc_label _ _ _ _ H2),
      (call_calc_label _ _ _ _ H3), (call_calc_label _ _ _ _ H4),
      (call_calc_label _ _ _ _ H5). reflexivity.
  - intros i' G' k Hg Hk H'. apply script_inv in H'.
    destruct H' as (q1 & q2 & q3 & q4 & q5 & ER' & _ & Q1 & Q2 & Q3 & Q4 & Q5).
    rewrite ER, ER'.
    rewrite <- (call_calc_same_globals module_init i i' (bar10 i') Hg) in Q1.
    rewrite <- (call_calc_same_globals module_init i i' (bar15 i') Hg) in Q2.
    rewrite <- (call_calc_same_globals module_init i i' (bar20 i') Hg) in Q3.
    rewrite <- (call_calc_same_globals module_init i i' (bar25 i') Hg) in Q4.
    rewrite <- (call_calc_same_globals module_init i i' (bar30 i') Hg) in Q5.
    destruct k as [|[|[|[|[|k]]]]]; cbn [nth_error bars] in Hk |- *;
      try reflexivity.
    + assert (Hb : bar10 i = bar10 i') by (unfold bar10; congruence).
      rewrite Hb in H1. congruence.
    + assert (Hb : bar15 i = bar15 i') by (unfold bar15; congruence).
      rewrite Hb in H2. congruence.
    + assert (Hb : bar20 i = bar20 i') by (unfold bar20; congruence).
      rewrite Hb in H3. congruence.
    + assert (Hb : bar25 i = bar25 i') by (unfold bar25; congruence).
      rewrite Hb in H4. congruence.
    + assert (Hb : bar30 i = bar30 i') by (unfold bar30; congruence).
      rewrite Hb in H5. congruence.
Qed.

Lemma C8_result_table_witness :
  script default_inputs = inr default_result
  /\ map r_Bar (rows default_result) = ["10M"; "15M"; "20M"; "25M"; "30M"]%string
  /\ nth_error (rows default_result) 2 = nth_error (rows other_30M_result) 2.
Proof.
  assert (E : script default_inputs = inr default_result)
    by (vm_compute; reflexivity).
  assert (E' : script other_30M_inputs = inr other_30M_result)
    by (vm_compute; reflexivity).
  assert (Hg : same_globals default_inputs other_30M_inputs)
    by (unfold same_globals; repeat split).
  split; [exact E|].
  destruct (C8_result_table default_inputs default_result E) as (_ & H2 & H3).
  split; [exact H2|].
  exact (H3 other_30M_inputs other_30M_result 2%nat Hg eq_refl E').
Defined.

(** ** C9: determinism *)

(** C9: [calc_for_bar] returns the same result for the same eleven
    arguments in whatever state of a run it is called: of the namespace it
    reads the constant MM_PER_FT only, which no statement of the run
    assigns, and it returns no namespace, so it writes none. *)
Theorem C9_deterministic G1 G2
  (A_s_mm2 L_wall t_wall d_c l_inf L_s t_slab : float) (bar_label : string)
  (dia_mm area_mm2 hook_mm : float) :
  reachable G1 -> reachable G2 ->
  calc_for_bar G1 A_s_mm2 L_wall t_wall d_c l_inf L_s t_slab bar_label
    dia_mm area_mm2 hook_mm
  = calc_for_bar G2 A_s_mm2 L_wall t_wall d_c l_inf L_s t_slab bar_label
      dia_mm area_mm2 hook_mm.
Proof.
  intros R1 R2. apply calc_for_bar_namespace.
  rewrite (reachable_constants G1 R1), (reachable_constants G2 R2). reflexivity.
Qed.

Lemma C9_deterministic_witness :
  call_calc module_init default_inputs (bar20 default_inputs)
  = call_calc
      (append_warning (OnlyBarsComputed "10M" 0)
         (append_row default_row_20M module_init))
      default_inputs (bar20 default_inputs).
Proof.
  unfold call_calc. apply C9_deterministic.
  - exact reach_init.
  - exact (reach_warning _ _ (reach_row _ _ reach_init)).
Defined.

(** ** C10: the add-on is never negative *)

Lemma nonneg_leb_zero x : nonneg x -> B64.leb B64.zero x = true.
Proof. destruct x as [s|[]| |[] m e]; cbn; try contradiction; reflexivity. Qed.

(** C10: for finite non-negative inputs l_db = 16 * dia is not negative, so
    neither is the add-on l_add, whatever the sign of the effective depth,
    and the required length is not below the length computed without the
    add-on, l_inf * 1000 + t_wall + hook - d_c: in mm, after the conversion
    to feet, and in the rounded value stored in the row.  The add-on stored
    in the row is not negative either. *)
Theorem C10_add_on_nonneg G i b r :
  constants_ok G -> inputs_ok i b -> call_calc G i b = inr r ->
  B64.leb B64.zero (l_db_mm b) = true
  /\ B64.leb B64.zero (l_add_mm i b) = true
  /\ B64.leb (base_mm i b) (L_req_mm i b) = true
  /\ B64.leb (B64.div (base_mm i b) lit_304_8) (L_req_ft i b) = true
  /\ B64.leb (py_round (B64.div (base_mm i b) lit_304_8) 3) (r_L_req r) = true
  /\ B64.leb B64.zero (r_l_add r) = true.
Proof.
  intros HG Hok H.
  destruct (call_calc_inv G i b r HG H) as (n & sp & _ & _ & ->).
  cbn [row_of r_l_add r_L_req].
  pose proof (l_add_nonneg i b Hok) as Ha.
  pose proof (l_add_wf i b Hok) as Wa.
  destruct (L_req_mm_above i b Hok) as [Wr Hr].
  pose proof (above_wf _ (base_above i b Hok)) as Wb.
  apply above_wf in Wr.
  assert (Hk : lex_le (key (B64.div (base_mm i b) lit_304_8))
                 (key (L_req_ft i b))).
  { unfold L_req_ft, B64.div. apply div_mono; auto with lits.
    apply leb_key; auto using wf_not_nan. }
  assert (Wbf : wf (B64.div (base_mm i b) lit_304_8))
    by (unfold B64.div; apply div_wf; auto with lits).
  pose proof (L_req_ft_wf i b Hok) as Wrf.
  split; [apply nonneg_leb_zero, (l_db_nonneg i b Hok)|].
  split; [apply nonneg_leb_zero, Ha|].
  split; [exact Hr|].
  split; [apply leb_of_key; assumption|].
  split.
  - apply leb_of_key; [apply py_round_wf; [lia|assumption]..|].
    apply py_round_mono; [lia|assumption..].
  - apply leb_of_key; [exact I|apply py_round_wf; [lia|exact Wa]|].
    apply (py_round_sign (l_add_mm i b) 1); [lia|].
    apply nonneg_key_iff; assumption.
Qed.

Lemma C10_add_on_nonneg_witness :
  B64.ltb (d_effective_mm thin_slab_inputs (bar30 thin_slab_inputs)) B64.zero
  = true
  /\ B64.leb B64.zero (l_add_mm thin_slab_inputs (bar30 thin_slab_inputs)) = true
  /\ B64.leb (base_mm thin_slab_inputs (bar30 thin_slab_inputs))
       (L_req_mm thin_slab_inputs (bar30 thin_slab_inputs)) = true
  /\ B64.leb
       (B64.div (base_mm thin_slab_inputs (bar30 thin_slab_inputs)) lit_304_8)
       (L_req_ft thin_slab_inputs (bar30 thin_slab_inputs)) = true.
Proof.
  split; [vm_compute; reflexivity|].
  destruct (call_calc module_init thin_slab_inputs (bar30 thin_slab_inputs))
    as [e|r] eqn:E; [vm_compute in E; discriminate E|].
  destruct (C10_add_on_nonneg module_init thin_slab_inputs (bar30 thin_slab_inputs)
              r eq_refl
              (thin_slab_inputs_ok _ (or_intror (or_intror (or_intror (or_intror
                 (or_introl eq_refl)))))) E) as (_ & H2 & H3 & H4 & _).
  repeat split; assumption.
Defined.

(** * Further properties of the calculator and of the script *)


Lemma low_area_inputs_ok :
  forall b, In b (bars low_area_inputs) -> inputs_ok low_area_inputs b.
Proof.
  intros b Hb. cbn in Hb.
  destruct Hb as [<-|[<-|[<-|[<-|[<-|[]]]]]]; unfold inputs_ok; repeat split.
Defined.

(** ** Exceptions *)

(** X1: a call of [calc_for_bar] on finite inputs that are not negative
    either returns a row or raises OverflowError, never another
    exception; it raises exactly when the required area is positive and
    its quotient by the floored area per bar overflows to [inf]. *)
Theorem X1_calc_raises_only_overflow G i b :
  constants_ok G -> inputs_ok i b ->
  (forall e, call_calc G i b = inl e ->
     e = OverflowError
     /\ B64.ltb B64.zero (A_s i) = true
     /\ bar_quotient i b = S754_infinity false)
  /\ (B64.ltb B64.zero (A_s i) = true ->
      bar_quotient i b = S754_infinity false ->
      call_calc G i b = inl OverflowError)
  /\ (B64.is_finite (bar_quotient i b) = true ->
      exists r, call_calc G i b = inr r).
Proof.
  intros HG Hok.
  destruct (call_calc_returns_iff G i b HG Hok) as [Hiff Hov].
  assert (HA : fin_nonneg (A_s i)) by apply Hok.
  assert (Ha : fin_nonneg (area b)) by apply Hok.
  pose proof (bar_quotient_nonneg i b HA Ha) as Hq.
  split; [|split].
  - intros e He.
    destruct (B64.ltb B64.zero (A_s i)) eqn:L.
    + destruct (B64.is_finite (bar_quotient i b)) eqn:F.
      * destruct (proj2 Hiff (fun _ => eq_refl)) as [r Hr].
        rewrite Hr in He. discriminate He.
      * rewrite (Hov eq_refl eq_refl) in He. injection He as <-.
        repeat split.
        destruct (bar_quotient i b) as [s|[]| |[] m e]; cbn in Hq, F;
          try contradiction; try discriminate F; reflexivity.
    + destruct (proj2 Hiff ltac:(discriminate)) as [r Hr].
      rewrite Hr in He. discriminate He.
  - intros L E. apply Hov; [exact L|]. rewrite E. reflexivity.
  - intros F. apply Hiff. intros _. exact F.
Qed.

Lemma X1_calc_raises_only_overflow_witness :
  call_calc module_init overflow_inputs (bar10 overflow_inputs)
  = inl OverflowError.
Proof.
  destruct (X1_calc_raises_only_overflow module_init overflow_inputs (bar10 overflow_inputs) eq_refl
              ltac:(unfold inputs_ok; repeat split)) as (_ & H & _).
  apply H; vm_compute; reflexivity.
Defined.

(** X2: a row is returned whenever the required area is at most [1e299]
    or the area per bar is at least [1.0]. *)
Theorem X2_calc_returns_in_range G i b :
  constants_ok G -> inputs_ok i b ->
  B64.leb (A_s i) lit_1e299 = true \/ B64.leb lit_1_0 (area b) = true ->
  exists r, call_calc G i b = inr r.
Proof.
  intros HG Hok H.
  apply (call_calc_returns_iff G i b HG Hok). intros _.
  assert (F : fin_nonneg (bar_quotient i b))
    by (apply bar_quotient_finite; auto; apply Hok).
  destruct (bar_quotient i b) as [s|[]| |[] m e]; cbn in F; try contradiction;
    reflexivity.
Qed.

Lemma X2_calc_returns_in_range_witness :
  exists r, call_calc module_init default_inputs (bar20 default_inputs) = inr r.
Proof.
  apply (X2_calc_returns_in_range module_init default_inputs (bar20 default_inputs) eq_refl
           ltac:(unfold inputs_ok; repeat split)).
  left. vm_compute. reflexivity.
Defined.



(** ** The bar count *)

(** X4: a larger required area or a smaller area per bar never gives fewer
    bars. *)
Theorem X4_bar_count_monotone G i i' b b' r r' :
  constants_ok G -> inputs_ok i b -> inputs_ok i' b' ->
  B64.leb (A_s i) (A_s i') = true ->
  B64.leb (area b') (area b) = true ->
  call_calc G i b = inr r -> call_calc G i' b' = inr r' ->
  r_Bars r <= r_Bars r'.
Proof.
  intros HG Hok Hok' H1 H2 E E'.
  destruct (call_calc_inv G i b r HG E) as (n & sp & Hn & _ & ->).
  destruct (call_calc_inv G i' b' r' HG E') as (n' & sp' & Hn' & _ & ->).
  cbn [row_of r_Bars].
  apply (n_bars_mono i i' b b'); auto; try apply Hok; apply Hok'.
Qed.

Lemma X4_bar_count_monotone_witness : r_Bars default_row_25M <= r_Bars default_row_20M.
Proof.
  apply (X4_bar_count_monotone module_init default_inputs default_inputs
           (bar25 default_inputs) (bar20 default_inputs)
           default_row_25M default_row_20M eq_refl
           ltac:(unfold inputs_ok; repeat split)
           ltac:(unfold inputs_ok; repeat split));
    vm_compute; reflexivity.
Defined.

(** X5: the bar count differs from the exact quotient of the required
    area by the floored area per bar by less than one: it is the exact
    ceiling or, when the division rounds down across an integer, one
    less. *)
Theorem X5_bar_count_within_one G i b r :
  constants_ok G -> inputs_ok i b -> call_calc G i b = inr r ->
  B64.ltb B64.zero (A_s i) = true -> r_Bars r + 1 < 2 ^ 53 ->
  ((inject_Z (r_Bars r) - 1) * B64.to_Q (py_max2 (area b) lit_1e_9)
   < B64.to_Q (A_s i))%Q
  /\ (B64.to_Q (A_s i)
      < (inject_Z (r_Bars r) + 1) * B64.to_Q (py_max2 (area b) lit_1e_9))%Q.
Proof.
  intros HG Hok E HA0 Hb.
  destruct (call_calc_inv G i b r HG E) as (n & sp & En & _ & ->).
  cbn [row_of r_Bars] in Hb |- *.
  assert (HA : fin_nonneg (A_s i)) by apply Hok.
  assert (Ha : fin_nonneg (area b)) by apply Hok.
  pose proof (max_floor_pos (area b) Ha) as Hc.
  rewrite n_bars_eq in En by exact Ha.
  unfold py_gt in En. rewrite HA0 in En.
  assert (HAp : fin_pos (A_s i)).
  { destruct (A_s i) as [s| | |[] m e]; cbn in HA, HA0 |- *; try contradiction;
      try discriminate HA0; exact HA. }
  destruct (bars_within_one_sv _ _ n HAp Hc En Hb) as [L U].
  assert (HP : 0 < 2 ^ 1074) by (apply Z.pow_pos_nonneg; lia).
  rewrite (to_Q_sv (A_s i)) by (apply fin_nonneg_fin; exact HA).
  rewrite (to_Q_sv (py_max2 (area b) lit_1e_9))
    by (apply fin_nonneg_fin, fin_pos_nonneg; exact Hc).
  replace (inject_Z n - 1)%Q with (inject_Z (n - 1))
    by (unfold Z.sub; rewrite inject_Z_plus; reflexivity).
  replace (inject_Z n + 1)%Q with (inject_Z (n + 1))
    by (rewrite inject_Z_plus; reflexivity).
  split; apply Qlt_scaled; assumption.
Qed.

Lemma X5_bar_count_within_one_witness :
  ((inject_Z 25 - 1) * B64.to_Q (B64.lit 3000 1) < B64.to_Q (B64.lit 74160 1))%Q
  /\ (B64.to_Q (B64.lit 74160 1)
      < (inject_Z 25 + 1) * B64.to_Q (B64.lit 3000 1))%Q.
Proof.
  apply (X5_bar_count_within_one module_init default_inputs (bar20 default_inputs)
           default_row_20M eq_refl ltac:(unfold inputs_ok; repeat split));
    vm_compute; reflexivity.
Defined.

(** X6: a required area of at least one (floored) bar area gives at least
    one bar, and one of at most one bar area gives at most one bar, hence
    no spacing. *)
Theorem X6_one_bar_threshold G i b r :
  constants_ok G -> inputs_ok i b -> call_calc G i b = inr r ->
  (B64.leb (py_max2 (area b) lit_1e_9) (A_s i) = true -> 1 <= r_Bars r)
  /\ (B64.leb (A_s i) (py_max2 (area b) lit_1e_9) = true ->
      r_Bars r <= 1 /\ r_Spacing r = None).
Proof.
  intros HG Hok E.
  destruct (call_calc_inv G i b r HG E) as (n & sp & En & Es & ->).
  cbn [row_of r_Bars r_Spacing].
  assert (HA : fin_nonneg (A_s i)) by apply Hok.
  assert (Ha : fin_nonneg (area b)) by apply Hok.
  assert (HL : fin_nonneg (L_wall_ft i)) by apply Hok.
  pose proof (max_floor_pos (area b) Ha) as Hc.
  pose proof (n_bars_nonneg i b n HA Ha En) as Hn0.
  rewrite n_bars_eq in En by exact Ha.
  assert (K1 : key (SFdiv prec emax (py_max2 (area b) lit_1e_9)
                      (py_max2 (area b) lit_1e_9)) = key lit_1_0)
    by (rewrite div_self by exact Hc; reflexivity).
  split.
  - intros H.
    assert (G0 : py_gt (A_s i) B64.zero = true)
      by (apply (ge_pos_gt_zero (py_max2 (area b) lit_1e_9)); assumption).
    rewrite G0 in En.
    apply (py_ceil_mono lit_1_0 (bar_quotient i b) 1 n); auto using py_ceil_one.
    + reflexivity.
    + apply fin_nonneg_fin, (n_bars_quotient_fin i b n); assumption.
    + rewrite <- K1. unfold bar_quotient, B64.div.
      apply div_mono; auto with lits.
      apply key_of_leb; auto with lits.
  - intros H.
    assert (Hn1 : n <= 1).
    { destruct (py_gt (A_s i) B64.zero).
      - apply (py_ceil_mono (bar_quotient i b) lit_1_0 n 1); auto using py_ceil_one.
        + apply fin_nonneg_fin, (n_bars_quotient_fin i b n); assumption.
        + reflexivity.
        + rewrite <- K1. unfold bar_quotient, B64.div.
          apply div_mono; auto with lits.
          apply key_of_leb; auto with lits.
      - unfold ret in En. injection En as <-. lia. }
    split; [exact Hn1|].
    destruct (spacing_in_inv i n sp HL Es) as [[_ ->]|(Hn & _)]; [reflexivity|lia].
Qed.

Lemma X6_one_bar_threshold_witness :
  1 <= r_Bars low_area_row_10M
  /\ r_Bars low_area_row_10M <= 1 /\ r_Spacing low_area_row_10M = None.
Proof.
  destruct (X6_one_bar_threshold module_init low_area_inputs (bar10 low_area_inputs)
              low_area_row_10M eq_refl ltac:(unfold inputs_ok; repeat split)
              ltac:(vm_compute; reflexivity)) as [H1 H2].
  split; [apply H1|apply H2]; vm_compute; reflexivity.
Defined.

(** ** The spacing *)

(** X7: a spacing, when there is one, is not negative and not above the
    wall length in inches, both rounded to two decimals. *)
Theorem X7_spacing_within_wall G i b r s :
  constants_ok G -> inputs_ok i b -> call_calc G i b = inr r ->
  r_Spacing r = Some s ->
  B64.leb B64.zero s = true
  /\ B64.leb s (py_round (B64.mul (L_wall_ft i) lit_12_0) 2) = true.
Proof.
  intros HG Hok E Hs.
  destruct (call_calc_inv G i b r HG E) as (n & sp & _ & Esp & ->).
  assert (HL : fin_nonneg (L_wall_ft i)) by apply Hok.
  destruct (row_spacing_some i b n sp s HL Esp Hs) as (Hn & Hnn & ->).
  destruct (spacing_le_wall i n sp HL Hn Esp) as [_ K].
  assert (Wsp : wf sp) by (apply above_wf, nonneg_above; exact Hnn).
  assert (WL : wf (B64.mul (L_wall_ft i) lit_12_0))
    by (apply above_wf, nonneg_above, wall_in_nonneg; exact HL).
  split.
  - apply leb_of_key; [exact I|apply py_round_wf; [lia|exact Wsp]|].
    apply (py_round_sign sp 2); [lia|]. apply nonneg_key_iff; assumption.
  - apply leb_of_key; try (apply py_round_wf; [lia|assumption]).
    apply py_round_mono; [lia|assumption..].
Qed.

Lemma X7_spacing_within_wall_witness :
  B64.leb B64.zero (B64.lit 68 1) = true
  /\ B64.leb (B64.lit 68 1)
       (py_round (B64.mul (L_wall_ft default_inputs) lit_12_0) 2) = true.
Proof.
  apply (X7_spacing_within_wall module_init default_inputs (bar20 default_inputs)
           default_row_20M (B64.lit 68 1) eq_refl
           ltac:(unfold inputs_ok; repeat split));
    vm_compute; reflexivity.
Defined.

(** X8: with no more wall and no fewer bars the spacing is not larger. *)
Theorem X8_spacing_monotone G i i' b b' r r' s' :
  constants_ok G -> inputs_ok i b -> inputs_ok i' b' ->
  B64.leb (L_wall_ft i) (L_wall_ft i') = true ->
  r_Bars r' <= r_Bars r ->
  call_calc G i b = inr r -> call_calc G i' b' = inr r' ->
  r_Spacing r' = Some s' ->
  exists s, r_Spacing r = Some s /\ B64.leb s s' = true.
Proof.
  intros HG Hok Hok' HL Hn E E' Hs'.
  destruct (call_calc_inv G i b r HG E) as (n & sp & _ & Esp & ->).
  destruct (call_calc_inv G i' b' r' HG E') as (n' & sp' & _ & Esp' & ->).
  cbn [row_of r_Bars] in Hn.
  assert (H1 : fin_nonneg (L_wall_ft i)) by apply Hok.
  assert (H1' : fin_nonneg (L_wall_ft i')) by apply Hok'.
  destruct (row_spacing_some i' b' n' sp' s' H1' Esp' Hs') as (Hn' & Hnn' & ->).
  destruct (spacing_le_wall i n sp H1 ltac:(lia) Esp) as [Hnn _].
  assert (Wsp : wf sp) by (apply above_wf, nonneg_above; exact Hnn).
  assert (Wsp' : wf sp') by (apply above_wf, nonneg_above; exact Hnn').
  exists (py_round sp 2). split.
  - cbn [row_of r_Spacing]. rewrite (wf_not_nan sp Wsp). reflexivity.
  - apply leb_of_key; try (apply py_round_wf; [lia|assumption]).
    apply py_round_mono; [lia|assumption..|].
    apply (spacing_mono i i' n n'); auto.
Qed.

Lemma X8_spacing_monotone_witness :
  exists s, r_Spacing default_row_20M = Some s
            /\ B64.leb s (B64.lit 1166 2) = true.
Proof.
  apply (X8_spacing_monotone module_init default_inputs default_inputs
           (bar20 default_inputs) (bar25 default_inputs)
           default_row_20M default_row_25M (B64.lit 1166 2) eq_refl
           ltac:(unfold inputs_ok; repeat split)
           ltac:(unfold inputs_ok; repeat split));
    vm_compute; try reflexivity; discriminate.
Defined.

(** ** The lengths *)

(** X9: the lengths of a row do not decrease when the inflection distance,
    the wall thickness, the hook length, the span or the slab thickness
    grows or the cover shrinks, the bar diameter being the same. *)
Theorem X9_lengths_monotone G i i' b b' r r' :
  constants_ok G -> inputs_ok i b -> inputs_ok i' b' ->
  dia b = dia b' ->
  B64.leb (l_inf_m i) (l_inf_m i') = true ->
  B64.leb (t_wall_mm i) (t_wall_mm i') = true ->
  B64.leb (hook b) (hook b') = true ->
  B64.leb (d_c_mm i') (d_c_mm i) = true ->
  B64.leb (L_s_mm i) (L_s_mm i') = true ->
  B64.leb (t_slab_mm i) (t_slab_mm i') = true ->
  call_calc G i b = inr r -> call_calc G i' b' = inr r' ->
  B64.leb (r_d r) (r_d r') = true
  /\ B64.leb (r_l_span r) (r_l_span r') = true
  /\ B64.leb (r_l_add r) (r_l_add r') = true
  /\ B64.leb (r_L_req r) (r_L_req r') = true
  /\ B64.leb (r_L_03ln r) (r_L_03ln r') = true
  /\ B64.leb (r_Governing r) (r_Governing r') = true.
Proof.
  intros HG Hok Hok' Ed H1 H2 H3 H4 H5 H6 E E'.
  destruct (call_calc_inv G i b r HG E) as (n & sp & _ & _ & ->).
  destruct (call_calc_inv G i' b' r' HG E') as (n' & sp' & _ & _ & ->).
  cbn [row_of r_d r_l_span r_l_add r_L_req r_L_03ln r_Governing].
  pose proof (d_effective_mono i i' b b' Hok Hok' Ed H6) as Kd.
  pose proof (l_span_mono i i' b b' Hok Hok' H5) as Ks.
  pose proof (l_add_mono i i' b b' Hok Hok' Ed H6 H5) as Ka.
  pose proof (base_mono i i' b b' Hok Hok' H1 H2 H3 H4) as Kb.
  pose proof (L_03ln_mm_mono i i' b b' Hok Hok' H5 H2 H3 H4) as K3.
  assert (Kr : lex_le (key (L_req_mm i b)) (key (L_req_mm i' b'))).
  { unfold L_req_mm, B64.add.
    apply add_mono; auto using base_above, nonneg_above, l_add_nonneg. }
  assert (Krf : lex_le (key (L_req_ft i b)) (key (L_req_ft i' b'))).
  { unfold L_req_ft, B64.div. apply div_mono; auto with lits;
      apply above_wf, L_req_mm_above; assumption. }
  assert (K3f : lex_le (key (L_03ln_ft i b)) (key (L_03ln_ft i' b'))).
  { unfold L_03ln_ft, B64.div. apply div_mono; auto with lits;
      apply above_wf, L_03ln_mm_above; assumption. }
  assert (Kg : lex_le (key (governing_ft i b)) (key (governing_ft i' b'))).
  { unfold governing_ft. apply py_max2_mono; auto using L_req_ft_wf, L_03ln_ft_wf. }
  repeat split; apply round_leb; try lia;
    auto using d_effective_wf, l_add_wf, L_req_ft_wf, L_03ln_ft_wf, governing_ft_wf;
    apply above_wf, nonneg_above;
    first [apply l_span_nonneg with (b := b); exact Hok
          |apply l_span_nonneg with (b := b'); exact Hok'].
Qed.

Lemma X9_lengths_monotone_witness :
  B64.leb (r_d thin_slab_row_20M) (r_d default_row_20M) = true
  /\ B64.leb (r_l_span thin_slab_row_20M) (r_l_span default_row_20M) = true
  /\ B64.leb (r_l_add thin_slab_row_20M) (r_l_add default_row_20M) = true
  /\ B64.leb (r_L_req thin_slab_row_20M) (r_L_req default_row_20M) = true
  /\ B64.leb (r_L_03ln thin_slab_row_20M) (r_L_03ln default_row_20M) = true
  /\ B64.leb (r_Governing thin_slab_row_20M) (r_Governing default_row_20M)
     = true.
Proof.
  apply (X9_lengths_monotone module_init thin_slab_inputs default_inputs
           (bar20 thin_slab_inputs) (bar20 default_inputs)
           thin_slab_row_20M default_row_20M eq_refl
           ltac:(unfold inputs_ok; repeat split)
           ltac:(unfold inputs_ok; repeat split));
    vm_compute; reflexivity.
Defined.

(** X10: a larger bar diameter never lowers [l_db] and never raises the
    effective depth, in the rows as returned. *)
Theorem X10_diameter_monotone G i b b' r r' :
  constants_ok G -> inputs_ok i b -> inputs_ok i b' ->
  B64.leb (dia b) (dia b') = true ->
  call_calc G i b = inr r -> call_calc G i b' = inr r' ->
  B64.leb (r_l_db r) (r_l_db r') = true
  /\ B64.leb (r_d r') (r_d r) = true.
Proof.
  intros HG Hok Hok' H E E'.
  destruct (call_calc_inv G i b r HG E) as (n & sp & _ & _ & ->).
  destruct (call_calc_inv G i b' r' HG E') as (n' & sp' & _ & _ & ->).
  cbn [row_of r_d r_l_db].
  split; apply round_leb; try lia; auto using d_effective_wf, d_effective_anti_dia.
  - apply above_wf, nonneg_above, l_db_nonneg with (i := i); exact Hok.
  - apply above_wf, nonneg_above, l_db_nonneg with (i := i); exact Hok'.
  - apply l_db_mono; auto; [apply Hok|apply Hok'].
Qed.

Lemma X10_diameter_monotone_witness :
  B64.leb (r_l_db default_row_10M) (r_l_db default_row_30M) = true
  /\ B64.leb (r_d default_row_30M) (r_d default_row_10M) = true.
Proof.
  apply (X10_diameter_monotone module_init default_inputs
           (bar10 default_inputs) (bar30 default_inputs)
           default_row_10M default_row_30M eq_refl
           ltac:(unfold inputs_ok; repeat split)
           ltac:(unfold inputs_ok; repeat split));
    vm_compute; reflexivity.
Defined.

(** X11: when [0.3 * L_s] does not exceed [l_inf * 1000.0], the required
    length governs: the row holds the same value under both keys. *)
Theorem X11_required_length_governs G i b r :
  constants_ok G -> inputs_ok i b ->
  B64.leb (B64.mul lit_0_3 (L_s_mm i)) (B64.mul (l_inf_m i) lit_1000_0) = true ->
  call_calc G i b = inr r ->
  r_Governing r = r_L_req r
  /\ B64.leb (r_L_03ln r) (r_L_req r) = true.
Proof.
  intros HG Hok H E.
  destruct (call_calc_inv G i b r HG E) as (n & sp & _ & _ & ->).
  cbn [row_of r_L_req r_L_03ln r_Governing].
  destruct Hok as (HA & HLw & Tw & Dc & Li & Ls & Ts & Hd & Ha & Hk).
  assert (Hok : inputs_ok i b) by (unfold inputs_ok; tauto).
  assert (M : nonneg (SFmul prec emax (l_inf_m i) lit_1000_0))
    by (apply mul_nonneg; auto with lits).
  assert (M3 : nonneg (SFmul prec emax lit_0_3 (L_s_mm i)))
    by (apply mul_nonneg; auto with lits).
  assert (K0 : lex_le (key (SFmul prec emax lit_0_3 (L_s_mm i)))
                 (key (SFmul prec emax (l_inf_m i) lit_1000_0))).
  { apply leb_key; [| |exact H]; apply wf_not_nan, above_wf, nonneg_above; assumption. }
  assert (K1 : lex_le (key (L_03ln_mm i b)) (key (base_mm i b))).
  { unfold L_03ln_mm, base_mm, B64.sub, B64.add, B64.mul.
    apply sub_mono; auto using fin_nonneg_fin, lex_le_refl;
      try (apply nonneg_above; repeat apply add_nonneg; auto using fin_nonneg_nonneg).
    repeat (apply add_mono; auto using nonneg_above, fin_nonneg_nonneg, lex_le_refl;
            try (apply nonneg_above, add_nonneg; auto using fin_nonneg_nonneg)). }
  destruct (L_req_mm_above i b Hok) as [Wr Hr].
  assert (K2 : lex_le (key (L_03ln_mm i b)) (key (L_req_mm i b))).
  { eapply lex_le_trans; [exact K1|].
    apply leb_key; [| |exact Hr]; apply wf_not_nan, above_wf;
      auto using base_above. }
  assert (K3 : lex_le (key (L_03ln_ft i b)) (key (L_req_ft i b))).
  { unfold L_03ln_ft, L_req_ft, B64.div. apply div_mono; auto with lits.
    apply above_wf, L_03ln_mm_above; exact Hok. }
  unfold governing_ft.
  rewrite py_max2_first by auto using L_req_ft_wf, L_03ln_ft_wf.
  split; [reflexivity|].
  apply round_leb; auto using L_req_ft_wf, L_03ln_ft_wf. lia.
Qed.

Lemma X11_required_length_governs_witness :
  r_Governing default_row_20M = r_L_req default_row_20M
  /\ B64.leb (r_L_03ln default_row_20M) (r_L_req default_row_20M) = true.
Proof.
  apply (X11_required_length_governs module_init default_inputs (bar20 default_inputs)
           default_row_20M eq_refl ltac:(unfold inputs_ok; repeat split));
    vm_compute; reflexivity.
Defined.

(** ** The effective depth and its warning *)

(** X12: the effective depth is never above the slab thickness less 40 mm,
    before and after rounding. *)
Theorem X12_depth_below_slab G i b r :
  constants_ok G -> inputs_ok i b -> call_calc G i b = inr r ->
  B64.leb (d_effective_mm i b) (B64.sub (t_slab_mm i) lit_40_0) = true
  /\ B64.leb (r_d r) (py_round (B64.sub (t_slab_mm i) lit_40_0) 1) = true.
Proof.
  intros HG Hok E.
  destruct (call_calc_inv G i b r HG E) as (n & sp & _ & _ & ->).
  cbn [row_of r_d].
  pose proof (d_effective_le_slab i b Hok) as K.
  pose proof (d_effective_wf i b Hok) as W.
  assert (W' : wf (B64.sub (t_slab_mm i) lit_40_0))
    by (apply slab_minus_40_wf, Hok).
  split; [apply leb_of_key; assumption|].
  apply round_leb; auto. lia.
Qed.

Lemma X12_depth_below_slab_witness :
  B64.leb (d_effective_mm default_inputs (bar20 default_inputs))
    (B64.sub (t_slab_mm default_inputs) lit_40_0) = true
  /\ B64.leb (r_d default_row_20M)
       (py_round (B64.sub (t_slab_mm default_inputs) lit_40_0) 1) = true.
Proof.
  apply (X12_depth_below_slab module_init default_inputs (bar20 default_inputs)
           default_row_20M eq_refl ltac:(unfold inputs_ok; repeat split)).
  vm_compute. reflexivity.
Defined.

(** X13: whenever the slab is at most 39.9 mm thick, each of the five bars
    gets the negative-depth warning. *)
Theorem X13_thin_slab_warns_every_bar i G :
  script i = inr G ->
  (forall b, In b (bars i) -> inputs_ok i b) ->
  B64.leb (t_slab_mm i) lit_39_9 = true ->
  forall b, In b (bars i) -> warns_negative_depth (label b) (warns G).
Proof.
  intros H Hok Ht b Hb.
  destruct (script_row_of_bar i G b H Hb) as (r & _ & E & _).
  apply (script_negative_depth_iff i G b r H Hb E).
  destruct (call_calc_inv module_init i b r eq_refl E) as (n & sp & _ & _ & ->).
  cbn [row_of r_d].
  pose proof (d_effective_wf i b (Hok b Hb)) as W.
  apply (round1_negative _ W).
  assert (Hts : fin_nonneg (t_slab_mm i)) by apply (Hok b Hb).
  apply leb_of_key; [exact W|reflexivity|].
  eapply lex_le_trans; [apply d_effective_le_slab; auto|].
  apply (lex_le_trans _ (key (B64.sub lit_39_9 lit_40_0))); [|cbn; lia].
  unfold B64.sub. apply sub_mono; try reflexivity; try apply lex_le_refl.
  - apply nonneg_above, fin_nonneg_nonneg; exact Hts.
  - apply key_of_leb; [exact Hts|reflexivity|exact Ht].
Qed.

Lemma X13_thin_slab_warns_every_bar_witness :
  warns_negative_depth "10M" (warns thin_slab_result).
Proof.
  apply (X13_thin_slab_warns_every_bar thin_slab_inputs thin_slab_result
           ltac:(vm_compute; reflexivity) thin_slab_inputs_ok
           ltac:(vm_compute; reflexivity)
           (bar10 thin_slab_inputs) (or_introl eq_refl)).
Defined.

(** X14: making the slab thicker never adds a negative-depth warning. *)
Theorem X14_thicker_slab_no_new_warning i i' G G' b b' :
  script i = inr G -> script i' = inr G' ->
  In b (bars i) -> In b' (bars i') ->
  inputs_ok i b -> inputs_ok i' b' ->
  label b = label b' -> dia b = dia b' ->
  B64.leb (t_slab_mm i) (t_slab_mm i') = true ->
  warns_negative_depth (label b') (warns G') ->
  warns_negative_depth (label b) (warns G).
Proof.
  intros H H' Hb Hb' Hok Hok' El Ed Ht W.
  destruct (script_row_of_bar i G b H Hb) as (r & _ & E & _).
  destruct (script_row_of_bar i' G' b' H' Hb') as (r' & _ & E' & _).
  apply (script_negative_depth_iff i G b r H Hb E).
  apply (script_negative_depth_iff i' G' b' r' H' Hb' E') in W.
  destruct (call_calc_inv module_init i b r eq_refl E) as (n & sp & _ & _ & ->).
  destruct (call_calc_inv module_init i' b' r' eq_refl E') as (n' & sp' & _ & _ & ->).
  cbn [row_of r_d] in W |- *.
  pose proof (d_effective_mono i i' b b' Hok Hok' Ed Ht) as K.
  pose proof (d_effective_wf i b Hok) as Wd.
  pose proof (d_effective_wf i' b' Hok') as Wd'.
  pose proof (py_round_mono _ _ 1 ltac:(lia) Wd Wd' K) as Kr.
  apply ltb_zero_key in W; [|apply py_round_wf; [lia|exact Wd']].
  apply ltb_zero_key; [apply py_round_wf; [lia|exact Wd]|].
  unfold lex_lt, lex_le in *.
  destruct (key (py_round (d_effective_mm i b) 1)) as [[a1 a2] a3],
    (key (py_round (d_effective_mm i' b') 1)) as [[b1 b2] b3]. lia.
Qed.

Lemma X14_thicker_slab_no_new_warning_witness :
  warns_negative_depth "20M" (warns thin_slab_result).
Proof.
  apply (X14_thicker_slab_no_new_warning thin_slab_inputs slab_35_inputs thin_slab_result slab_35_result
           (bar20 thin_slab_inputs) (bar20 slab_35_inputs)
           ltac:(vm_compute; reflexivity) ltac:(vm_compute; reflexivity)
           ltac:(cbn; tauto) ltac:(cbn; tauto)
           ltac:(unfold inputs_ok; repeat split)
           ltac:(unfold inputs_ok; repeat split)
           eq_refl eq_refl ltac:(vm_compute; reflexivity)).
  unfold warns_negative_depth. eexists. vm_compute.
  right. right. left. reflexivity.
Defined.

(** ** The bar-count warning *)

(** X15: in a completed run the "only n bar" warning of a bar carries the
    bar count of its row, which is 0 or 1, and the bar gets the warning
    exactly when its row has no spacing. *)
Theorem X15_only_bars_warning i G b r :
  script i = inr G ->
  (forall b, In b (bars i) -> inputs_ok i b) ->
  In b (bars i) -> call_calc module_init i b = inr r ->
  (warns_only_bars (label b) (warns G) <-> r_Spacing r = None)
  /\ (forall n, In (OnlyBarsComputed (label b) n) (warns G) ->
        n = r_Bars r /\ (n = 0 \/ n = 1)).
Proof.
  intros H Hok Hb E.
  pose proof (script_inv i G H) as (r1 & r2 & r3 & r4 & r5 & _ & Ew & _).
  assert (Hrow : In r (rows G)).
  { destruct (script_row_of_bar i G b H Hb) as (r0 & Hr0 & E0 & _).
    rewrite E0 in E. injection E as <-. exact Hr0. }
  assert (Hl : r_Bar r = label b) by (eapply call_calc_label; eassumption).
  assert (Hown : forall n, In (OnlyBarsComputed (label b) n) (warns G) ->
            n = r_Bars r /\ n <= 1).
  { intros n Hn. rewrite Ew in Hn. apply in_flat_map in Hn.
    destruct Hn as (r0 & Hr0 & Hn). apply row_warnings_only in Hn.
    destruct Hn as (Hl0 & <- & Hle).
    destruct (script_bar_of_row i G r0 H Hr0) as (b0 & Hb0 & E0).
    assert (b0 = b).
    { apply (bars_labels_distinct i); auto.
      rewrite <- Hl0. symmetry. eapply call_calc_label; eassumption. }
    subst b0. rewrite E0 in E. injection E as <-. auto. }
  destruct (call_calc_inv module_init i b r eq_refl E) as (n & sp & En & Es & Er).
  assert (HA : fin_nonneg (A_s i)) by apply (Hok b Hb).
  assert (Ha : fin_nonneg (area b)) by apply (Hok b Hb).
  assert (HL : fin_nonneg (L_wall_ft i)) by apply (Hok b Hb).
  pose proof (n_bars_nonneg i b n HA Ha En) as Hn0.
  assert (Hbars : r_Bars r = n) by (rewrite Er; reflexivity).
  assert (Hsp : r_Spacing r = None <-> n < 2).
  { rewrite Er. cbn [row_of r_Spacing].
    destruct (spacing_in_inv i n sp HL Es) as [[Hn ->]|(Hn & Hnn & _)].
    - cbn. split; [lia|reflexivity].
    - rewrite (wf_not_nan sp) by (apply above_wf, nonneg_above; exact Hnn).
      split; [discriminate|lia]. }
  split.
  - split.
    + intros [m Hm]. apply Hown in Hm. apply Hsp. lia.
    + intros Hs. apply Hsp in Hs. exists (r_Bars r). rewrite Ew.
      apply in_flat_map. exists r. split; [exact Hrow|].
      apply row_warnings_only. repeat split; [exact Hl|lia].
  - intros m Hm. destruct (Hown m Hm) as [-> Hle]. split; [reflexivity|lia].
Qed.

Lemma X15_only_bars_warning_witness :
  warns_only_bars "10M" (warns low_area_result)
  /\ forall n, In (OnlyBarsComputed "10M" n) (warns low_area_result) -> n = 1.
Proof.
  destruct (X15_only_bars_warning low_area_inputs low_area_result (bar10 low_area_inputs)
              low_area_row_10M ltac:(vm_compute; reflexivity)
              low_area_inputs_ok (or_introl eq_refl)
              ltac:(vm_compute; reflexivity)) as [H1 H2].
  split; [apply H1; reflexivity|].
  intros n Hn. apply (H2 n Hn).
Defined.

(** ** The values of a row *)

(** X16: no numeric field of a returned row is NaN, and the three lengths
    in feet are never [-inf]. *)
Theorem X16_row_has_no_nan G i b r :
  constants_ok G -> inputs_ok i b -> call_calc G i b = inr r ->
  B64.is_nan (r_Dia r) = false /\ B64.is_nan (r_Area r) = false
  /\ (forall s, r_Spacing r = Some s -> B64.is_nan s = false)
  /\ B64.is_nan (r_d r) = false /\ B64.is_nan (r_l_db r) = false
  /\ B64.is_nan (r_l_span r) = false /\ B64.is_nan (r_l_add r) = false
  /\ B64.is_nan (r_L_req r) = false /\ B64.is_nan (r_L_03ln r) = false
  /\ B64.is_nan (r_Governing r) = false
  /\ r_L_req r <> S754_infinity true /\ r_L_03ln r <> S754_infinity true
  /\ r_Governing r <> S754_infinity true.
Proof.
  intros HG Hok E.
  destruct (call_calc_inv G i b r HG E) as (n & sp & _ & Es & ->).
  cbn [row_of r_Dia r_Area r_Spacing r_d r_l_db r_l_span r_l_add r_L_req
         r_L_03ln r_Governing].
  assert (HL : fin_nonneg (L_wall_ft i)) by apply Hok.
  assert (Hd : wf (dia b)) by (apply above_wf, nonneg_above, fin_nonneg_nonneg, Hok).
  assert (Ha : wf (area b)) by (apply above_wf, nonneg_above, fin_nonneg_nonneg, Hok).
  assert (R : forall x nd, 0 <= nd -> wf x -> B64.is_nan (py_round x nd) = false)
    by (intros; apply wf_not_nan, py_round_wf; assumption).
  assert (Rinf : forall x, above_ninf x -> wf (SFdiv prec emax x lit_304_8) ->
             py_round (SFdiv prec emax x lit_304_8) 3 <> S754_infinity true).
  { intros x Hx W Ei.
    assert (A : above_ninf (SFdiv prec emax x lit_304_8)).
    { destruct (div_sign x lit_304_8 (above_wf x Hx) lit_3048_pos) as (_ & Hp & _).
      destruct x as [s|[]| |[] m e]; cbn in Hx; try contradiction;
        try (specialize (Hp ltac:(cbn; lia));
             destruct (SFdiv prec emax _ lit_304_8) as [|[]| |]; cbn in *;
             auto; lia).
      pose proof (div_mono min_float (S754_finite true m e) lit_304_8 eq_refl Hx
                    lit_3048_pos (key_min_float (S754_finite true m e) Hx)) as K.
      destruct (SFdiv prec emax (S754_finite true m e) lit_304_8) as [|[]| |];
        cbn in W |- *; auto.
      vm_compute in K. destruct K as [K|[K _]]; discriminate K. }
    pose proof (py_round_above _ 3 ltac:(lia) A) as A'.
    rewrite Ei in A'. exact A'. }
  pose proof (L_req_mm_above i b Hok) as [Ar _].
  pose proof (L_03ln_mm_above i b Hok) as A3.
  repeat split; try (apply R; [lia|]);
    auto using d_effective_wf, l_add_wf, L_req_ft_wf, L_03ln_ft_wf, governing_ft_wf.
  - intros s Hs.
    destruct (row_spacing_some i b n sp s HL Es Hs) as (_ & Hnn & ->).
    apply R; [lia|]. apply above_wf, nonneg_above; exact Hnn.
  - apply above_wf, nonneg_above, l_db_nonneg with (i := i); exact Hok.
  - apply above_wf, nonneg_above, l_span_nonneg with (b := b); exact Hok.
  - apply Rinf; [exact Ar|apply L_req_ft_wf; exact Hok].
  - apply Rinf; [exact A3|apply L_03ln_ft_wf; exact Hok].
  - unfold governing_ft.
    destruct (py_max2_cases (L_req_ft i b) (L_03ln_ft i b)) as [->| ->].
    + apply Rinf; [exact Ar|apply L_req_ft_wf; exact Hok].
    + apply Rinf; [exact A3|apply L_03ln_ft_wf; exact Hok].
Qed.

Lemma X16_row_has_no_nan_witness :
  B64.is_nan (r_d default_row_20M) = false
  /\ B64.is_nan (r_Governing default_row_20M) = false.
Proof.
  pose proof (X16_row_has_no_nan module_init default_inputs (bar20 default_inputs)
                default_row_20M eq_refl ltac:(unfold inputs_ok; repeat split)
                ltac:(vm_compute; reflexivity)) as H.
  split; apply H.
Defined.

(** X17: while no field that enters a length exceeds [1e300], every
    number of a returned row is finite: neither an infinity nor NaN. *)
Theorem X17_row_is_finite G i b r :
  constants_ok G -> inputs_ok i b -> inputs_bounded i b ->
  call_calc G i b = inr r ->
  B64.is_finite (r_Dia r) = true /\ B64.is_finite (r_Area r) = true
  /\ (forall s, r_Spacing r = Some s -> B64.is_finite s = true)
  /\ B64.is_finite (r_d r) = true /\ B64.is_finite (r_l_db r) = true
  /\ B64.is_finite (r_l_span r) = true /\ B64.is_finite (r_l_add r) = true
  /\ B64.is_finite (r_L_req r) = true /\ B64.is_finite (r_L_03ln r) = true
  /\ B64.is_finite (r_Governing r) = true.
Proof.
  intros HG Hok Hbd E.
  destruct (call_calc_inv G i b r HG E) as (n & sp & _ & Es & ->).
  cbn [row_of r_Dia r_Area r_Spacing r_d r_l_db r_l_span r_l_add r_L_req
         r_L_03ln r_Governing].
  assert (HL : fin_nonneg (L_wall_ft i)) by apply Hok.
  assert (HB : B64.leb (L_wall_ft i) lit_1e300 = true) by apply Hbd.
  assert (Fr : fin (L_req_ft i b)) by (apply to_feet_fin, L_req_mm_fin; assumption).
  assert (F3 : fin (L_03ln_ft i b)) by (apply to_feet_fin, L_03ln_mm_fin; assumption).
  repeat split; try (apply fin_is_finite, py_round_fin; [lia|]).
  - apply fin_nonneg_fin, Hok.
  - apply fin_nonneg_fin, Hok.
  - intros s Hs.
    destruct (row_spacing_some i b n sp s HL Es Hs) as (Hn & _ & ->).
    apply fin_is_finite, py_round_fin; [lia|].
    apply (spacing_fin i n); assumption.
  - apply d_effective_fin; assumption.
  - apply fin_nonneg_fin, (l_db_fin i b); assumption.
  - apply fin_nonneg_fin, (l_span_fin i b); assumption.
  - apply fin_nonneg_fin, l_add_fin; assumption.
  - exact Fr.
  - exact F3.
  - unfold governing_ft. apply py_max2_fin; assumption.
Qed.

Lemma X17_row_is_finite_witness :
  B64.is_finite (r_d default_row_20M) = true
  /\ B64.is_finite (r_L_req default_row_20M) = true.
Proof.
  pose proof (X17_row_is_finite module_init default_inputs (bar20 default_inputs)
                default_row_20M eq_refl ltac:(unfold inputs_ok; repeat split)
                ltac:(unfold inputs_bounded; repeat split)
                ltac:(vm_compute; reflexivity)) as H.
  split; apply H.
Defined.
